(** * SnapAsk: the local conversation persistence layer

    A shallow embedding of [DatabaseService], migration
    [001_initial_schema] and [ConversationService], together with the
    properties of the persistence layer that the design document states.

    The JavaScript code talks to SQLite through prepared statements.  The
    embedding keeps the code's structure: every method is an action in a
    small state-and-exception monad over a [World] that holds the database
    file, the wall clock read by [Date.now()] and the source of
    [randomUUID()].  Each SQL statement the code prepares is one engine
    primitive acting on tables kept in rowid order. *)

From Stdlib Require Import String Ascii.
From Stdlib Require Import List ZArith NArith Bool Lia.
From Stdlib Require Import Sorting.Sorted Sorting.Permutation.
From Stdlib Require Import DecimalPos DecimalZ.
Import ListNotations.
Local Open Scope Z_scope.

(* ===================================================================== *)
(** ** JavaScript strings and numbers *)
(* ===================================================================== *)

Module Js.

(** A JavaScript string is a sequence of UTF-16 code units; [length] and
    [substring] count code units. *)
Definition code_unit := N.
Definition jsstring := list code_unit.

Definition of_string (s : string) : jsstring :=
  map N_of_ascii (list_ascii_of_string s).

Fixpoint eqb (a b : jsstring) : bool :=
  match a, b with
  | [], [] => true
  | x :: a', y :: b' => (x =? y)%N && eqb a' b'
  | _, _ => false
  end.

Lemma eqb_eq a b : eqb a b = true <-> a = b.
Proof.
  revert b. induction a as [|x a IH]; intros [|y b]; simpl;
    try (split; congruence).
  rewrite andb_true_iff, N.eqb_eq, IH. split.
  - intros [-> ->]. reflexivity.
  - intros H. inversion H. auto.
Qed.

Lemma eqb_refl a : eqb a a = true.
Proof. apply eqb_eq. reflexivity. Qed.

Lemma eqb_neq a b : eqb a b = false <-> a <> b.
Proof.
  rewrite <- eqb_eq. destruct (eqb a b); split; congruence.
Qed.

(** [WhiteSpace] and [LineTerminator] code points, the set that
    [String.prototype.trim] strips. *)
Definition is_whitespace (c : code_unit) : bool :=
  ((9 <=? c) && (c <=? 13) || (c =? 32) || (c =? 160) || (c =? 5760)
   || (8192 <=? c) && (c <=? 8202) || (c =? 8232) || (c =? 8233)
   || (c =? 8239) || (c =? 8287) || (c =? 12288) || (c =? 65279))%N.

Fixpoint trim_start (s : jsstring) : jsstring :=
  match s with
  | c :: s' => if is_whitespace c then trim_start s' else s
  | [] => []
  end.

Definition trim_end (s : jsstring) : jsstring :=
  rev (trim_start (rev s)).

(** [s.trim()] *)
Definition trim (s : jsstring) : jsstring := trim_end (trim_start s).

(** [s.substring(0, n)] for a non-negative [n]. *)
Definition substring0 (n : nat) (s : jsstring) : jsstring := firstn n s.

(** Truthiness of a string: only the empty string is falsy. *)
Definition truthy (s : jsstring) : bool :=
  match s with [] => false | _ => true end.

(** Decimal digits, for [Number.prototype.toString] and [parseInt]. *)
Fixpoint uint_chars (u : Decimal.uint) : jsstring :=
  match u with
  | Decimal.Nil => []
  | Decimal.D0 u => 48%N :: uint_chars u
  | Decimal.D1 u => 49%N :: uint_chars u
  | Decimal.D2 u => 50%N :: uint_chars u
  | Decimal.D3 u => 51%N :: uint_chars u
  | Decimal.D4 u => 52%N :: uint_chars u
  | Decimal.D5 u => 53%N :: uint_chars u
  | Decimal.D6 u => 54%N :: uint_chars u
  | Decimal.D7 u => 55%N :: uint_chars u
  | Decimal.D8 u => 56%N :: uint_chars u
  | Decimal.D9 u => 57%N :: uint_chars u
  end.

(** [n.toString()] for an integral number. *)
Definition toString (n : Z) : jsstring :=
  match Z.to_int n with
  | Decimal.Pos u => uint_chars u
  | Decimal.Neg u => 45%N :: uint_chars u
  end.

(** The longest prefix of decimal digits. *)
Fixpoint digits_prefix (s : jsstring) : Decimal.uint :=
  match s with
  | [] => Decimal.Nil
  | c :: s' =>
      if (c =? 48)%N then Decimal.D0 (digits_prefix s')
      else if (c =? 49)%N then Decimal.D1 (digits_prefix s')
      else if (c =? 50)%N then Decimal.D2 (digits_prefix s')
      else if (c =? 51)%N then Decimal.D3 (digits_prefix s')
      else if (c =? 52)%N then Decimal.D4 (digits_prefix s')
      else if (c =? 53)%N then Decimal.D5 (digits_prefix s')
      else if (c =? 54)%N then Decimal.D6 (digits_prefix s')
      else if (c =? 55)%N then Decimal.D7 (digits_prefix s')
      else if (c =? 56)%N then Decimal.D8 (digits_prefix s')
      else if (c =? 57)%N then Decimal.D9 (digits_prefix s')
      else Decimal.Nil
  end.

Definition unsigned_value (s : jsstring) : option Z :=
  match digits_prefix s with
  | Decimal.Nil => None
  | u => Some (Z.of_uint u)
  end.

(** [parseInt(s, 10)]: skip leading white space, read an optional sign and
    the longest run of decimal digits; [None] stands for [NaN]. *)
Definition parseInt (s : jsstring) : option Z :=
  match trim_start s with
  | c :: s' =>
      if (c =? 45)%N then option_map Z.opp (unsigned_value s')
      else if (c =? 43)%N then unsigned_value s'
      else unsigned_value (c :: s')
  | [] => None
  end.

Lemma digits_prefix_uint_chars u : digits_prefix (uint_chars u) = u.
Proof. induction u; simpl; congruence. Qed.

Lemma uint_chars_nil u : uint_chars u = [] -> u = Decimal.Nil.
Proof. destruct u; simpl; congruence. Qed.

Lemma to_uint_nonnil_pos p : Pos.to_uint p <> Decimal.Nil.
Proof. apply DecimalPos.Unsigned.to_uint_nonnil. Qed.

Lemma unsigned_value_uint_chars u :
  u <> Decimal.Nil -> unsigned_value (uint_chars u) = Some (Z.of_uint u).
Proof.
  intros Hn. unfold unsigned_value. rewrite digits_prefix_uint_chars.
  destruct u; congruence.
Qed.

Lemma unsigned_value_pos p :
  unsigned_value (uint_chars (Pos.to_uint p)) = Some (Z.pos p).
Proof.
  rewrite unsigned_value_uint_chars by apply to_uint_nonnil_pos.
  unfold Z.of_uint. rewrite DecimalPos.Unsigned.of_to. reflexivity.
Qed.

Lemma head_digit_not_space u c s :
  uint_chars u = c :: s ->
  is_whitespace c = false /\ (c =? 45)%N = false /\ (c =? 43)%N = false.
Proof.
  destruct u; simpl; intros H; inversion H; subst; repeat split; reflexivity.
Qed.

(** Reading back a printed integer gives the integer. *)
Lemma parseInt_toString n : parseInt (toString n) = Some n.
Proof.
  unfold toString, parseInt.
  destruct n as [|p|p]; simpl.
  - reflexivity.
  - pose proof (unsigned_value_pos p) as Hv.
    destruct (uint_chars (Pos.to_uint p)) as [|c s] eqn:E.
    + apply uint_chars_nil in E. destruct (to_uint_nonnil_pos p E).
    + destruct (head_digit_not_space _ _ _ E) as (Hw & Hm & Hp).
      simpl. rewrite Hw, Hm, Hp. exact Hv.
  - rewrite unsigned_value_pos. reflexivity.
Qed.

End Js.

Abbreviation jsstring := Js.jsstring.
Abbreviation js := Js.of_string.

(* ===================================================================== *)
(** ** The database file and the SQLite engine *)
(* ===================================================================== *)

(** Values the driver binds and the engine stores: numbers, strings and
    NULL ([null] and [undefined] both bind as NULL). *)
Inductive sqlval :=
| SNull
| SInt (n : Z)
| SText (s : jsstring).

(** Declared column types of the schema. *)
Inductive affinity := AffText | AffInteger.

(** A row of [conversations], column by column as migration 001 declares
    them.  [created_at], [updated_at] and [message_count] are only ever
    written with integers by the code. *)
Record conversation := mkConversation {
  c_id : jsstring;
  screenshot_data_url : option jsstring;
  screenshot_hash : option jsstring;
  title : sqlval;
  created_at : Z;
  updated_at : Z;
  message_count : Z;
  starred : sqlval;
  archived : sqlval
}.

(** A row of [messages]. *)
Record message := mkMessage {
  m_id : jsstring;
  conversation_id : jsstring;
  role : jsstring;
  content : jsstring;
  timestamp : Z;
  error : Z
}.

(** A row of [metadata]. *)
Record metadata_row := mkMetadata {
  key : jsstring;
  value : jsstring;
  meta_updated_at : Z
}.

(** The database as the single connection sees it.  A table is [None] until
    some [CREATE TABLE] has made it; rows are kept in rowid order, which for
    these tables is insertion order.  [foreign_keys] is the connection's
    pragma; the driver opens every connection with it on, and nothing in the
    application turns it off. *)
Record Db := mkDb {
  foreign_keys : bool;
  conversations : option (list conversation);
  messages : option (list message);
  metadata : option (list metadata_row)
}.

(** What [new Database(path)] sees on a path with no file: no table, and the
    pragma at the driver's default, which is on. *)
Definition fresh_db : Db := mkDb true None None None.

Definition set_foreign_keys (b : bool) (d : Db) : Db :=
  mkDb b (conversations d) (messages d) (metadata d).
Definition set_conversations (t : option (list conversation)) (d : Db) : Db :=
  mkDb (foreign_keys d) t (messages d) (metadata d).
Definition set_messages (t : option (list message)) (d : Db) : Db :=
  mkDb (foreign_keys d) (conversations d) t (metadata d).
Definition set_metadata (t : option (list metadata_row)) (d : Db) : Db :=
  mkDb (foreign_keys d) (conversations d) (messages d) t.

(** Exceptions that reach the caller. *)
Inductive exn :=
| NoSuchTable (name : string)
| PrimaryKeyViolation (table : string)
| ForeignKeyViolation
| NotNullViolation (column : string)
| TypeError (msg : string)
| Failure (msg : string).

(* ===================================================================== *)
(** ** The world and the monad of the services *)
(* ===================================================================== *)

(** Everything a service method can read or change: the database, the
    successive readings of [Date.now()], the successive results of
    [randomUUID()], and the versions announced by
    [logger.info(`Running migration ${version}`)]. *)
Record World := mkWorld {
  db : Db;
  clock : nat -> Z;
  ticks : nat;
  uuids : nat -> jsstring;
  draws : nat;
  migration_log : list Z
}.

Definition with_db (d : Db) (w : World) : World :=
  mkWorld d (clock w) (ticks w) (uuids w) (draws w) (migration_log w).

Inductive outcome (A : Type) :=
| Returned (a : A)
| Threw (e : exn).
Arguments Returned {A} a.
Arguments Threw {A} e.

Definition M (A : Type) : Type := World -> outcome A * World.

Definition ret {A} (a : A) : M A := fun w => (Returned a, w).

Definition bind {A B} (m : M A) (k : A -> M B) : M B :=
  fun w =>
    match m w with
    | (Returned a, w') => k a w'
    | (Threw e, w') => (Threw e, w')
    end.

Definition throw {A} (e : exn) : M A := fun w => (Threw e, w).

(** [try { m } catch { h }] *)
Definition try_catch {A} (m : M A) (h : exn -> M A) : M A :=
  fun w =>
    match m w with
    | (Returned a, w') => (Returned a, w')
    | (Threw e, w') => h e w'
    end.

Declare Scope service_scope.
Delimit Scope service_scope with service.
Notation "x <- m ;; k" := (bind m (fun x => k))
  (at level 61, m at next level, right associativity) : service_scope.
Notation "m ;;; k" := (bind m (fun _ => k))
  (at level 61, right associativity) : service_scope.
Local Open Scope service_scope.

(** [Date.now()] *)
Definition date_now : M Z :=
  fun w => (Returned (clock w (ticks w)),
            mkWorld (db w) (clock w) (S (ticks w)) (uuids w) (draws w)
                    (migration_log w)).

(** [randomUUID()] *)
Definition randomUUID : M jsstring :=
  fun w => (Returned (uuids w (draws w)),
            mkWorld (db w) (clock w) (ticks w) (uuids w) (S (draws w))
                    (migration_log w)).

Definition log_migration (v : Z) : M unit :=
  fun w => (Returned tt,
            mkWorld (db w) (clock w) (ticks w) (uuids w) (draws w)
                    (migration_log w ++ [v])).

Definition get_db : M Db := fun w => (Returned (db w), w).
Definition put_db (d : Db) : M unit := fun w => (Returned tt, with_db d w).

(** [list.forEach(f)], stopping at the first exception. *)
Fixpoint for_each {A} (f : A -> M unit) (l : list A) : M unit :=
  match l with
  | [] => ret tt
  | x :: l' => f x ;;; for_each f l'
  end.

(** The state a method leaves behind and the value it returns, if any. *)
Definition after {A} (m : M A) (w : World) : World := snd (m w).
Definition result {A} (m : M A) (w : World) : outcome A := fst (m w).

(* ===================================================================== *)
(** ** ORDER BY: a stable insertion sort *)
(* ===================================================================== *)

(** Rows that compare equal under the ordering key keep their rowid order,
    as an index scan of the table yields them. *)
Section StableSort.
Context {A : Type} (leb : A -> A -> bool).

Fixpoint insert_by (x : A) (l : list A) : list A :=
  match l with
  | [] => [x]
  | y :: l' => if leb x y then x :: l else y :: insert_by x l'
  end.

Definition sort_by (l : list A) : list A := fold_right insert_by [] l.

Lemma insert_by_perm x l : Permutation (x :: l) (insert_by x l).
Proof.
  induction l as [|y l IH]; simpl.
  - apply Permutation_refl.
  - destruct (leb x y).
    + apply Permutation_refl.
    + eapply perm_trans; [apply perm_swap|]. apply perm_skip, IH.
Qed.

Lemma sort_by_perm l : Permutation l (sort_by l).
Proof.
  induction l as [|x l IH]; simpl.
  - apply perm_nil.
  - eapply perm_trans; [apply perm_skip, IH|]. apply insert_by_perm.
Qed.

Lemma sort_by_length l : length (sort_by l) = length l.
Proof. symmetry. apply Permutation_length, sort_by_perm. Qed.

Lemma sort_by_In x l : In x (sort_by l) <-> In x l.
Proof.
  split; intros H.
  - eapply Permutation_in; [apply Permutation_sym, sort_by_perm|exact H].
  - eapply Permutation_in; [apply sort_by_perm|exact H].
Qed.

Hypothesis leb_total : forall x y, leb x y = false -> leb y x = true.

Lemma insert_by_sorted x l :
  Sorted (fun a b => leb a b = true) l ->
  Sorted (fun a b => leb a b = true) (insert_by x l).
Proof.
  induction l as [|y l IH]; simpl; intros Hs.
  - constructor; constructor.
  - destruct (leb x y) eqn:E.
    + constructor; [exact Hs|]. constructor. exact E.
    + inversion Hs as [|? ? Hs' Hhd]; subst.
      constructor; [apply IH, Hs'|].
      destruct l as [|z l]; simpl.
      * constructor. apply leb_total, E.
      * destruct (leb x z); constructor.
        -- apply leb_total, E.
        -- inversion Hhd; subst. assumption.
Qed.

Lemma sort_by_sorted l : Sorted (fun a b => leb a b = true) (sort_by l).
Proof.
  induction l as [|x l IH]; simpl.
  - constructor.
  - apply insert_by_sorted, IH.
Qed.

(** A list already in order is returned as it is. *)
Lemma sort_by_id l :
  StronglySorted (fun a b => leb a b = true) l -> sort_by l = l.
Proof.
  induction 1 as [|x l Hs IH Hall]; simpl.
  - reflexivity.
  - rewrite IH. destruct l as [|y l]; simpl.
    + reflexivity.
    + inversion Hall as [|? ? Hxy _]; subst. rewrite Hxy. reflexivity.
Qed.
End StableSort.

(* ===================================================================== *)
(** ** The statements the services prepare *)
(* ===================================================================== *)

Definition has_conversation (cid : jsstring) (d : Db) : bool :=
  match conversations d with
  | Some cs => existsb (fun c => Js.eqb (c_id c) cid) cs
  | None => false
  end.

(** [INSERT INTO conversations (id, screenshot_data_url, screenshot_hash,
    created_at, updated_at, message_count) VALUES (?, ?, ?, ?, ?, 0)];
    [title] gets NULL and [starred], [archived] their default 0. *)
Definition insert_conversation (id : jsstring) (shot hash : option jsstring)
    (created updated : Z) : M unit :=
  d <- get_db ;;
  match conversations d with
  | None => throw (NoSuchTable "conversations")
  | Some cs =>
      if existsb (fun c => Js.eqb (c_id c) id) cs
      then throw (PrimaryKeyViolation "conversations")
      else put_db (set_conversations
             (Some (cs ++ [mkConversation id shot hash SNull created updated 0
                                          (SInt 0) (SInt 0)])) d)
  end.

(** [INSERT INTO messages (id, conversation_id, role, content, timestamp,
    error) VALUES (?, ?, ?, ?, ?, ?)], with the foreign key on
    [conversation_id] enforced when the pragma is on. *)
Definition insert_message (row : message) : M unit :=
  d <- get_db ;;
  match messages d with
  | None => throw (NoSuchTable "messages")
  | Some ms =>
      if existsb (fun m => Js.eqb (m_id m) (m_id row)) ms
      then throw (PrimaryKeyViolation "messages")
      else if foreign_keys d && negb (has_conversation (conversation_id row) d)
      then throw ForeignKeyViolation
      else put_db (set_messages (Some (ms ++ [row])) d)
  end.

(** [UPDATE conversations SET ... WHERE id = ?] *)
Definition update_conversations (cid : jsstring)
    (f : conversation -> conversation) : M unit :=
  d <- get_db ;;
  match conversations d with
  | None => throw (NoSuchTable "conversations")
  | Some cs =>
      put_db (set_conversations
        (Some (map (fun c => if Js.eqb (c_id c) cid then f c else c) cs)) d)
  end.

(** [DELETE FROM conversations WHERE id = ?].  With the pragma on, the
    [ON DELETE CASCADE] rule of [messages.conversation_id] removes the
    children of every deleted row. *)
Definition delete_from_conversations (cid : jsstring) : M unit :=
  d <- get_db ;;
  match conversations d with
  | None => throw (NoSuchTable "conversations")
  | Some cs =>
      let cs' := filter (fun c => negb (Js.eqb (c_id c) cid)) cs in
      let ms' :=
        if foreign_keys d && has_conversation cid d
        then option_map
               (filter (fun m => negb (Js.eqb (conversation_id m) cid)))
               (messages d)
        else messages d in
      put_db (mkDb (foreign_keys d) (Some cs') ms' (metadata d))
  end.

(** [SELECT * FROM conversations WHERE id = ?], first row or nothing. *)
Definition select_conversation (cid : jsstring) : M (option conversation) :=
  d <- get_db ;;
  match conversations d with
  | None => throw (NoSuchTable "conversations")
  | Some cs => ret (find (fun c => Js.eqb (c_id c) cid) cs)
  end.

Definition by_timestamp (a b : message) : bool := timestamp a <=? timestamp b.

(** [SELECT id, role, content, timestamp, error FROM messages
    WHERE conversation_id = ? ORDER BY timestamp ASC] *)
Definition select_messages (cid : jsstring) : M (list message) :=
  d <- get_db ;;
  match messages d with
  | None => throw (NoSuchTable "messages")
  | Some ms =>
      ret (sort_by by_timestamp
             (filter (fun m => Js.eqb (conversation_id m) cid) ms))
  end.

(** [(SELECT content FROM messages WHERE conversation_id = c.id AND
    role = r ORDER BY timestamp ASC LIMIT 1)]; NULL when there is none. *)
Definition first_content (r : jsstring) (cid : jsstring) (ms : list message)
    : option jsstring :=
  match sort_by by_timestamp
          (filter (fun m => Js.eqb (conversation_id m) cid
                            && Js.eqb (role m) r) ms) with
  | m :: _ => Some (content m)
  | [] => None
  end.

(** The conditions [getAllConversations] appends to [WHERE 1=1]. *)
Inductive condition :=
| ArchivedIs (n : Z)
| StarredIs (n : Z).

(** [column = n] for an integer literal [n]: true only on an equal
    integer. *)
Definition sql_equals (v : sqlval) (n : Z) : bool :=
  match v with
  | SInt k => k =? n
  | _ => false
  end.

Definition holds (c : conversation) (q : condition) : bool :=
  match q with
  | ArchivedIs n => sql_equals (archived c) n
  | StarredIs n => sql_equals (starred c) n
  end.

(** [LIMIT ? OFFSET ?]: a negative limit means no limit, a negative offset
    means none. *)
Definition limit_offset {A} (limit offset : Z) (l : list A) : list A :=
  let l' := skipn (Z.to_nat offset) l in
  if limit <? 0 then l' else firstn (Z.to_nat limit) l'.

(** A row of the listing query. *)
Record listed_row := mkListed {
  l_id : jsstring;
  l_created_at : Z;
  l_updated_at : Z;
  l_message_count : Z;
  l_starred : sqlval;
  l_archived : sqlval;
  first_prompt : option jsstring;
  first_answer : option jsstring
}.

Definition by_updated_desc (a b : conversation) : bool :=
  updated_at b <=? updated_at a.

(** [SELECT c.id, c.created_at, c.updated_at, c.message_count, c.starred,
    c.archived, (...) as first_prompt, (...) as first_answer
    FROM conversations c WHERE ... ORDER BY c.updated_at DESC
    LIMIT ? OFFSET ?]: first the columns of one row, then the statement. *)
Definition listing_row (ms : list message) (c : conversation) : listed_row :=
  mkListed (c_id c) (created_at c) (updated_at c) (message_count c)
    (starred c) (archived c)
    (first_content (js "user") (c_id c) ms)
    (first_content (js "assistant") (c_id c) ms).

Definition select_listing (whereClause : list condition) (limit offset : Z)
    : M (list listed_row) :=
  d <- get_db ;;
  match conversations d, messages d with
  | Some cs, Some ms =>
      ret (map (listing_row ms)
             (limit_offset limit offset
                (sort_by by_updated_desc
                   (filter (fun c => forallb (holds c) whereClause) cs))))
  | None, _ => throw (NoSuchTable "conversations")
  | _, None => throw (NoSuchTable "messages")
  end.

(** [CREATE TABLE IF NOT EXISTS ...] for the three tables. *)
Definition create_conversations_if_not_exists : M unit :=
  d <- get_db ;;
  match conversations d with
  | Some _ => ret tt
  | None => put_db (set_conversations (Some []) d)
  end.

Definition create_messages_if_not_exists : M unit :=
  d <- get_db ;;
  match messages d with
  | Some _ => ret tt
  | None => put_db (set_messages (Some []) d)
  end.

Definition create_metadata_if_not_exists : M unit :=
  d <- get_db ;;
  match metadata d with
  | Some _ => ret tt
  | None => put_db (set_metadata (Some []) d)
  end.

(** [INSERT OR REPLACE INTO metadata (key, value, updated_at)
    VALUES (?, ?, ?)]: a row with the same key is deleted first. *)
Definition insert_or_replace_metadata (k v : jsstring) (t : Z) : M unit :=
  d <- get_db ;;
  match metadata d with
  | None => throw (NoSuchTable "metadata")
  | Some rows =>
      put_db (set_metadata
        (Some (filter (fun r => negb (Js.eqb (key r) k)) rows
               ++ [mkMetadata k v t])) d)
  end.

(** [SELECT value FROM metadata WHERE key = ?], first row or nothing. *)
Definition select_metadata_value (k : jsstring) : M (option jsstring) :=
  d <- get_db ;;
  match metadata d with
  | None => throw (NoSuchTable "metadata")
  | Some rows =>
      ret (option_map value (find (fun r => Js.eqb (key r) k) rows))
  end.

(** [db.pragma('foreign_keys = ON')] *)
Definition pragma_foreign_keys (b : bool) : M unit :=
  d <- get_db ;; put_db (set_foreign_keys b d).

(** [db.prepare(sql)] throws when the statement names a table that does not
    exist. *)
Definition prepare_conversations : M unit :=
  d <- get_db ;;
  match conversations d with
  | Some _ => ret tt
  | None => throw (NoSuchTable "conversations")
  end.

Definition prepare_messages : M unit :=
  d <- get_db ;;
  match messages d with
  | Some _ => ret tt
  | None => throw (NoSuchTable "messages")
  end.

Definition prepare_metadata : M unit :=
  d <- get_db ;;
  match metadata d with
  | Some _ => ret tt
  | None => throw (NoSuchTable "metadata")
  end.

(* ===================================================================== *)
(** ** DatabaseService and migration 001 *)
(* ===================================================================== *)

(** A migration module: [{ version, up }]. *)
Record migration := mkMigration {
  version : Z;
  up : M unit
}.

(** [001_initial_schema.js] *)
Definition migration_001 : migration :=
  mkMigration 1
    (create_conversations_if_not_exists ;;;
     create_messages_if_not_exists ;;;
     create_metadata_if_not_exists ;;;
     prepare_metadata ;;;
     now <- date_now ;;
     insert_or_replace_metadata (js "schema_version") (js "1") now).

(** The migrations directory of the repository. *)
Definition repo_migrations : list migration := [migration_001].

Module DatabaseService.

(** [getCurrentVersion()]; [None] stands for [NaN]. *)
Definition getCurrentVersion : M (option Z) :=
  try_catch
    (prepare_metadata ;;;
     row <- select_metadata_value (js "schema_version") ;;
     ret (match row with
          | Some v => Js.parseInt v
          | None => Some 0
          end))
    (fun _ => ret (Some 0)).

(** [setVersion(version)] *)
Definition setVersion (v : Z) : M unit :=
  prepare_metadata ;;;
  now <- date_now ;;
  insert_or_replace_metadata (js "schema_version") (Js.toString v) now.

(** [m.version > currentVersion]; every comparison with [NaN] is false. *)
Definition newer_than (currentVersion : option Z) (m : migration) : bool :=
  match currentVersion with
  | Some c => c <? version m
  | None => false
  end.

(** The comparator [(a, b) => a.version - b.version]. *)
Definition by_version (a b : migration) : bool := version a <=? version b.

(** The body of the [forEach] in [runMigrations]. *)
Definition apply_migration (m : migration) : M unit :=
  log_migration (version m) ;;;
  up m ;;;
  setVersion (version m).

(** [runMigrations()], over the modules [loadMigrations()] returned. *)
Definition runMigrations (loaded : list migration) : M unit :=
  currentVersion <- getCurrentVersion ;;
  let migrations := loaded in
  for_each apply_migration
    (sort_by by_version (filter (newer_than currentVersion) migrations)).

(** [initialize()]: open the file, turn foreign keys on, run the
    migrations.  The [catch] logs and rethrows. *)
Definition initialize (loaded : list migration) : M unit :=
  pragma_foreign_keys true ;;;
  runMigrations loaded.

End DatabaseService.

(* ===================================================================== *)
(** ** ConversationService *)
(* ===================================================================== *)

(** A property of [filters] or [updates]: a JavaScript primitive.  Numbers
    are integers; objects, arrays and functions are not modelled. *)
Inductive jsval :=
| JUndefined
| JNull
| JBool (b : bool)
| JNum (n : Z)
| JStr (s : jsstring).

(** [v === true], [v === false] *)
Definition strict_eq_bool (v : jsval) (b : bool) : bool :=
  match v with
  | JBool b' => Bool.eqb b' b
  | _ => false
  end.

Record filters := mkFilters {
  f_archived : jsval;
  f_starred : jsval
}.

(** [{}] *)
Definition no_filters : filters := mkFilters JUndefined JUndefined.

(** [{ id, created_at }] *)
Record created := mkCreated {
  new_id : jsstring;
  new_created_at : Z
}.

(** [{ id, timestamp }] *)
Record saved := mkSaved {
  saved_id : jsstring;
  saved_timestamp : Z
}.

(** An element of the array [getAllConversations] returns. *)
Record summary := mkSummary {
  s_id : jsstring;
  s_created_at : Z;
  s_updated_at : Z;
  s_message_count : Z;
  s_starred : sqlval;
  s_archived : sqlval;
  s_title : jsstring;
  s_preview : jsstring
}.

(** A message in the format expected by the UI. *)
Record ui_message := mkUi {
  ui_id : jsstring;
  ui_prompt : option jsstring;
  ui_answer : option jsstring;
  ui_role : jsstring;
  ui_content : jsstring;
  ui_timestamp : Z;
  ui_error : bool
}.

(** An element of the array given to [saveCompleteConversation]. *)
Record item := mkItem {
  prompt : jsstring;
  answer : jsstring;
  item_error : option bool
}.

(** An own enumerable property of the [updates] object; [Object.keys] lists
    the names in property order and [updates[key]] reads the first. *)
Definition object := list (jsstring * jsval).

Definition keys (o : object) : list jsstring := map fst o.

Definition get_property (o : object) (k : jsstring) : jsval :=
  match find (fun p => Js.eqb (fst p) k) o with
  | Some p => snd p
  | None => JUndefined
  end.

(** What the driver binds for one parameter of [stmt.run]: NULL for [null]
    and [undefined], the number, the string.  It refuses a boolean, which is
    [None] here. *)
Definition bind_value (v : jsval) : option sqlval :=
  match v with
  | JUndefined => Some SNull
  | JNull => Some SNull
  | JNum n => Some (SInt n)
  | JStr s => Some (SText s)
  | JBool _ => None
  end.

(** The parameters of one [stmt.run(...values)], bound left to right. *)
Fixpoint bind_all (values : list jsval) : option (list sqlval) :=
  match values with
  | [] => Some []
  | v :: values' =>
      match bind_value v, bind_all values' with
      | Some x, Some xs => Some (x :: xs)
      | _, _ => None
      end
  end.

(** The message of the TypeError [stmt.run] throws for a parameter it cannot
    bind. *)
Definition cannot_bind : string :=
  "SQLite3 can only bind numbers, strings, bigints, buffers, and null".

(** [array.includes(x)] *)
Definition includes (l : list jsstring) (x : jsstring) : bool :=
  existsb (Js.eqb x) l.

Definition set_title (v : sqlval) (c : conversation) : conversation :=
  mkConversation (c_id c) (screenshot_data_url c) (screenshot_hash c) v
    (created_at c) (updated_at c) (message_count c) (starred c) (archived c).
Definition set_starred (v : sqlval) (c : conversation) : conversation :=
  mkConversation (c_id c) (screenshot_data_url c) (screenshot_hash c)
    (title c) (created_at c) (updated_at c) (message_count c) v (archived c).
Definition set_archived (v : sqlval) (c : conversation) : conversation :=
  mkConversation (c_id c) (screenshot_data_url c) (screenshot_hash c)
    (title c) (created_at c) (updated_at c) (message_count c) (starred c) v.
Definition set_updated_at (t : Z) (c : conversation) : conversation :=
  mkConversation (c_id c) (screenshot_data_url c) (screenshot_hash c)
    (title c) (created_at c) t (message_count c) (starred c) (archived c).
Definition set_message_count (n : Z) (c : conversation) : conversation :=
  mkConversation (c_id c) (screenshot_data_url c) (screenshot_hash c)
    (title c) (created_at c) (updated_at c) n (starred c) (archived c).

Module ConversationService.
Section Service.

(** [createHash('sha256').update(s).digest('hex')], from Node's crypto. *)
Variable sha256_hex : jsstring -> jsstring.

(** The conversion SQLite applies to a value stored into a column of the
    given declared type. *)
Variable coerce : affinity -> sqlval -> sqlval.

(** [x || d] on a string that may be [null]. *)
Definition or_else (x : option jsstring) (d : jsstring) : jsstring :=
  match x with
  | Some s => if Js.truthy s then s else d
  | None => d
  end.

(** [x || null] *)
Definition or_null (x : option jsstring) : option jsstring :=
  match x with
  | Some s => if Js.truthy s then Some s else None
  | None => None
  end.

(** [calculateHash(dataUrl)] *)
Definition calculateHash (dataUrl : jsstring) : jsstring := sha256_hex dataUrl.

(** [createConversation(screenshotDataUrl)] *)
Definition createConversation (screenshotDataUrl : option jsstring)
    : M created :=
  id <- randomUUID ;;
  now <- date_now ;;
  let hash :=
    match or_null screenshotDataUrl with
    | Some s => Some (calculateHash s)
    | None => None
    end in
  prepare_conversations ;;;
  insert_conversation id (or_null screenshotDataUrl) hash now now ;;;
  ret (mkCreated id now).

(** [updateConversationTimestamp(conversationId)] *)
Definition updateConversationTimestamp (conversationId : jsstring) : M unit :=
  prepare_conversations ;;;
  now <- date_now ;;
  update_conversations conversationId (set_updated_at now).

(** [incrementMessageCount(conversationId)] *)
Definition incrementMessageCount (conversationId : jsstring) : M unit :=
  prepare_conversations ;;;
  update_conversations conversationId
    (fun c => set_message_count (message_count c + 1) c).

(** [saveMessage(conversationId, role, content, error = false)].  [role] and
    [content] may be [null]; the columns are declared NOT NULL. *)
Definition saveMessage (conversationId : jsstring)
    (role content : option jsstring) (error : bool) : M saved :=
  id <- randomUUID ;;
  timestamp <- date_now ;;
  prepare_messages ;;;
  match role, content with
  | Some r, Some c =>
      insert_message
        (mkMessage id conversationId r c timestamp (if error then 1 else 0)) ;;;
      updateConversationTimestamp conversationId ;;;
      incrementMessageCount conversationId ;;;
      ret (mkSaved id timestamp)
  | None, _ => throw (NotNullViolation "messages.role")
  | _, None => throw (NotNullViolation "messages.content")
  end.

(** [generateTitle(firstPrompt)] *)
Definition generateTitle (firstPrompt : option jsstring) : jsstring :=
  match firstPrompt with
  | None => js "Untitled Conversation"
  | Some p =>
      if negb (Js.truthy p) then js "Untitled Conversation"
      else
        let title := Js.substring0 50 (Js.trim p) in
        if (length title <? length (Js.trim p))%nat
        then title ++ js "..."
        else title
  end.

(** The [map] callback of [getAllConversations]. *)
Definition to_summary (c : listed_row) : summary :=
  mkSummary (l_id c) (l_created_at c) (l_updated_at c) (l_message_count c)
    (l_starred c) (l_archived c)
    (generateTitle (Some (or_else (first_prompt c) (js "Untitled"))))
    (match first_answer c with
     | Some a => if Js.truthy a then Js.substring0 100 a else []
     | None => []
     end).

(** The WHERE clause [getAllConversations] builds from [filters]. *)
Definition where_clause (f : filters) : list condition :=
  let whereClause := [] in
  let whereClause :=
    if strict_eq_bool (f_archived f) true then whereClause ++ [ArchivedIs 1]
    else if strict_eq_bool (f_archived f) false
         then whereClause ++ [ArchivedIs 0]
         else whereClause ++ [ArchivedIs 0] in
  if strict_eq_bool (f_starred f) true then whereClause ++ [StarredIs 1]
  else whereClause.

(** [getAllConversations(limit = 100, offset = 0, filters = {})]; an
    omitted argument is [None]. *)
Definition getAllConversations (limit offset : option Z)
    (f : option filters) : M (list summary) :=
  let limit := match limit with Some n => n | None => 100 end in
  let offset := match offset with Some n => n | None => 0 end in
  let f := match f with Some f => f | None => no_filters end in
  conversations <- select_listing (where_clause f) limit offset ;;
  ret (map to_summary conversations).

(** [getConversation(conversationId)]; [None] is [undefined]. *)
Definition getConversation (conversationId : jsstring)
    : M (option conversation) :=
  prepare_conversations ;;;
  select_conversation conversationId.

(** The [map] callback of [getConversationWithMessages]. *)
Definition to_ui (msg : message) : ui_message :=
  mkUi (m_id msg)
    (if Js.eqb (role msg) (js "user") then Some (content msg) else None)
    (if Js.eqb (role msg) (js "assistant") then Some (content msg) else None)
    (role msg) (content msg) (timestamp msg) (error msg =? 1).

(** [getConversationWithMessages(conversationId)]: the row and its
    [messages] property, or [None] for [null]. *)
Definition getConversationWithMessages (conversationId : jsstring)
    : M (option (conversation * list ui_message)) :=
  conversation <- getConversation conversationId ;;
  match conversation with
  | None => ret None
  | Some c =>
      prepare_messages ;;;
      msgs <- select_messages conversationId ;;
      ret (Some (c, map to_ui msgs))
  end.

(** One [column = ?] of a SET list, applied to a row. *)
Definition assignment (col : jsstring) (v : sqlval)
    : option (conversation -> conversation) :=
  if Js.eqb col (js "title") then Some (set_title (coerce AffText v))
  else if Js.eqb col (js "starred") then Some (set_starred (coerce AffInteger v))
  else if Js.eqb col (js "archived")
  then Some (set_archived (coerce AffInteger v))
  else if Js.eqb col (js "updated_at")
  then match v with
       | SInt t => Some (set_updated_at t)
       | _ => None
       end
  else None.

(** The SET list of an UPDATE, left to right. *)
Fixpoint assignments (sets : list jsstring) (values : list sqlval)
    : option (conversation -> conversation) :=
  match sets, values with
  | col :: sets', v :: values' =>
      match assignment col v, assignments sets' values' with
      | Some f, Some g => Some (fun c => g (f c))
      | _, _ => None
      end
  | _, _ => Some (fun c => c)
  end.

(** The allow-list loop of [updateConversation]: the [sets] and [values]
    arrays after [Object.keys(updates).forEach]. *)
Fixpoint collect (allowed : list jsstring) (updates : object)
    (ks : list jsstring) (sets : list jsstring) (values : list jsval)
    : list jsstring * list jsval :=
  match ks with
  | [] => (sets, values)
  | key :: ks' =>
      if includes allowed key
      then collect allowed updates ks' (sets ++ [key])
             (values ++ [get_property updates key])
      else collect allowed updates ks' sets values
  end.

(** [updateConversation(conversationId, updates)].  [stmt.run(...values)]
    binds the values as they were given and throws, before the UPDATE is
    executed, when one of them cannot be bound. *)
Definition updateConversation (conversationId : jsstring) (updates : object)
    : M unit :=
  let allowed := [js "title"; js "starred"; js "archived"] in
  let '(sets, values) := collect allowed updates (keys updates) [] [] in
  if (length sets =? 0)%nat then ret tt
  else
    let sets := sets ++ [js "updated_at"] in
    now <- date_now ;;
    let values := values ++ [JNum now] in
    prepare_conversations ;;;
    match bind_all values with
    | None => throw (TypeError cannot_bind)
    | Some bound =>
        match assignments sets bound with
        | Some f => update_conversations conversationId f
        | None => throw (Failure "UPDATE conversations")
        end
    end.

(** [deleteConversation(conversationId)] *)
Definition deleteConversation (conversationId : jsstring) : M unit :=
  prepare_conversations ;;;
  delete_from_conversations conversationId.

(** [saveCompleteConversation(screenshotDataUrl, conversation)] *)
Definition saveCompleteConversation (screenshotDataUrl : option jsstring)
    (conversation : list item) : M created :=
  conversationData <- createConversation (or_null screenshotDataUrl) ;;
  for_each
    (fun it =>
       saveMessage (new_id conversationData) (Some (js "user"))
         (Some (prompt it)) false ;;;
       saveMessage (new_id conversationData) (Some (js "assistant"))
         (Some (answer it))
         (match item_error it with Some b => b | None => false end) ;;;
       ret tt)
    conversation ;;;
  ret conversationData.

End Service.
End ConversationService.

(* ===================================================================== *)
(** ** Example worlds *)
(* ===================================================================== *)

(** A clock that advances one millisecond per reading and identifiers
    numbered in order of issue. *)
Definition demo_clock (n : nat) : Z := 1700000000000 + Z.of_nat n.
Definition demo_uuid (n : nat) : jsstring :=
  js "id-" ++ Js.toString (Z.of_nat n).
Definition demo_sha256 (s : jsstring) : jsstring := js "sha256:" ++ s.

(** Storage that leaves a value of the column's own type as it is, prints an
    integer stored into a text column, and keeps any other value. *)
Definition demo_coerce (a : affinity) (v : sqlval) : sqlval :=
  match a, v with
  | AffText, SInt n => SText (Js.toString n)
  | _, _ => v
  end.

(** No database file yet. *)
Definition demo_start : World := mkWorld fresh_db demo_clock 0 demo_uuid 0 [].

(** After [DatabaseService.initialize()]. *)
Definition demo_ready : World :=
  after (DatabaseService.initialize repo_migrations) demo_start.

(** After one conversation was created and nothing was said in it. *)
Definition demo_silent : World :=
  after (ConversationService.createConversation demo_sha256 None) demo_ready.

Definition demo_items : list item :=
  [mkItem (js "p1") (js "a1") None; mkItem (js "p2") (js "a2") None].

(** After [saveCompleteConversation(null, demo_items)]. *)
Definition demo_saved : World :=
  after (ConversationService.saveCompleteConversation demo_sha256 None
           demo_items) demo_ready.

(* ===================================================================== *)
(** ** Running the monad *)
(* ===================================================================== *)

(** A run is its result paired with the world it leaves. *)
Lemma run_after {A} (m : M A) w a :
  result m w = Returned a -> m w = (Returned a, after m w).
Proof.
  unfold result, after. destruct (m w) as [o w']. simpl. congruence.
Qed.

(** Unfold the monad and the engine primitives down to the tables. *)
Ltac run_monad :=
  unfold prepare_conversations, prepare_messages, prepare_metadata in *;
  unfold result, after, bind, ret, throw, try_catch, get_db, put_db in *;
  simpl in *.

(** [firstn] and [skipn] keep a list in order. *)
Lemma StronglySorted_skipn {A} (R : A -> A -> Prop) n l :
  StronglySorted R l -> StronglySorted R (skipn n l).
Proof.
  revert l. induction n as [|n IH]; intros l Hs; simpl.
  - exact Hs.
  - destruct l as [|x l]; [constructor|].
    inversion Hs; subst. apply IH. assumption.
Qed.

Lemma In_firstn_In {A} n (l : list A) x : In x (firstn n l) -> In x l.
Proof. intros H. rewrite <- (firstn_skipn n l). apply in_or_app. now left. Qed.

Lemma StronglySorted_firstn {A} (R : A -> A -> Prop) n l :
  StronglySorted R l -> StronglySorted R (firstn n l).
Proof.
  revert l. induction n as [|n IH]; intros l Hs; simpl.
  - constructor.
  - destruct l as [|x l]; [constructor|].
    inversion Hs as [|? ? Hl Hx]; subst. constructor.
    + apply IH, Hl.
    + rewrite Forall_forall in *. intros y Hy. apply Hx.
      eapply In_firstn_In. exact Hy.
Qed.

Lemma In_skipn_to_In {A} n (l : list A) x : In x (skipn n l) -> In x l.
Proof. intros H. rewrite <- (firstn_skipn n l). apply in_or_app. now right. Qed.

Lemma limit_offset_In {A} limit offset (l : list A) x :
  In x (limit_offset limit offset l) -> In x l.
Proof.
  unfold limit_offset. destruct (limit <? 0); intros H.
  - eapply In_skipn_to_In, H.
  - eapply In_skipn_to_In, In_firstn_In, H.
Qed.

Lemma limit_offset_sorted {A} (R : A -> A -> Prop) limit offset l :
  StronglySorted R l -> StronglySorted R (limit_offset limit offset l).
Proof.
  intros Hs. unfold limit_offset. destruct (limit <? 0).
  - apply StronglySorted_skipn, Hs.
  - apply StronglySorted_firstn, StronglySorted_skipn, Hs.
Qed.

(** With no offset and a limit that is absent or at least the number of
    rows, nothing is cut. *)
Lemma limit_offset_all {A} limit offset (l : list A) :
  offset <= 0 -> (limit < 0 \/ Z.of_nat (length l) <= limit) ->
  limit_offset limit offset l = l.
Proof.
  intros Ho Hl. unfold limit_offset.
  replace (Z.to_nat offset) with 0%nat by lia. simpl.
  destruct (Z.ltb_spec limit 0); [reflexivity|].
  apply firstn_all2. lia.
Qed.

Lemma StronglySorted_map {A B} (f : A -> B) (R : B -> B -> Prop) l :
  StronglySorted (fun a b => R (f a) (f b)) l -> StronglySorted R (map f l).
Proof.
  induction 1 as [|x l Hs IH Hx]; simpl; constructor.
  - exact IH.
  - rewrite Forall_forall in *. intros y Hy.
    apply in_map_iff in Hy. destruct Hy as (z & <- & Hz). apply Hx, Hz.
Qed.

(* ===================================================================== *)
(** ** Titles *)
(* ===================================================================== *)

Arguments Js.substring0 : simpl never.
Arguments ConversationService.generateTitle : simpl never.

Lemma truthy_nonempty (p : jsstring) : p <> [] -> Js.truthy p = true.
Proof. destruct p; [congruence|reflexivity]. Qed.

(** A prompt whose trimmed text has at most 50 code units is its own
    title. *)
Lemma generateTitle_short p :
  p <> [] -> (length (Js.trim p) <= 50)%nat ->
  ConversationService.generateTitle (Some p) = Js.trim p.
Proof.
  intros Hp Hlen. unfold ConversationService.generateTitle.
  rewrite (truthy_nonempty p Hp). simpl negb. cbv iota.
  unfold Js.substring0. rewrite firstn_all2 by exact Hlen.
  rewrite Nat.ltb_irrefl. reflexivity.
Qed.

(** A longer one is cut after 50 code units and marked. *)
Lemma generateTitle_long p :
  p <> [] -> (50 < length (Js.trim p))%nat ->
  ConversationService.generateTitle (Some p)
  = firstn 50 (Js.trim p) ++ js "...".
Proof.
  intros Hp Hlen. unfold ConversationService.generateTitle.
  rewrite (truthy_nonempty p Hp). simpl negb. cbv iota.
  unfold Js.substring0. rewrite firstn_length_le by lia.
  destruct (Nat.ltb_spec 50 (length (Js.trim p))); [reflexivity|lia].
Qed.

(** What the listing's [map] callback hands to [generateTitle] is never
    falsy, so the callback's own default is the title. *)
Lemma to_summary_title_default r :
  first_prompt r = None \/ first_prompt r = Some [] ->
  s_title (ConversationService.to_summary r) = js "Untitled".
Proof.
  intros [H|H]; unfold ConversationService.to_summary; cbn [s_title];
    rewrite H; reflexivity.
Qed.

Lemma to_summary_title_prompt r p :
  first_prompt r = Some p -> p <> [] ->
  s_title (ConversationService.to_summary r)
  = ConversationService.generateTitle (Some p).
Proof.
  intros H Hp. unfold ConversationService.to_summary; cbn [s_title].
  rewrite H. unfold ConversationService.or_else.
  rewrite (truthy_nonempty p Hp). reflexivity.
Qed.

(* ===================================================================== *)
(** ** The listing *)
(* ===================================================================== *)

Definition effective_limit (limit : option Z) : Z :=
  match limit with Some n => n | None => 100 end.
Definition effective_offset (offset : option Z) : Z :=
  match offset with Some n => n | None => 0 end.
Definition effective_filters (f : option filters) : filters :=
  match f with Some f => f | None => no_filters end.

(** The conversations a listing query selects, in the order it returns
    them. *)
Definition selected (cs : list conversation) (limit offset : option Z)
    (f : option filters) : list conversation :=
  limit_offset (effective_limit limit) (effective_offset offset)
    (sort_by by_updated_desc
       (filter (fun c => forallb (holds c)
                  (ConversationService.where_clause (effective_filters f)))
          cs)).

Lemma getAllConversations_ready w cs ms limit offset f :
  conversations (db w) = Some cs -> messages (db w) = Some ms ->
  ConversationService.getAllConversations limit offset f w
  = (Returned (map (fun c => ConversationService.to_summary (listing_row ms c))
                 (selected cs limit offset f)), w).
Proof.
  intros Hc Hm. unfold ConversationService.getAllConversations, select_listing.
  run_monad. rewrite Hc, Hm. rewrite map_map. reflexivity.
Qed.

Lemma getAllConversations_returned w limit offset f l :
  result (ConversationService.getAllConversations limit offset f) w
  = Returned l ->
  exists cs ms,
    conversations (db w) = Some cs /\ messages (db w) = Some ms /\
    l = map (fun c => ConversationService.to_summary (listing_row ms c))
          (selected cs limit offset f).
Proof.
  intros H.
  destruct (conversations (db w)) as [cs|] eqn:Hc;
    [destruct (messages (db w)) as [ms|] eqn:Hm|].
  - exists cs, ms. unfold result in H.
    rewrite (getAllConversations_ready w cs ms) in H by assumption.
    simpl in H. inversion H. auto.
  - unfold ConversationService.getAllConversations, select_listing in H.
    run_monad. rewrite Hc, Hm in H. discriminate.
  - unfold ConversationService.getAllConversations, select_listing in H.
    run_monad. rewrite Hc in H. discriminate.
Qed.

Lemma selected_In cs limit offset f c :
  In c (selected cs limit offset f) ->
  In c cs /\
  forallb (holds c) (ConversationService.where_clause (effective_filters f))
  = true.
Proof.
  unfold selected. intros H. apply limit_offset_In in H.
  apply sort_by_In in H. apply filter_In in H. exact H.
Qed.

Lemma by_updated_desc_total a b :
  by_updated_desc a b = false -> by_updated_desc b a = true.
Proof. unfold by_updated_desc. lia. Qed.

Lemma Sorted_weaken {A} (R R' : A -> A -> Prop) l :
  (forall a b, R a b -> R' a b) -> Sorted R l -> Sorted R' l.
Proof.
  intros Himp. induction 1 as [|a l Hs IH Hhd]; constructor.
  - exact IH.
  - destruct Hhd; constructor. apply Himp. assumption.
Qed.

Lemma selected_sorted cs limit offset f :
  StronglySorted (fun a b => updated_at b <= updated_at a)
    (selected cs limit offset f).
Proof.
  unfold selected. apply limit_offset_sorted.
  apply Sorted_StronglySorted.
  - intros x y z Hxy Hyz. cbv beta in *. lia.
  - apply Sorted_weaken with (R := fun a b => by_updated_desc a b = true).
    + intros a b H. unfold by_updated_desc in H. lia.
    + apply sort_by_sorted. exact by_updated_desc_total.
Qed.

(** What the archived part of the WHERE clause demands of a row. *)
Lemma where_clause_archived f c :
  forallb (holds c) (ConversationService.where_clause f) = true ->
  (f_archived f = JBool true -> archived c = SInt 1) /\
  (f_archived f <> JBool true -> archived c = SInt 0) /\
  (f_starred f = JBool true -> starred c = SInt 1).
Proof.
  unfold ConversationService.where_clause.
  assert (Heq : forall v n, sql_equals v n = true -> v = SInt n).
  { intros [|k|s] n; simpl; try discriminate.
    intros E. apply Z.eqb_eq in E. congruence. }
  destruct (f_archived f) as [| |[|]| |]; destruct (f_starred f) as [| |[|]| |];
    simpl; rewrite ?andb_true_r; intros H;
    repeat (apply andb_prop in H; destruct H as [? H]);
    repeat split; intros; try congruence; auto.
Qed.

Lemma where_clause_holds f c :
  archived c = SInt (if strict_eq_bool (f_archived f) true then 1 else 0) ->
  (f_starred f = JBool true -> starred c = SInt 1) ->
  forallb (holds c) (ConversationService.where_clause f) = true.
Proof.
  unfold ConversationService.where_clause. intros Ha Hs.
  destruct (f_archived f) as [| |[|]| |];
    destruct (f_starred f) as [| |[|]| |];
    simpl in *; rewrite Ha; simpl; try reflexivity;
    rewrite Hs by reflexivity; reflexivity.
Qed.

Lemma filter_length_le {A} (p : A -> bool) l :
  (length (filter p l) <= length l)%nat.
Proof.
  induction l as [|x l IH]; simpl; [lia|]. destruct (p x); simpl; lia.
Qed.

(** The listing of the example world [demo_saved], its only element and
    the messages the world holds. *)
Definition demo_listing : list summary :=
  match result (ConversationService.getAllConversations None None None)
          demo_saved with
  | Returned l => l
  | Threw _ => []
  end.

Definition demo_summary : summary :=
  mkSummary (js "id-0") 1700000000002 1700000000010 4 (SInt 0) (SInt 0)
    (js "p1") (js "a1").

Definition demo_saved_messages : list message :=
  match messages (db demo_saved) with
  | Some ms => ms
  | None => []
  end.

Lemma demo_saved_messages_eq :
  messages (db demo_saved) = Some demo_saved_messages.
Proof. vm_compute. reflexivity. Qed.

Lemma demo_listing_eq :
  result (ConversationService.getAllConversations None None None) demo_saved
  = Returned demo_listing.
Proof. vm_compute. reflexivity. Qed.

Lemma demo_summary_listed : In demo_summary demo_listing.
Proof. vm_compute. left. reflexivity. Qed.

Lemma demo_summary_first_prompt :
  first_content (js "user") (s_id demo_summary) demo_saved_messages
  = Some (js "p1").
Proof. vm_compute. reflexivity. Qed.

(** C3 (as amended).  The listing has one fixed, non-empty fallback title.
    Every title in a listing comes from the conversation's first user
    message: a non-empty text is trimmed and, when the trimmed text has at
    most 50 code units, is the title unchanged; a longer one gives its first
    50 code units followed by ["..."].  When the conversation has no user
    message, or the first one is the empty string, the title is the
    fallback. *)
Theorem listed_title_from_first_user_message :
  exists fallback : jsstring,
    fallback <> [] /\
    forall (w : World) (limit offset : option Z) (f : option filters)
           (l : list summary) (ms : list message) (s : summary),
      messages (db w) = Some ms ->
      result (ConversationService.getAllConversations limit offset f) w
      = Returned l ->
      In s l ->
      (forall p, first_content (js "user") (s_id s) ms = Some p -> p <> [] ->
         ((length (Js.trim p) <= 50)%nat -> s_title s = Js.trim p) /\
         ((50 < length (Js.trim p))%nat ->
            s_title s = firstn 50 (Js.trim p) ++ js "...")) /\
      (first_content (js "user") (s_id s) ms = None \/
       first_content (js "user") (s_id s) ms = Some [] ->
       s_title s = fallback).
Proof.
  exists (js "Untitled"). split; [discriminate|].
  intros w limit offset f l ms s Hms Hres Hin.
  destruct (getAllConversations_returned _ _ _ _ _ Hres)
    as (cs & ms' & Hc & Hm & ->).
  assert (ms' = ms) by congruence. subst ms'.
  apply in_map_iff in Hin. destruct Hin as (c & <- & _).
  repeat split.
  - intros Hlen.
    rewrite (to_summary_title_prompt (listing_row ms c) p) by assumption.
    apply generateTitle_short; assumption.
  - intros Hlen.
    rewrite (to_summary_title_prompt (listing_row ms c) p) by assumption.
    apply generateTitle_long; assumption.
  - intros Hnone. apply to_summary_title_default. exact Hnone.
Qed.

Lemma listed_title_from_first_user_message_witness :
  s_title demo_summary = js "p1".
Proof.
  destruct listed_title_from_first_user_message as (fallback & _ & Hall).
  destruct (Hall demo_saved None None None demo_listing demo_saved_messages
              demo_summary demo_saved_messages_eq demo_listing_eq
              demo_summary_listed) as (Hp & _).
  destruct (Hp (js "p1") demo_summary_first_prompt ltac:(discriminate))
    as [Hshort _].
  exact (Hshort ltac:(vm_compute; lia)).
Defined.

(** After an empty user message was saved in the conversation of
    [demo_silent]. *)
Definition demo_empty : World :=
  after (ConversationService.saveMessage (js "id-0") (Some (js "user"))
           (Some []) false) demo_silent.

(** C3, the claim as stated fails: the first user message of the listed
    conversation is the empty string, whose trimmed text is empty and has
    fewer than 50 code units, yet the listed title is not that text. *)
Lemma listed_title_empty_message_counterexample :
  option_map (first_content (js "user") (js "id-0")) (messages (db demo_empty))
  = Some (Some []) /\
  Js.trim [] = [] /\
  match result (ConversationService.getAllConversations None None None)
          demo_empty with
  | Returned l => map (fun s => (s_id s, Js.eqb (s_title s) (Js.trim []))) l
  | Threw _ => []
  end = [(js "id-0", false)].
Proof. repeat split; vm_compute; reflexivity. Qed.

(** What the listing shows for a conversation with no user message. *)
Lemma listed_title_without_user_message :
  messages (db demo_silent) = Some [] /\
  match result (ConversationService.getAllConversations None None None)
          demo_silent with
  | Returned l => map s_title l
  | Threw _ => []
  end = [js "Untitled"] /\
  ConversationService.generateTitle None = js "Untitled Conversation".
Proof. repeat split; vm_compute; reflexivity. Qed.

(** C5.  The listing is in descending order of [updated_at].  Every listed
    conversation is a row of the table; with [filters.archived === true] it
    is archived, with any other value, or none, it is not archived; with
    [filters.starred === true] it is, besides, starred.  When the limit
    does not cut, every row that passes the filters is listed. *)
Theorem getAllConversations_order_and_filters
    (w : World) (limit offset : option Z) (f : option filters)
    (l : list summary) :
  result (ConversationService.getAllConversations limit offset f) w
  = Returned l ->
  StronglySorted (fun a b => s_updated_at b <= s_updated_at a) l /\
  (forall s, In s l ->
     exists cs c,
       conversations (db w) = Some cs /\ In c cs /\
       s_id s = c_id c /\ s_updated_at s = updated_at c /\
       s_archived s = archived c /\ s_starred s = starred c /\
       (f_archived (effective_filters f) = JBool true ->
        s_archived s = SInt 1) /\
       (f_archived (effective_filters f) <> JBool true ->
        s_archived s = SInt 0) /\
       (f_starred (effective_filters f) = JBool true ->
        s_starred s = SInt 1)) /\
  (forall cs c,
     conversations (db w) = Some cs ->
     effective_offset offset <= 0 ->
     effective_limit limit < 0 \/
     Z.of_nat (length cs) <= effective_limit limit ->
     In c cs ->
     archived c
     = SInt (if strict_eq_bool (f_archived (effective_filters f)) true
             then 1 else 0) ->
     (f_starred (effective_filters f) = JBool true -> starred c = SInt 1) ->
     exists s, In s l /\ s_id s = c_id c).
Proof.
  intros Hres.
  destruct (getAllConversations_returned _ _ _ _ _ Hres)
    as (cs & ms & Hc & Hm & ->).
  split; [|split].
  - apply StronglySorted_map. simpl. apply selected_sorted.
  - intros s Hin. apply in_map_iff in Hin. destruct Hin as (c & <- & Hin).
    apply selected_In in Hin. destruct Hin as [Hin Hw].
    destruct (where_clause_archived _ _ Hw) as (Ha1 & Ha0 & Hs1).
    exists cs, c. simpl. repeat split; auto.
  - intros cs' c Hc' Hoff Hlim Hin Ha Hs.
    assert (cs' = cs) by congruence. subst cs'.
    exists (ConversationService.to_summary (listing_row ms c)).
    split; [|reflexivity].
    apply in_map_iff. exists c. split; [reflexivity|]. unfold selected.
    rewrite limit_offset_all.
    + apply sort_by_In. apply filter_In. split; [exact Hin|].
      apply where_clause_holds; assumption.
    + exact Hoff.
    + destruct Hlim as [Hlim|Hlim]; [left; exact Hlim|right].
      rewrite sort_by_length.
      pose proof (filter_length_le
        (fun c => forallb (holds c)
           (ConversationService.where_clause (effective_filters f))) cs).
      lia.
Qed.

Lemma getAllConversations_order_and_filters_witness :
  StronglySorted (fun a b => s_updated_at b <= s_updated_at a) demo_listing.
Proof.
  exact (proj1 (getAllConversations_order_and_filters demo_saved None None
                  None demo_listing demo_listing_eq)).
Defined.

(* ===================================================================== *)
(** ** The methods in closed form *)
(* ===================================================================== *)

(** The world after [dt] clock readings and [dd] identifiers were consumed
    and the database became [d]. *)
Definition moved (dt dd : nat) (d : Db) (w : World) : World :=
  mkWorld d (clock w) (dt + ticks w) (uuids w) (dd + draws w)
    (migration_log w).

(** The row [createConversation] inserts. *)
Definition new_conversation (sha256_hex : jsstring -> jsstring)
    (id : jsstring) (shot : option jsstring) (now : Z) : conversation :=
  mkConversation id (ConversationService.or_null shot)
    (match ConversationService.or_null shot with
     | Some s => Some (sha256_hex s)
     | None => None
     end) SNull now now 0 (SInt 0) (SInt 0).

Definition has_id (id : jsstring) (cs : list conversation) : bool :=
  existsb (fun c => Js.eqb (c_id c) id) cs.

Definition has_message_id (id : jsstring) (ms : list message) : bool :=
  existsb (fun m => Js.eqb (m_id m) id) ms.

Lemma createConversation_ready sha256_hex w cs shot :
  conversations (db w) = Some cs ->
  ConversationService.createConversation sha256_hex shot w
  = if has_id (uuids w (draws w)) cs
    then (Threw (PrimaryKeyViolation "conversations"), moved 1 1 (db w) w)
    else (Returned (mkCreated (uuids w (draws w)) (clock w (ticks w))),
          moved 1 1
            (set_conversations
               (Some (cs ++ [new_conversation sha256_hex (uuids w (draws w))
                               shot (clock w (ticks w))])) (db w)) w).
Proof.
  intros Hc. unfold ConversationService.createConversation, randomUUID,
    date_now, insert_conversation, has_id, new_conversation,
    ConversationService.calculateHash.
  run_monad. rewrite Hc. simpl. rewrite Hc.
  destruct (existsb _ cs); reflexivity.
Qed.

(** What a successful [saveMessage] does to the parent row. *)
Definition touched (cid : jsstring) (now : Z) (c : conversation)
    : conversation :=
  if Js.eqb (c_id c) cid
  then set_message_count (message_count c + 1) (set_updated_at now c)
  else c.

Lemma touched_twice cid now cs :
  map (fun c => if Js.eqb (c_id c) cid
                then set_message_count (message_count c + 1) c else c)
    (map (fun c => if Js.eqb (c_id c) cid then set_updated_at now c else c)
       cs)
  = map (touched cid now) cs.
Proof.
  rewrite map_map. apply map_ext. intros c. unfold touched.
  destruct (Js.eqb (c_id c) cid) eqn:E; simpl; rewrite E; reflexivity.
Qed.

Lemma saveMessage_ready w cs ms cid r c e :
  conversations (db w) = Some cs -> messages (db w) = Some ms ->
  ConversationService.saveMessage cid (Some r) (Some c) e w
  = if has_message_id (uuids w (draws w)) ms
    then (Threw (PrimaryKeyViolation "messages"), moved 1 1 (db w) w)
    else if foreign_keys (db w) && negb (has_id cid cs)
    then (Threw ForeignKeyViolation, moved 1 1 (db w) w)
    else (Returned (mkSaved (uuids w (draws w)) (clock w (ticks w))),
          moved 2 1
            (mkDb (foreign_keys (db w))
               (Some (map (touched cid (clock w (S (ticks w)))) cs))
               (Some (ms ++ [mkMessage (uuids w (draws w)) cid r c
                               (clock w (ticks w)) (if e then 1 else 0)]))
               (metadata (db w))) w).
Proof.
  intros Hc Hm. unfold ConversationService.saveMessage,
    ConversationService.updateConversationTimestamp,
    ConversationService.incrementMessageCount, randomUUID, date_now,
    insert_message, update_conversations, has_message_id, has_id,
    has_conversation.
  run_monad. rewrite Hm. simpl. rewrite Hm.
  destruct (existsb _ ms); [reflexivity|].
  rewrite Hc.
  destruct (foreign_keys (db w) && negb (existsb _ cs)); [reflexivity|].
  repeat (progress (simpl; try rewrite Hc)).
  rewrite touched_twice. reflexivity.
Qed.

Lemma saveMessage_null w ms cid r c e :
  messages (db w) = Some ms -> r = None \/ c = None ->
  exists x, ConversationService.saveMessage cid r c e w
            = (Threw x, moved 1 1 (db w) w).
Proof.
  intros Hm Hnull. unfold ConversationService.saveMessage, randomUUID,
    date_now. run_monad. rewrite Hm.
  destruct r, c; try (destruct Hnull; discriminate); eexists; reflexivity.
Qed.

Lemma getConversation_ready w cs cid :
  conversations (db w) = Some cs ->
  ConversationService.getConversation cid w
  = (Returned (find (fun c => Js.eqb (c_id c) cid) cs), w).
Proof.
  intros Hc. unfold ConversationService.getConversation, select_conversation.
  run_monad. rewrite Hc. simpl. rewrite Hc. reflexivity.
Qed.

(** The messages of one conversation as the UI receives them. *)
Definition ui_messages (cid : jsstring) (ms : list message)
    : list ui_message :=
  map ConversationService.to_ui
    (sort_by by_timestamp
       (filter (fun m => Js.eqb (conversation_id m) cid) ms)).

Lemma getConversationWithMessages_ready w cs ms cid :
  conversations (db w) = Some cs -> messages (db w) = Some ms ->
  ConversationService.getConversationWithMessages cid w
  = (Returned
       (match find (fun c => Js.eqb (c_id c) cid) cs with
        | Some c => Some (c, ui_messages cid ms)
        | None => None
        end), w).
Proof.
  intros Hc Hm. unfold ConversationService.getConversationWithMessages.
  unfold bind at 1. rewrite (getConversation_ready w cs cid Hc).
  destruct (find _ cs); [|reflexivity].
  unfold select_messages, ui_messages. run_monad. rewrite Hm. simpl.
  rewrite Hm. reflexivity.
Qed.

Lemma deleteConversation_ready w cs cid :
  conversations (db w) = Some cs ->
  ConversationService.deleteConversation cid w
  = (Returned tt,
     with_db
       (mkDb (foreign_keys (db w))
          (Some (filter (fun c => negb (Js.eqb (c_id c) cid)) cs))
          (if foreign_keys (db w) && has_id cid cs
           then option_map
                  (filter (fun m => negb (Js.eqb (conversation_id m) cid)))
                  (messages (db w))
           else messages (db w))
          (metadata (db w))) w).
Proof.
  intros Hc. unfold ConversationService.deleteConversation,
    delete_from_conversations, has_conversation, has_id.
  run_monad. rewrite Hc. simpl. rewrite Hc. reflexivity.
Qed.

(* ===================================================================== *)
(** ** updateConversation *)
(* ===================================================================== *)

Definition allowed : list jsstring := [js "title"; js "starred"; js "archived"].

Arguments includes : simpl never.

(** The keys of [updates] that pass the allow-list, in order. *)
Definition recognized (updates : object) : list jsstring :=
  filter (includes allowed) (keys updates).

Lemma collect_filter updates ks sets values :
  ConversationService.collect allowed updates ks sets values
  = (sets ++ filter (includes allowed) ks,
     values ++ map (get_property updates)
                 (filter (includes allowed) ks)).
Proof.
  revert sets values. induction ks as [|k ks IH]; intros sets values; simpl.
  - rewrite !app_nil_r. reflexivity.
  - destruct (includes allowed k); simpl.
    + rewrite IH, <- !app_assoc. reflexivity.
    + apply IH.
Qed.

Lemma allowed_cases k :
  includes allowed k = true ->
  k = js "title" \/ k = js "starred" \/ k = js "archived".
Proof.
  unfold includes, allowed. simpl.
  rewrite !orb_true_iff, !Js.eqb_eq. intuition congruence.
Qed.

(** Whether the driver can bind the value of every recognized key. *)
Definition bindable (updates : object) : bool :=
  forallb (fun k => match bind_value (get_property updates k) with
                    | Some _ => true
                    | None => false
                    end)
    (recognized updates).

(** The value bound for [updates[k]], for a value the driver binds. *)
Definition bound (updates : object) (k : jsstring) : sqlval :=
  match bind_value (get_property updates k) with
  | Some v => v
  | None => SNull
  end.

Lemma bind_all_values updates now ks :
  bind_all (map (get_property updates) ks ++ [JNum now])
  = if forallb (fun k => match bind_value (get_property updates k) with
                         | Some _ => true
                         | None => false
                         end) ks
    then Some (map (bound updates) ks ++ [SInt now])
    else None.
Proof.
  induction ks as [|k ks IH]; [reflexivity|].
  cbn [map app bind_all forallb]. rewrite IH. unfold bound.
  destruct (bind_value (get_property updates k)); [|reflexivity].
  cbn [andb]. destruct (forallb _ ks); reflexivity.
Qed.

(** The row an UPDATE built from the keys [ks] leaves in place of [c]. *)
Definition updated_row (coerce : affinity -> sqlval -> sqlval)
    (ks : list jsstring) (updates : object) (now : Z) (c : conversation)
    : conversation :=
  mkConversation (c_id c) (screenshot_data_url c) (screenshot_hash c)
    (if includes ks (js "title")
     then coerce AffText (bound updates (js "title")) else title c)
    (created_at c) now (message_count c)
    (if includes ks (js "starred")
     then coerce AffInteger (bound updates (js "starred"))
     else starred c)
    (if includes ks (js "archived")
     then coerce AffInteger (bound updates (js "archived"))
     else archived c).

Lemma assignment_title coerce v :
  ConversationService.assignment coerce (js "title") v
  = Some (set_title (coerce AffText v)).
Proof. reflexivity. Qed.

Lemma assignment_starred coerce v :
  ConversationService.assignment coerce (js "starred") v
  = Some (set_starred (coerce AffInteger v)).
Proof. reflexivity. Qed.

Lemma assignment_archived coerce v :
  ConversationService.assignment coerce (js "archived") v
  = Some (set_archived (coerce AffInteger v)).
Proof. reflexivity. Qed.

Lemma assignment_updated_at coerce t :
  ConversationService.assignment coerce (js "updated_at") (SInt t)
  = Some (set_updated_at t).
Proof. reflexivity. Qed.

Lemma assignments_recognized coerce updates now ks :
  Forall (fun k => includes allowed k = true) ks ->
  exists f,
    ConversationService.assignments coerce (ks ++ [js "updated_at"])
      (map (bound updates) ks ++ [SInt now]) = Some f /\
    forall c, f c = updated_row coerce ks updates now c.
Proof.
  induction 1 as [|k ks Hk _ IH].
  - cbn [app map ConversationService.assignments].
    rewrite assignment_updated_at.
    eexists. split; [reflexivity|]. intros c. reflexivity.
  - destruct IH as (g & Hg & Hgc).
    cbn [app map ConversationService.assignments]. rewrite Hg.
    destruct (allowed_cases k Hk) as [->|[->| ->]];
      rewrite ?assignment_title, ?assignment_starred, ?assignment_archived;
      (eexists; split; [reflexivity|]); intros c; cbv beta; rewrite Hgc;
      unfold updated_row, includes; cbn [existsb]; simpl;
      repeat match goal with
             | |- context [existsb ?p ks] => destruct (existsb p ks)
             end; reflexivity.
Qed.

Lemma recognized_allowed updates :
  Forall (fun k => includes allowed k = true)
    (recognized updates).
Proof.
  apply Forall_forall. intros k Hk. apply filter_In in Hk. apply Hk.
Qed.

(** A recognized name is among the filtered keys exactly when it is a key
    of [updates]. *)
Lemma includes_recognized updates k :
  includes allowed k = true ->
  includes (recognized updates) k
  = includes (keys updates) k.
Proof.
  intros Hk. unfold recognized, includes.
  induction (keys updates) as [|x ks IH]; cbn [filter existsb];
    [reflexivity|].
  destruct (existsb (Js.eqb x) allowed) eqn:Ex; cbn [existsb].
  - rewrite IH. reflexivity.
  - rewrite IH. destruct (Js.eqb k x) eqn:E; [|reflexivity].
    apply Js.eqb_eq in E. subst x.
    unfold includes in Hk. congruence.
Qed.

Lemma updateConversation_ready coerce w cs cid updates :
  conversations (db w) = Some cs ->
  ConversationService.updateConversation coerce cid updates w
  = match recognized updates with
    | [] => (Returned tt, w)
    | _ :: _ =>
        if bindable updates
        then (Returned tt,
              moved 1 0
                (set_conversations
                   (Some (map (fun c =>
                                 if Js.eqb (c_id c) cid
                                 then updated_row coerce (recognized updates)
                                        updates (clock w (ticks w)) c
                                 else c) cs)) (db w)) w)
        else (Threw (TypeError cannot_bind), moved 1 0 (db w) w)
    end.
Proof.
  intros Hc. unfold ConversationService.updateConversation.
  fold allowed. rewrite collect_filter. simpl app. fold (recognized updates).
  unfold bindable.
  destruct (recognized updates) as [|k ks] eqn:Hr; [reflexivity|].
  cbn [length Nat.eqb].
  assert (Hbind := bind_all_values updates (clock w (ticks w)) (k :: ks)).
  destruct (forallb _ (k :: ks)) eqn:Hb.
  2:{ unfold date_now, prepare_conversations, bind, ret, throw, get_db, put_db.
      cbn [app length Nat.eqb]. cbv beta. cbn [db]. rewrite Hc.
      cbv beta iota. rewrite Hbind. reflexivity. }
  destruct (assignments_recognized coerce updates (clock w (ticks w))
              (k :: ks)) as (f & Hf & Hfc).
  { rewrite <- Hr. apply recognized_allowed. }
  assert (Hmap :
    map (fun c => if Js.eqb (c_id c) cid then f c else c) cs
    = map (fun c => if Js.eqb (c_id c) cid
                    then updated_row coerce (k :: ks) updates
                           (clock w (ticks w)) c
                    else c) cs).
  { apply map_ext. intros c. rewrite Hfc. reflexivity. }
  unfold date_now, update_conversations.
  unfold prepare_conversations, bind, ret, get_db, put_db.
  cbn [app length Nat.eqb]. cbv beta. cbn [db]. rewrite Hc.
  cbv beta iota. rewrite Hbind. cbv beta iota.
  cbn [app] in Hf. rewrite Hf. cbv beta iota. cbn [db].
  rewrite Hc. rewrite Hmap. reflexivity.
Qed.

Lemma includes_In l k : In k l -> includes l k = true.
Proof.
  intros H. unfold includes. apply existsb_exists. exists k.
  split; [exact H|apply Js.eqb_refl].
Qed.

(** Whether [updates] has one of the three recognized keys. *)
Definition any_recognized (updates : object) : bool :=
  includes (keys updates) (js "title")
  || includes (keys updates) (js "starred")
  || includes (keys updates) (js "archived").

Lemma recognized_nil updates :
  recognized updates = [] <-> any_recognized updates = false.
Proof.
  unfold any_recognized.
  rewrite <- !(includes_recognized updates) by reflexivity.
  split.
  - intros ->. reflexivity.
  - intros H. destruct (recognized updates) as [|k ks] eqn:Hr; [reflexivity|].
    exfalso.
    assert (Hk : In k (recognized updates)) by (rewrite Hr; left; reflexivity).
    rewrite <- Hr in H.
    pose proof (includes_In _ _ Hk) as Hin.
    unfold recognized in Hk. apply filter_In in Hk. destruct Hk as [_ Hk].
    destruct (allowed_cases k Hk) as [->|[->| ->]]; rewrite Hin in H;
      simpl in H; try discriminate;
      rewrite ?orb_true_r in H; discriminate.
Qed.

Lemma Forall2_map_right {A B} (P : A -> B -> Prop) (g : A -> B) l :
  (forall a, In a l -> P a (g a)) -> Forall2 P l (map g l).
Proof.
  induction l as [|a l IH]; intros H; simpl; constructor.
  - apply H. left. reflexivity.
  - apply IH. intros b Hb. apply H. right. exact Hb.
Qed.

(** C6 (as amended).  [updateConversation] touches nothing but rows of
    [conversations] whose id is the given one.  With none of the three keys
    it returns and the world is left exactly as it was.  When the driver can
    bind the value of every recognized key (a number, a string, [null]) it
    returns, and in a row with the given id the screenshot columns,
    [created_at] and [message_count] stay; each of [title], [starred],
    [archived] takes the value given in [updates] when the key is present
    and stays otherwise, whatever other keys [updates] has; [updated_at]
    becomes the clock's reading when at least one of the three keys is
    present and stays otherwise.  When a recognized key holds a value the
    driver refuses (a boolean), the call throws the driver's TypeError and
    the database is as it was, [updated_at] included. *)
Theorem updateConversation_writes_only_recognized
    (coerce : affinity -> sqlval -> sqlval) (w : World)
    (cs : list conversation) (cid : jsstring) (updates : object) :
  conversations (db w) = Some cs ->
  let w' := after (ConversationService.updateConversation coerce cid updates)
              w in
  let present k := includes (keys updates) k in
  messages (db w') = messages (db w) /\
  metadata (db w') = metadata (db w) /\
  foreign_keys (db w') = foreign_keys (db w) /\
  (any_recognized updates = false ->
   result (ConversationService.updateConversation coerce cid updates) w
   = Returned tt /\ w' = w) /\
  (bindable updates = false ->
   any_recognized updates = true /\
   result (ConversationService.updateConversation coerce cid updates) w
   = Threw (TypeError cannot_bind) /\
   db w' = db w) /\
  (bindable updates = true ->
   result (ConversationService.updateConversation coerce cid updates) w
   = Returned tt /\
   exists cs',
     conversations (db w') = Some cs' /\
     Forall2
       (fun c c' =>
          c_id c' = c_id c /\
          screenshot_data_url c' = screenshot_data_url c /\
          screenshot_hash c' = screenshot_hash c /\
          created_at c' = created_at c /\
          message_count c' = message_count c /\
          (c_id c <> cid -> c' = c) /\
          (c_id c = cid ->
           (forall v, present (js "title") = true ->
              bind_value (get_property updates (js "title")) = Some v ->
              title c' = coerce AffText v) /\
           (present (js "title") = false -> title c' = title c) /\
           (forall v, present (js "starred") = true ->
              bind_value (get_property updates (js "starred")) = Some v ->
              starred c' = coerce AffInteger v) /\
           (present (js "starred") = false -> starred c' = starred c) /\
           (forall v, present (js "archived") = true ->
              bind_value (get_property updates (js "archived")) = Some v ->
              archived c' = coerce AffInteger v) /\
           (present (js "archived") = false -> archived c' = archived c) /\
           updated_at c' = (if any_recognized updates
                            then clock w (ticks w)
                            else updated_at c)))
       cs cs').
Proof.
  intros Hc w' present. subst w' present. unfold result, after.
  rewrite (updateConversation_ready coerce w cs cid updates Hc).
  assert (Hbound : forall k v,
            bind_value (get_property updates k) = Some v ->
            bound updates k = v).
  { intros k v E. unfold bound. rewrite E. reflexivity. }
  destruct (recognized updates) as [|k ks] eqn:Hr.
  - assert (Hany : any_recognized updates = false)
      by (apply recognized_nil; exact Hr).
    assert (Hb : bindable updates = true)
      by (unfold bindable; rewrite Hr; reflexivity).
    pose proof Hany as Hkeys. unfold any_recognized in Hkeys.
    apply orb_false_iff in Hkeys. destruct Hkeys as [Hkeys Harch].
    apply orb_false_iff in Hkeys. destruct Hkeys as [Htitle Hstar].
    cbn [fst snd].
    split; [reflexivity|]. split; [reflexivity|]. split; [reflexivity|].
    split; [intros _; split; reflexivity|].
    split; [intros E; congruence|]. intros _.
    split; [reflexivity|].
    exists cs. split; [exact Hc|].
    rewrite <- (map_id cs) at 2. apply Forall2_map_right.
    intros c _. rewrite Hany, Htitle, Hstar, Harch.
    repeat split; try reflexivity; intros; discriminate.
  - assert (Hany : any_recognized updates = true).
    { destruct (any_recognized updates) eqn:E; [reflexivity|].
      apply recognized_nil in E. congruence. }
    rewrite <- Hr.
    destruct (bindable updates) eqn:Hb; cbn [fst snd].
    + split; [reflexivity|]. split; [reflexivity|]. split; [reflexivity|].
      split; [intros E; congruence|].
      split; [intros E; discriminate|]. intros _.
      split; [reflexivity|].
      eexists. split; [reflexivity|]. apply Forall2_map_right.
      intros c _. destruct (Js.eqb (c_id c) cid) eqn:E.
      * apply Js.eqb_eq in E.
        unfold updated_row. cbn [c_id screenshot_data_url screenshot_hash
          created_at message_count title starred archived updated_at].
        rewrite !(includes_recognized updates) by reflexivity.
        rewrite Hany.
        split; [reflexivity|]. split; [reflexivity|]. split; [reflexivity|].
        split; [reflexivity|]. split; [reflexivity|].
        split; [intros Hne; congruence|]. intros _.
        split; [intros v -> Hv; rewrite (Hbound _ _ Hv); reflexivity|].
        split; [intros ->; reflexivity|].
        split; [intros v -> Hv; rewrite (Hbound _ _ Hv); reflexivity|].
        split; [intros ->; reflexivity|].
        split; [intros v -> Hv; rewrite (Hbound _ _ Hv); reflexivity|].
        split; [intros ->; reflexivity|]. reflexivity.
      * apply Js.eqb_neq in E. repeat split; try reflexivity;
          intros; congruence.
    + split; [reflexivity|]. split; [reflexivity|]. split; [reflexivity|].
      split; [intros E; congruence|].
      split; [|intros E; discriminate]. intros _.
      split; [exact Hany|]. split; reflexivity.
Qed.

(** A star and a stray key, on the conversation of [demo_saved]. *)
Definition demo_updates : object :=
  [(js "starred", JNum 1); (js "id", JStr (js "zz"))].

Lemma demo_saved_conversations :
  conversations (db demo_saved)
  = Some [mkConversation (js "id-0") None None SNull 1700000000002
            1700000000010 4 (SInt 0) (SInt 0)].
Proof. vm_compute. reflexivity. Qed.

Lemma updateConversation_writes_only_recognized_witness :
  result (ConversationService.updateConversation demo_coerce (js "id-0")
            demo_updates) demo_saved = Returned tt /\
  conversations
    (db (after (ConversationService.updateConversation demo_coerce (js "id-0")
                  demo_updates) demo_saved))
  = Some [mkConversation (js "id-0") None None SNull 1700000000002
            1700000000011 4 (SInt 1) (SInt 0)].
Proof.
  split.
  - exact (proj1 (proj2 (proj2 (proj2 (proj2 (proj2
             (updateConversation_writes_only_recognized demo_coerce
                demo_saved _ (js "id-0") demo_updates
                demo_saved_conversations))))) eq_refl)).
  - vm_compute. reflexivity.
Defined.

(** The update of the spec's own example, [{ starred: true }]. *)
Definition demo_star : object := [(js "starred", JBool true)].

(** C6, the claim as stated fails at [{ starred: true }]: a recognized key is
    present, yet the call throws, [starred] is not written and [updated_at]
    is not bumped. *)
Lemma updateConversation_boolean_counterexample :
  any_recognized demo_star = true /\
  result (ConversationService.updateConversation demo_coerce (js "id-0")
            demo_star) demo_saved
  = Threw (TypeError cannot_bind) /\
  conversations (db demo_saved)
  = Some [mkConversation (js "id-0") None None SNull 1700000000002
            1700000000010 4 (SInt 0) (SInt 0)] /\
  conversations
    (db (after (ConversationService.updateConversation demo_coerce (js "id-0")
                  demo_star) demo_saved))
  = Some [mkConversation (js "id-0") None None SNull 1700000000002
            1700000000010 4 (SInt 0) (SInt 0)].
Proof. repeat split; vm_compute; reflexivity. Qed.

(* ===================================================================== *)
(** ** The invariant of the store *)
(* ===================================================================== *)

(** The number of message rows that reference a conversation. *)
Definition count_messages (cid : jsstring) (ms : list message) : nat :=
  length (filter (fun m => Js.eqb (conversation_id m) cid) ms).

(** A store as [initialize] and the service leave it: foreign keys are on,
    both tables exist, conversation ids are unique, every message has its
    parent, and every cached count is the number of children. *)
Definition store_ok (d : Db) : Prop :=
  foreign_keys d = true /\
  exists cs ms,
    conversations d = Some cs /\ messages d = Some ms /\
    NoDup (map c_id cs) /\
    (forall m, In m ms -> has_id (conversation_id m) cs = true) /\
    (forall c, In c cs ->
       message_count c = Z.of_nat (count_messages (c_id c) ms)).

Lemma has_id_In x cs : has_id x cs = true <-> In x (map c_id cs).
Proof.
  unfold has_id. rewrite existsb_exists, in_map_iff. split.
  - intros (c & Hc & E). apply Js.eqb_eq in E. exists c. auto.
  - intros (c & E & Hc). exists c. split; [exact Hc|].
    apply Js.eqb_eq. exact E.
Qed.

Lemma has_id_map x (g : conversation -> conversation) cs :
  (forall c, c_id (g c) = c_id c) -> has_id x (map g cs) = has_id x cs.
Proof.
  intros Hg. unfold has_id. induction cs as [|c cs IH]; simpl.
  - reflexivity.
  - rewrite Hg, IH. reflexivity.
Qed.

Lemma map_c_id_map (g : conversation -> conversation) cs :
  (forall c, c_id (g c) = c_id c) -> map c_id (map g cs) = map c_id cs.
Proof.
  intros Hg. rewrite map_map. apply map_ext. exact Hg.
Qed.

Lemma touched_id cid now c : c_id (touched cid now c) = c_id c.
Proof. unfold touched. destruct (Js.eqb (c_id c) cid); reflexivity. Qed.

Lemma count_messages_app cid ms m :
  count_messages cid (ms ++ [m])
  = (count_messages cid ms
     + if Js.eqb (conversation_id m) cid then 1 else 0)%nat.
Proof.
  unfold count_messages. rewrite filter_app, length_app. simpl.
  destruct (Js.eqb (conversation_id m) cid); reflexivity.
Qed.

Lemma count_messages_none cid cs ms :
  (forall m, In m ms -> has_id (conversation_id m) cs = true) ->
  has_id cid cs = false -> count_messages cid ms = 0%nat.
Proof.
  intros Hfk Hno. unfold count_messages.
  induction ms as [|m ms IH]; simpl; [reflexivity|].
  destruct (Js.eqb (conversation_id m) cid) eqn:E.
  - apply Js.eqb_eq in E. rewrite <- E in Hno.
    rewrite Hfk in Hno by (left; reflexivity). discriminate.
  - apply IH. intros m' Hm'. apply Hfk. right. exact Hm'.
Qed.

(** Dropping the messages of one conversation leaves the others' counts. *)
Lemma count_messages_filter_other cid x ms :
  x <> cid ->
  count_messages x
    (filter (fun m => negb (Js.eqb (conversation_id m) cid)) ms)
  = count_messages x ms.
Proof.
  intros Hne. unfold count_messages.
  induction ms as [|m ms IH]; simpl; [reflexivity|].
  destruct (Js.eqb (conversation_id m) cid) eqn:E; simpl.
  - apply Js.eqb_eq in E.
    destruct (Js.eqb (conversation_id m) x) eqn:Ex.
    + apply Js.eqb_eq in Ex. congruence.
    + exact IH.
  - destruct (Js.eqb (conversation_id m) x); simpl; rewrite IH; reflexivity.
Qed.

Lemma has_id_filter_other cid x cs :
  x <> cid ->
  has_id x (filter (fun c => negb (Js.eqb (c_id c) cid)) cs) = has_id x cs.
Proof.
  intros Hne. unfold has_id. induction cs as [|c cs IH]; simpl; [reflexivity|].
  destruct (Js.eqb (c_id c) cid) eqn:E; simpl.
  - apply Js.eqb_eq in E. rewrite IH.
    destruct (Js.eqb (c_id c) x) eqn:Ex; [|reflexivity].
    apply Js.eqb_eq in Ex. congruence.
  - rewrite IH. reflexivity.
Qed.

Lemma NoDup_map_filter {A B} (g : A -> B) (p : A -> bool) l :
  NoDup (map g l) -> NoDup (map g (filter p l)).
Proof.
  induction l as [|a l IH]; simpl; intros H; [constructor|].
  inversion H as [|? ? Hn Hd]; subst.
  destruct (p a); simpl.
  - constructor; [|apply IH, Hd].
    intros Hin. apply Hn. apply in_map_iff in Hin.
    destruct Hin as (b & E & Hb). apply filter_In in Hb.
    apply in_map_iff. exists b. tauto.
  - apply IH, Hd.
Qed.

Lemma NoDup_snoc {A} (l : list A) x :
  NoDup l -> ~ In x l -> NoDup (l ++ [x]).
Proof.
  induction l as [|a l IH]; simpl; intros Hnd Hx.
  - constructor; [intros []|constructor].
  - inversion Hnd as [|? ? Ha Hl]; subst. constructor.
    + intros Hin. apply in_app_or in Hin. destruct Hin as [Hin|[E|[]]].
      * exact (Ha Hin).
      * apply Hx. left. symmetry. exact E.
    + apply IH; [exact Hl|]. intros Hin. apply Hx. right. exact Hin.
Qed.

Section Preservation.
Variable sha256_hex : jsstring -> jsstring.
Variable coerce : affinity -> sqlval -> sqlval.

Lemma createConversation_store_ok w shot :
  store_ok (db w) ->
  store_ok (db (after (ConversationService.createConversation sha256_hex shot)
                  w)).
Proof.
  intros (Hfk & cs & ms & Hc & Hm & Hnd & Hpar & Hcnt). unfold after.
  rewrite (createConversation_ready sha256_hex w cs shot Hc).
  destruct (has_id (uuids w (draws w)) cs) eqn:Hid; simpl.
  - split; [exact Hfk|]. exists cs, ms. auto.
  - split; [exact Hfk|]. eexists. exists ms. split; [reflexivity|].
    split; [exact Hm|]. split; [|split].
    + rewrite map_app. simpl. apply NoDup_snoc; [exact Hnd|].
      intros Hin. apply has_id_In in Hin. congruence.
    + intros m Hin. apply has_id_In. rewrite map_app. apply in_or_app. left.
      apply has_id_In. apply Hpar, Hin.
    + intros c Hin. apply in_app_or in Hin. destruct Hin as [Hin|[<-|[]]].
      * apply Hcnt, Hin.
      * simpl. rewrite (count_messages_none _ cs ms Hpar Hid). reflexivity.
Qed.

Lemma saveMessage_store_ok w cid r c e :
  store_ok (db w) ->
  store_ok (db (after (ConversationService.saveMessage cid r c e) w)).
Proof.
  intros (Hfk & cs & ms & Hc & Hm & Hnd & Hpar & Hcnt). unfold after.
  assert (Hsame : store_ok (db w)).
  { split; [exact Hfk|]. exists cs, ms. auto. }
  destruct r as [r|], c as [c|];
    try (destruct (saveMessage_null w ms cid None None e Hm) as (x & ->);
         [left; reflexivity|exact Hsame]).
  - rewrite (saveMessage_ready w cs ms cid r c e Hc Hm).
    destruct (has_message_id _ ms); [exact Hsame|].
    rewrite Hfk. simpl andb.
    destruct (has_id cid cs) eqn:Hid; simpl; [|exact Hsame].
    split; [reflexivity|]. eexists. eexists. split; [reflexivity|].
    split; [reflexivity|]. split; [|split].
    + rewrite map_c_id_map by apply touched_id. exact Hnd.
    + intros m Hin. rewrite has_id_map by apply touched_id.
      apply in_app_or in Hin. destruct Hin as [Hin|[<-|[]]].
      * apply Hpar, Hin.
      * exact Hid.
    + intros c' Hin. apply in_map_iff in Hin. destruct Hin as (c0 & <- & Hin).
      rewrite touched_id, count_messages_app. cbn [conversation_id].
      unfold touched.
      destruct (Js.eqb (c_id c0) cid) eqn:E.
      * apply Js.eqb_eq in E. subst cid. rewrite Js.eqb_refl. simpl.
        rewrite (Hcnt c0 Hin). lia.
      * assert (E' : Js.eqb cid (c_id c0) = false).
        { apply Js.eqb_neq. apply Js.eqb_neq in E. congruence. }
        rewrite E'. rewrite (Hcnt c0 Hin). lia.
  - destruct (saveMessage_null w ms cid (Some r) None e Hm) as (x & ->);
      [right; reflexivity|exact Hsame].
  - destruct (saveMessage_null w ms cid None (Some c) e Hm) as (x & ->);
      [left; reflexivity|exact Hsame].
Qed.
End Preservation.

(** A property of the world that an action keeps, however it ends. *)
Definition keeps {A} (P : World -> Prop) (m : M A) : Prop :=
  forall w, P w -> P (after m w).

Lemma keeps_ret {A} P (a : A) : keeps P (ret a).
Proof. intros w H. exact H. Qed.

Lemma keeps_bind {A B} P (m : M A) (k : A -> M B) :
  keeps P m -> (forall a, keeps P (k a)) -> keeps P (bind m k).
Proof.
  intros Hm Hk w H. unfold after, bind.
  specialize (Hm w H). unfold after in Hm.
  destruct (m w) as [[a|e] w']; simpl in *.
  - apply Hk. exact Hm.
  - exact Hm.
Qed.

Lemma keeps_for_each {A} P (f : A -> M unit) l :
  (forall x, keeps P (f x)) -> keeps P (for_each f l).
Proof.
  intros Hf. induction l as [|x l IH]; simpl.
  - apply keeps_ret.
  - apply keeps_bind; [apply Hf|]. intros _. exact IH.
Qed.

Section StoreInvariant.
Variable sha256_hex : jsstring -> jsstring.
Variable coerce : affinity -> sqlval -> sqlval.

Lemma updateConversation_store_ok w cid updates :
  store_ok (db w) ->
  store_ok (db (after (ConversationService.updateConversation coerce cid
                         updates) w)).
Proof.
  intros (Hfk & cs & ms & Hc & Hm & Hnd & Hpar & Hcnt). unfold after.
  rewrite (updateConversation_ready coerce w cs cid updates Hc).
  destruct (recognized updates) as [|k ks] eqn:Hr; simpl.
  - split; [exact Hfk|]. exists cs, ms. auto.
  - destruct (bindable updates); cbn [snd];
      [|split; [exact Hfk|]; exists cs, ms; auto].
    set (g := fun c => if Js.eqb (c_id c) cid
                       then updated_row coerce (k :: ks) updates
                              (clock w (ticks w)) c
                       else c).
    assert (Hg : forall c, c_id (g c) = c_id c).
    { intros c. unfold g. destruct (Js.eqb (c_id c) cid); reflexivity. }
    assert (Hgc : forall c, message_count (g c) = message_count c).
    { intros c. unfold g. destruct (Js.eqb (c_id c) cid); reflexivity. }
    split; [exact Hfk|]. exists (map g cs), ms. split; [reflexivity|].
    split; [exact Hm|]. split; [|split].
    + rewrite map_c_id_map by exact Hg. exact Hnd.
    + intros m Hin. rewrite has_id_map by exact Hg. apply Hpar, Hin.
    + intros c Hin. apply in_map_iff in Hin. destruct Hin as (c0 & <- & Hin).
      rewrite Hg, Hgc. apply Hcnt, Hin.
Qed.

Lemma deleteConversation_store_ok w cid :
  store_ok (db w) ->
  store_ok (db (after (ConversationService.deleteConversation cid) w)).
Proof.
  intros (Hfk & cs & ms & Hc & Hm & Hnd & Hpar & Hcnt). unfold after.
  rewrite (deleteConversation_ready w cs cid Hc). simpl.
  rewrite Hfk, Hm. simpl andb.
  split; [reflexivity|].
  destruct (has_id cid cs) eqn:Hid; simpl.
  - eexists. eexists. split; [reflexivity|]. split; [reflexivity|].
    split; [|split].
    + apply NoDup_map_filter, Hnd.
    + intros m Hin. apply filter_In in Hin. destruct Hin as [Hin Hne].
      apply negb_true_iff, Js.eqb_neq in Hne.
      rewrite has_id_filter_other by exact Hne. apply Hpar, Hin.
    + intros c Hin. apply filter_In in Hin. destruct Hin as [Hin Hne].
      apply negb_true_iff, Js.eqb_neq in Hne.
      rewrite count_messages_filter_other by exact Hne. apply Hcnt, Hin.
  - eexists. exists ms. split; [reflexivity|]. split; [reflexivity|].
    assert (Hother : forall x, has_id x cs = true -> x <> cid)
      by (intros x Hx E; congruence).
    split; [|split].
    + apply NoDup_map_filter, Hnd.
    + intros m Hin. rewrite has_id_filter_other; [apply Hpar, Hin|].
      apply Hother, Hpar, Hin.
    + intros c Hin. apply filter_In in Hin. destruct Hin as [Hin _].
      apply Hcnt, Hin.
Qed.

Lemma saveCompleteConversation_store_ok w shot items :
  store_ok (db w) ->
  store_ok (db (after (ConversationService.saveCompleteConversation
                         sha256_hex shot items) w)).
Proof.
  revert w. change (keeps (fun w => store_ok (db w))
    (ConversationService.saveCompleteConversation sha256_hex shot items)).
  unfold ConversationService.saveCompleteConversation.
  apply keeps_bind.
  - intros w. apply createConversation_store_ok.
  - intros r. apply keeps_bind; [|intros; apply keeps_ret].
    apply keeps_for_each. intros it.
    apply keeps_bind; [intros w; apply saveMessage_store_ok|]. intros _.
    apply keeps_bind; [intros w; apply saveMessage_store_ok|]. intros _.
    apply keeps_ret.
Qed.

(** The calls the request handlers make on the service. *)
Inductive call :=
| CreateConversation (screenshot : option jsstring)
| SaveMessage (cid : jsstring) (role content : option jsstring) (e : bool)
| GetAllConversations (limit offset : option Z) (f : option filters)
| GetConversation (cid : jsstring)
| GetConversationWithMessages (cid : jsstring)
| UpdateConversation (cid : jsstring) (updates : object)
| DeleteConversation (cid : jsstring)
| SaveCompleteConversation (screenshot : option jsstring) (items : list item).

(** The world a call leaves, whether it returns or throws. *)
Definition world_after (c : call) (w : World) : World :=
  match c with
  | CreateConversation shot =>
      after (ConversationService.createConversation sha256_hex shot) w
  | SaveMessage cid r c e =>
      after (ConversationService.saveMessage cid r c e) w
  | GetAllConversations limit offset f =>
      after (ConversationService.getAllConversations limit offset f) w
  | GetConversation cid => after (ConversationService.getConversation cid) w
  | GetConversationWithMessages cid =>
      after (ConversationService.getConversationWithMessages cid) w
  | UpdateConversation cid updates =>
      after (ConversationService.updateConversation coerce cid updates) w
  | DeleteConversation cid =>
      after (ConversationService.deleteConversation cid) w
  | SaveCompleteConversation shot items =>
      after (ConversationService.saveCompleteConversation sha256_hex shot
               items) w
  end.

(** The worlds the application can be in: [initialize] ran on a new file,
    and then any calls were made. *)
Inductive reachable : World -> Prop :=
| reach_initialize w :
    db w = fresh_db ->
    reachable (after (DatabaseService.initialize repo_migrations) w)
| reach_call w c : reachable w -> reachable (world_after c w).

Lemma initialize_fresh w :
  db w = fresh_db ->
  after (DatabaseService.initialize repo_migrations) w
  = mkWorld
      (mkDb true (Some []) (Some [])
         (Some [mkMetadata (js "schema_version") (js "1")
                  (clock w (S (ticks w)))]))
      (clock w) (2 + ticks w) (uuids w) (draws w) (migration_log w ++ [1]).
Proof.
  destruct w as [d ck t uu dr lg]. simpl. intros ->. reflexivity.
Qed.

Lemma world_after_store_ok c w :
  store_ok (db w) -> store_ok (db (world_after c w)).
Proof.
  intros H. destruct c; simpl.
  - apply createConversation_store_ok, H.
  - apply saveMessage_store_ok, H.
  - destruct H as (Hfk & cs & ms & Hc & Hm & Hrest). unfold after.
    rewrite (getAllConversations_ready w cs ms) by assumption.
    split; [exact Hfk|]. exists cs, ms. auto.
  - destruct H as (Hfk & cs & ms & Hc & Hm & Hrest). unfold after.
    rewrite (getConversation_ready w cs) by assumption.
    split; [exact Hfk|]. exists cs, ms. auto.
  - destruct H as (Hfk & cs & ms & Hc & Hm & Hrest). unfold after.
    rewrite (getConversationWithMessages_ready w cs ms) by assumption.
    split; [exact Hfk|]. exists cs, ms. auto.
  - apply updateConversation_store_ok, H.
  - apply deleteConversation_store_ok, H.
  - apply saveCompleteConversation_store_ok, H.
Qed.

(** Every reachable world satisfies the invariant. *)
Lemma reachable_store_ok w : reachable w -> store_ok (db w).
Proof.
  induction 1 as [w Hfresh|w c _ IH].
  - rewrite (initialize_fresh w Hfresh). simpl.
    split; [reflexivity|]. exists [], []. repeat split; try reflexivity.
    + constructor.
    + intros m [].
    + intros c [].
  - apply world_after_store_ok, IH.
Qed.

End StoreInvariant.

(* ===================================================================== *)
(** ** Appending messages *)
(* ===================================================================== *)

(** A run of [saveMessage] calls against one conversation, each of which
    returned. *)
Inductive saved_all (cid : jsstring)
    : list (option jsstring * option jsstring * bool) ->
      World -> World -> Prop :=
| saved_none w : saved_all cid [] w w
| saved_next r c e rest w s w' w'' :
    ConversationService.saveMessage cid r c e w = (Returned s, w') ->
    saved_all cid rest w' w'' ->
    saved_all cid ((r, c, e) :: rest) w w''.

(** The message row a call to [saveMessage] inserts. *)
Definition new_message (w : World) (cid r c : jsstring) (e : bool) : message :=
  mkMessage (uuids w (draws w)) cid r c (clock w (ticks w))
    (if e then 1 else 0).

(** A call to [saveMessage] that returns has inserted its row and touched
    the parent. *)
Lemma saveMessage_returned w cid r c e s w' :
  store_ok (db w) ->
  ConversationService.saveMessage cid r c e w = (Returned s, w') ->
  exists cs ms r0 c0,
    conversations (db w) = Some cs /\ messages (db w) = Some ms /\
    r = Some r0 /\ c = Some c0 /\
    has_id cid cs = true /\
    has_message_id (uuids w (draws w)) ms = false /\
    s = mkSaved (uuids w (draws w)) (clock w (ticks w)) /\
    w' = moved 2 1
           (mkDb true (Some (map (touched cid (clock w (S (ticks w)))) cs))
              (Some (ms ++ [new_message w cid r0 c0 e]))
              (metadata (db w))) w.
Proof.
  intros (Hfk & cs & ms & Hc & Hm & _) Hrun.
  destruct r as [r0|]; [destruct c as [c0|]|].
  - rewrite (saveMessage_ready w cs ms cid r0 c0 e Hc Hm) in Hrun.
    rewrite Hfk in Hrun. simpl andb in Hrun.
    destruct (has_message_id _ ms) eqn:Hmid; [discriminate|].
    destruct (has_id cid cs) eqn:Hid; simpl in Hrun; [|discriminate].
    inversion Hrun; subst. exists cs, ms, r0, c0. repeat split; auto.
  - destruct (saveMessage_null w ms cid (Some r0) None e Hm) as (x & Hx);
      [right; reflexivity|]. congruence.
  - destruct (saveMessage_null w ms cid None c e Hm) as (x & Hx);
      [left; reflexivity|]. congruence.
Qed.

Lemma find_has_id cs cid :
  has_id cid cs = true ->
  exists c, find (fun c => Js.eqb (c_id c) cid) cs = Some c.
Proof.
  unfold has_id. induction cs as [|c cs IH]; simpl; [discriminate|].
  destruct (Js.eqb (c_id c) cid); simpl; [eauto|exact IH].
Qed.

Lemma find_by_id cs cid c :
  find (fun c => Js.eqb (c_id c) cid) cs = Some c -> In c cs /\ c_id c = cid.
Proof.
  intros H. apply find_some in H. destruct H as [Hin E].
  apply Js.eqb_eq in E. auto.
Qed.

Lemma ui_messages_length cid ms :
  length (ui_messages cid ms) = count_messages cid ms.
Proof.
  unfold ui_messages, count_messages.
  rewrite length_map, sort_by_length. reflexivity.
Qed.

(** In a store that satisfies the invariant, what [getConversation] and
    [getConversationWithMessages] return agree on the count. *)
Lemma store_ok_count w cid c :
  store_ok (db w) ->
  result (ConversationService.getConversation cid) w = Returned (Some c) ->
  exists ms,
    messages (db w) = Some ms /\
    result (ConversationService.getConversationWithMessages cid) w
    = Returned (Some (c, ui_messages cid ms)) /\
    message_count c = Z.of_nat (count_messages cid ms).
Proof.
  intros (Hfk & cs & ms & Hc & Hm & Hnd & Hpar & Hcnt) Hget.
  unfold result in *.
  rewrite (getConversation_ready w cs cid Hc) in Hget. simpl in Hget.
  inversion Hget as [Hfind].
  exists ms. split; [exact Hm|].
  rewrite (getConversationWithMessages_ready w cs ms cid Hc Hm). simpl.
  rewrite Hfind. split; [reflexivity|].
  destruct (find_by_id cs cid c Hfind) as [Hin <-]. apply Hcnt, Hin.
Qed.

Section Appending.
Variable sha256_hex : jsstring -> jsstring.
Variable coerce : affinity -> sqlval -> sqlval.

Lemma saved_all_count cid saves w w' :
  saved_all cid saves w w' ->
  reachable sha256_hex coerce w ->
  reachable sha256_hex coerce w' /\
  exists ms ms',
    messages (db w) = Some ms /\ messages (db w') = Some ms' /\
    count_messages cid ms' = (count_messages cid ms + length saves)%nat /\
    (saves <> [] ->
     exists cs', conversations (db w') = Some cs' /\ has_id cid cs' = true).
Proof.
  induction 1 as [w|r c e rest w s w1 w2 Hrun Hrest IH]; intros Hreach.
  - split; [exact Hreach|].
    destruct (reachable_store_ok _ _ _ Hreach) as (_ & cs & ms & _ & Hm & _).
    exists ms, ms. repeat split; auto. intros H. congruence.
  - assert (Hreach1 : reachable sha256_hex coerce w1).
    { replace w1 with (world_after sha256_hex coerce (SaveMessage cid r c e) w).
      - apply reach_call, Hreach.
      - simpl. unfold after. rewrite Hrun. reflexivity. }
    destruct (IH Hreach1) as (Hreach2 & ms1 & ms2 & Hm1 & Hm2 & Hcount & Hex).
    split; [exact Hreach2|].
    destruct (saveMessage_returned w cid r c e s w1
                (reachable_store_ok _ _ _ Hreach) Hrun)
      as (cs & ms & r0 & c0 & Hc & Hm & -> & -> & Hid & _ & _ & Hw1).
    exists ms, ms2. split; [exact Hm|]. split; [exact Hm2|]. split.
    + rewrite Hcount. subst w1. simpl in Hm1. inversion Hm1; subst ms1.
      rewrite count_messages_app. unfold new_message. cbn [conversation_id].
      rewrite Js.eqb_refl. simpl. lia.
    + intros _. destruct rest as [|x rest].
      * inversion Hrest; subst. simpl. eexists. split; [reflexivity|].
        rewrite has_id_map by apply touched_id. exact Hid.
      * apply Hex. discriminate.
Qed.

End Appending.

(** C1.  In every world the application can reach, the [message_count] of
    the row [getConversation] returns is the number of messages
    [getConversationWithMessages] returns for it, which is the number of
    message rows that reference it.  Right after [createConversation] the
    count is 0, and after any [N] calls of [saveMessage] against the new
    conversation that returned, [getConversation] shows [message_count = N]
    and [getConversationWithMessages] returns [N] messages. *)
Theorem message_count_equals_messages
    (sha256_hex : jsstring -> jsstring)
    (coerce : affinity -> sqlval -> sqlval) (w : World) :
  reachable sha256_hex coerce w ->
  (forall cid c,
     result (ConversationService.getConversation cid) w = Returned (Some c) ->
     exists ms msgs,
       messages (db w) = Some ms /\
       result (ConversationService.getConversationWithMessages cid) w
       = Returned (Some (c, msgs)) /\
       message_count c = Z.of_nat (length msgs) /\
       message_count c = Z.of_nat (count_messages cid ms)) /\
  (forall shot r w1,
     ConversationService.createConversation sha256_hex shot w
     = (Returned r, w1) ->
     (exists c,
        result (ConversationService.getConversation (new_id r)) w1
        = Returned (Some c) /\ message_count c = 0) /\
     (forall saves w2,
        saved_all (new_id r) saves w1 w2 ->
        exists c msgs,
          result (ConversationService.getConversation (new_id r)) w2
          = Returned (Some c) /\
          message_count c = Z.of_nat (length saves) /\
          result (ConversationService.getConversationWithMessages (new_id r))
            w2 = Returned (Some (c, msgs)) /\
          length msgs = length saves)).
Proof.
  intros Hreach.
  assert (Hinv : forall w', reachable sha256_hex coerce w' ->
    forall cid c,
      result (ConversationService.getConversation cid) w' = Returned (Some c) ->
      exists ms msgs,
        messages (db w') = Some ms /\
        result (ConversationService.getConversationWithMessages cid) w'
        = Returned (Some (c, msgs)) /\
        message_count c = Z.of_nat (length msgs) /\
        message_count c = Z.of_nat (count_messages cid ms)).
  { intros w' Hr cid c Hget.
    destruct (store_ok_count w' cid c (reachable_store_ok _ _ _ Hr) Hget)
      as (ms & Hm & Hwith & Hcnt).
    exists ms, (ui_messages cid ms). rewrite ui_messages_length. auto. }
  split; [apply Hinv, Hreach|].
  intros shot r w1 Hcreate.
  assert (Hreach1 : reachable sha256_hex coerce w1).
  { replace w1 with (world_after sha256_hex coerce (CreateConversation shot) w).
    - apply reach_call, Hreach.
    - simpl. unfold after. rewrite Hcreate. reflexivity. }
  pose proof (reachable_store_ok _ _ _ Hreach) as Hok.
  destruct Hok as (Hfk & cs & ms & Hc & Hm & Hnd & Hpar & Hcnt).
  rewrite (createConversation_ready sha256_hex w cs shot Hc) in Hcreate.
  destruct (has_id (uuids w (draws w)) cs) eqn:Hid; [discriminate|].
  injection Hcreate as Hr Hw1. subst r. cbn [new_id].
  set (id := uuids w (draws w)) in *.
  set (row := new_conversation sha256_hex id shot (clock w (ticks w))) in *.
  assert (Hc1 : conversations (db w1) = Some (cs ++ [row]))
    by (subst w1; reflexivity).
  assert (Hm1 : messages (db w1) = Some ms) by (subst w1; exact Hm).
  assert (Hzero : count_messages id ms = 0%nat)
    by (apply (count_messages_none id cs ms Hpar Hid)).
  assert (Hhas1 : has_id id (cs ++ [row]) = true).
  { apply has_id_In. rewrite map_app. apply in_or_app. right. left.
    reflexivity. }
  split.
  - destruct (find_has_id _ _ Hhas1) as (c & Hfind).
    exists c. unfold result.
    rewrite (getConversation_ready w1 _ id Hc1). simpl.
    split; [congruence|].
    destruct (Hinv w1 Hreach1 id c) as (ms' & msgs & Hm' & _ & _ & Hcount).
    { unfold result. rewrite (getConversation_ready w1 _ id Hc1).
      simpl. congruence. }
    assert (ms' = ms) by congruence. subst ms'. rewrite Hcount, Hzero.
    reflexivity.
  - intros saves w2 Hsaves.
    destruct (saved_all_count sha256_hex coerce id saves w1 w2 Hsaves Hreach1)
      as (Hreach2 & ms1 & ms2 & Hms1 & Hms2 & Hcount & Hex).
    assert (ms1 = ms) by congruence. subst ms1.
    assert (Hhas2 : exists cs2,
      conversations (db w2) = Some cs2 /\ has_id id cs2 = true).
    { destruct saves as [|x saves].
      - inversion Hsaves; subst. exists (cs ++ [row]). auto.
      - apply Hex. discriminate. }
    destruct Hhas2 as (cs2 & Hc2 & Hhas2).
    destruct (find_has_id _ _ Hhas2) as (c & Hfind).
    assert (Hget : result (ConversationService.getConversation id) w2
                   = Returned (Some c)).
    { unfold result. rewrite (getConversation_ready w2 cs2 id Hc2).
      simpl. congruence. }
    destruct (Hinv w2 Hreach2 id c Hget)
      as (ms' & msgs & Hm' & Hwith & Hlen & Hcnt2).
    assert (ms' = ms2) by congruence. subst ms'.
    exists c, msgs. split; [exact Hget|].
    assert (Hn : count_messages id ms2 = length saves) by lia.
    split; [rewrite Hcnt2, Hn; reflexivity|]. split; [exact Hwith|].
    rewrite Hcnt2 in Hlen. lia.
Qed.

(** The end-to-end scenario: a conversation is created in [demo_ready], a
    question is saved and then its answer. *)
Definition demo_created : created := mkCreated (js "id-0") 1700000000002.

Definition demo_asked : World :=
  after (ConversationService.saveMessage (js "id-0") (Some (js "user"))
           (Some (js "What is this?")) false) demo_silent.

Definition demo_answered : World :=
  after (ConversationService.saveMessage (js "id-0") (Some (js "assistant"))
           (Some (js "A screenshot.")) false) demo_asked.

Lemma demo_ready_reachable : reachable demo_sha256 demo_coerce demo_ready.
Proof. apply reach_initialize. reflexivity. Qed.

Lemma demo_silent_run :
  ConversationService.createConversation demo_sha256 None demo_ready
  = (Returned demo_created, demo_silent).
Proof.
  unfold demo_silent.
  apply (run_after (ConversationService.createConversation demo_sha256 None) demo_ready).
  vm_compute. reflexivity.
Qed.

Lemma demo_asked_run :
  ConversationService.saveMessage (js "id-0") (Some (js "user"))
    (Some (js "What is this?")) false demo_silent
  = (Returned (mkSaved (js "id-1") 1700000000003), demo_asked).
Proof.
  unfold demo_asked.
  apply (run_after (ConversationService.saveMessage (js "id-0") (Some (js "user"))
           (Some (js "What is this?")) false) demo_silent).
  vm_compute. reflexivity.
Qed.

Lemma demo_answered_run :
  ConversationService.saveMessage (js "id-0") (Some (js "assistant"))
    (Some (js "A screenshot.")) false demo_asked
  = (Returned (mkSaved (js "id-2") 1700000000005), demo_answered).
Proof.
  unfold demo_answered.
  apply (run_after (ConversationService.saveMessage (js "id-0")
           (Some (js "assistant")) (Some (js "A screenshot.")) false)
          demo_asked).
  vm_compute. reflexivity.
Qed.

Lemma message_count_equals_messages_witness :
  exists c msgs,
    result (ConversationService.getConversation (js "id-0")) demo_answered
    = Returned (Some c) /\
    message_count c = 2 /\
    result (ConversationService.getConversationWithMessages (js "id-0"))
      demo_answered = Returned (Some (c, msgs)) /\
    length msgs = 2%nat.
Proof.
  exact (proj2
           (proj2 (message_count_equals_messages demo_sha256 demo_coerce
                     demo_ready demo_ready_reachable)
              None demo_created demo_silent demo_silent_run)
           [(Some (js "user"), Some (js "What is this?"), false);
            (Some (js "assistant"), Some (js "A screenshot."), false)]
           demo_answered
           (saved_next _ _ _ _ _ _ _ _ _ demo_asked_run
              (saved_next _ _ _ _ _ _ _ _ _ demo_answered_run
                 (saved_none _ _)))).
Defined.

(* ===================================================================== *)
(** ** Deleting and reading *)
(* ===================================================================== *)

Lemma find_filter_other cid cs :
  find (fun c => Js.eqb (c_id c) cid)
    (filter (fun c => negb (Js.eqb (c_id c) cid)) cs) = None.
Proof.
  induction cs as [|c cs IH]; simpl; [reflexivity|].
  destruct (Js.eqb (c_id c) cid) eqn:E; simpl; [exact IH|].
  rewrite E. exact IH.
Qed.

(** C2.  With foreign keys on, [deleteConversation] of an existing
    conversation returns normally; afterwards [getConversation] and
    [getConversationWithMessages] find nothing under that id, no listing
    shows it, and the [messages] table holds exactly the rows it held for
    other conversations: the one DELETE statement and its cascade leave no
    message of the deleted conversation behind. *)
Theorem deleteConversation_cascades
    (w : World) (cs : list conversation) (ms : list message)
    (cid : jsstring) :
  conversations (db w) = Some cs ->
  messages (db w) = Some ms ->
  foreign_keys (db w) = true ->
  has_id cid cs = true ->
  let w' := after (ConversationService.deleteConversation cid) w in
  result (ConversationService.deleteConversation cid) w = Returned tt /\
  result (ConversationService.getConversation cid) w' = Returned None /\
  result (ConversationService.getConversationWithMessages cid) w'
  = Returned None /\
  (exists ms',
     messages (db w') = Some ms' /\
     forall m, In m ms' <-> In m ms /\ conversation_id m <> cid) /\
  (exists cs',
     conversations (db w') = Some cs' /\
     forall c, In c cs' <-> In c cs /\ c_id c <> cid) /\
  (forall limit offset f l,
     result (ConversationService.getAllConversations limit offset f) w'
     = Returned l ->
     forall s, In s l -> s_id s <> cid).
Proof.
  intros Hc Hm Hfk Hid w'. subst w'. unfold result, after.
  rewrite (deleteConversation_ready w cs cid Hc).
  rewrite Hfk, Hid, Hm. cbn [fst snd andb option_map].
  set (cs' := filter (fun c => negb (Js.eqb (c_id c) cid)) cs).
  set (ms' := filter (fun m => negb (Js.eqb (conversation_id m) cid)) ms).
  set (w' := with_db _ w).
  assert (Hc' : conversations (db w') = Some cs') by reflexivity.
  assert (Hm' : messages (db w') = Some ms') by reflexivity.
  assert (Hcs' : forall c, In c cs' <-> In c cs /\ c_id c <> cid).
  { intros c. unfold cs'. rewrite filter_In, negb_true_iff, Js.eqb_neq.
    reflexivity. }
  split; [reflexivity|].
  rewrite (getConversation_ready w' cs' cid Hc').
  rewrite (getConversationWithMessages_ready w' cs' ms' cid Hc' Hm').
  unfold cs' at 1 2. rewrite find_filter_other. cbn [fst].
  split; [reflexivity|]. split; [reflexivity|].
  split; [|split].
  - exists ms'. split; [reflexivity|]. intros m. unfold ms'.
    rewrite filter_In, negb_true_iff, Js.eqb_neq. reflexivity.
  - exists cs'. split; [reflexivity|]. exact Hcs'.
  - intros limit offset f l Hl s Hs.
    rewrite (getAllConversations_ready w' cs' ms') in Hl by assumption.
    cbn [fst] in Hl. inversion Hl; subst l.
    apply in_map_iff in Hs. destruct Hs as (c & <- & Hin).
    apply selected_In in Hin. destruct Hin as [Hin _].
    apply Hcs' in Hin. simpl. tauto.
Qed.

Lemma demo_answered_conversations :
  conversations (db demo_answered)
  = Some [mkConversation (js "id-0") None None SNull 1700000000002
            1700000000006 2 (SInt 0) (SInt 0)].
Proof. vm_compute. reflexivity. Qed.

Definition demo_answered_messages : list message :=
  [mkMessage (js "id-1") (js "id-0") (js "user") (js "What is this?")
     1700000000003 0;
   mkMessage (js "id-2") (js "id-0") (js "assistant") (js "A screenshot.")
     1700000000005 0].

Lemma demo_answered_messages_eq :
  messages (db demo_answered) = Some demo_answered_messages.
Proof. vm_compute. reflexivity. Qed.

Lemma deleteConversation_cascades_witness :
  result (ConversationService.getConversation (js "id-0"))
    (after (ConversationService.deleteConversation (js "id-0")) demo_answered)
  = Returned None.
Proof.
  exact (proj1 (proj2
    (deleteConversation_cascades demo_answered _ _ (js "id-0")
       demo_answered_conversations demo_answered_messages_eq
       eq_refl eq_refl))).
Defined.

Lemma by_timestamp_total a b :
  by_timestamp a b = false -> by_timestamp b a = true.
Proof. unfold by_timestamp. lia. Qed.

Lemma sorted_by_timestamp l :
  StronglySorted (fun a b => timestamp a <= timestamp b)
    (sort_by by_timestamp l).
Proof.
  apply Sorted_StronglySorted.
  - intros x y z Hxy Hyz. cbv beta in *. lia.
  - apply Sorted_weaken with (R := fun a b => by_timestamp a b = true).
    + intros a b H. unfold by_timestamp in H. lia.
    + apply sort_by_sorted. exact by_timestamp_total.
Qed.

Lemma find_none_id cs cid :
  (forall c, In c cs -> c_id c <> cid) ->
  find (fun c => Js.eqb (c_id c) cid) cs = None.
Proof.
  intros H. destruct (find _ cs) as [c|] eqn:E; [|reflexivity].
  destruct (find_by_id cs cid c E) as [Hin Hid]. destruct (H c Hin Hid).
Qed.

Lemma find_unique_id cs cid c :
  NoDup (map c_id cs) -> In c cs -> c_id c = cid ->
  find (fun c => Js.eqb (c_id c) cid) cs = Some c.
Proof.
  intros Hnd Hin Hid. induction cs as [|x cs IH]; [destruct Hin|].
  simpl in *. inversion Hnd as [|? ? Hx Hnd']; subst.
  destruct Hin as [->|Hin].
  - rewrite Js.eqb_refl. reflexivity.
  - destruct (Js.eqb (c_id x) (c_id c)) eqn:E.
    + apply Js.eqb_eq in E. exfalso. apply Hx. rewrite E.
      apply in_map. exact Hin.
    + apply IH; assumption.
Qed.

(** C8.  On an initialized store neither read throws or changes anything.
    [getConversation] returns a row of the table with the given id when
    there is one (the row, ids being unique), and [undefined] otherwise.
    [getConversationWithMessages] returns [null] exactly then, with no
    message list at all; otherwise it returns the same row and a list that
    is a permutation of the conversation's message rows in the UI format,
    in ascending order of [timestamp], where each element carries the row's
    [role], [content] and [timestamp] and the boolean [error = 1]. *)
Theorem reads_return_row_or_nothing
    (w : World) (cs : list conversation) (ms : list message)
    (cid : jsstring) :
  conversations (db w) = Some cs ->
  messages (db w) = Some ms ->
  after (ConversationService.getConversation cid) w = w /\
  after (ConversationService.getConversationWithMessages cid) w = w /\
  ((forall c, In c cs -> c_id c <> cid) ->
   result (ConversationService.getConversation cid) w = Returned None /\
   result (ConversationService.getConversationWithMessages cid) w
   = Returned None) /\
  (forall c, NoDup (map c_id cs) -> In c cs -> c_id c = cid ->
   result (ConversationService.getConversation cid) w = Returned (Some c)) /\
  (forall c, In c cs -> c_id c = cid ->
   exists row msgs,
     In row cs /\ c_id row = cid /\
     result (ConversationService.getConversation cid) w
     = Returned (Some row) /\
     result (ConversationService.getConversationWithMessages cid) w
     = Returned (Some (row, msgs)) /\
     StronglySorted (fun a b => ui_timestamp a <= ui_timestamp b) msgs /\
     Permutation
       (map ConversationService.to_ui
          (filter (fun m => Js.eqb (conversation_id m) cid) ms)) msgs /\
     (forall u, In u msgs ->
        exists m,
          In m ms /\ conversation_id m = cid /\
          ui_id u = m_id m /\ ui_role u = role m /\
          ui_content u = content m /\ ui_timestamp u = timestamp m /\
          ui_error u = (error m =? 1))).
Proof.
  intros Hc Hm. unfold after, result.
  rewrite (getConversation_ready w cs cid Hc).
  rewrite (getConversationWithMessages_ready w cs ms cid Hc Hm). simpl.
  split; [reflexivity|]. split; [reflexivity|]. split; [|split].
  - intros Hnone. rewrite (find_none_id cs cid Hnone). auto.
  - intros c Hnd Hin Hid. rewrite (find_unique_id cs cid c Hnd Hin Hid).
    reflexivity.
  - intros c Hin Hid.
    assert (Hhas : has_id cid cs = true).
    { apply has_id_In. rewrite <- Hid. apply in_map, Hin. }
    destruct (find_has_id cs cid Hhas) as (row & Hfind). rewrite Hfind.
    destruct (find_by_id cs cid row Hfind) as [Hrow Hrid].
    exists row, (ui_messages cid ms). repeat split; auto.
    + unfold ui_messages. apply StronglySorted_map. simpl.
      apply sorted_by_timestamp.
    + unfold ui_messages. apply Permutation_map, sort_by_perm.
    + intros u Hu. unfold ui_messages in Hu. apply in_map_iff in Hu.
      destruct Hu as (m & <- & Hin'). apply sort_by_In in Hin'.
      apply filter_In in Hin'. destruct Hin' as [Hin' E].
      apply Js.eqb_eq in E. exists m. simpl. repeat split; auto.
Qed.

Lemma reads_return_row_or_nothing_witness :
  after (ConversationService.getConversation (js "id-0")) demo_answered
  = demo_answered.
Proof.
  exact (proj1 (reads_return_row_or_nothing demo_answered _ _ (js "id-0")
                  demo_answered_conversations demo_answered_messages_eq)).
Defined.

(* ===================================================================== *)
(** ** Renaming *)
(* ===================================================================== *)

(** The title the listing computes for a conversation id from the messages
    table alone. *)
Definition derived_title (ms : list message) (id : jsstring) : jsstring :=
  ConversationService.generateTitle
    (Some (ConversationService.or_else (first_content (js "user") id ms)
             (js "Untitled"))).

Lemma listed_title_derived w ms limit offset f l s :
  messages (db w) = Some ms ->
  result (ConversationService.getAllConversations limit offset f) w
  = Returned l ->
  In s l -> s_title s = derived_title ms (s_id s).
Proof.
  intros Hm Hl Hs.
  destruct (getAllConversations_returned _ _ _ _ _ Hl)
    as (cs & ms' & Hc & Hm' & ->).
  assert (ms' = ms) by congruence. subst ms'.
  apply in_map_iff in Hs. destruct Hs as (c & <- & _). reflexivity.
Qed.

Lemma find_map_id (g : conversation -> conversation) cid cs :
  (forall c, c_id (g c) = c_id c) ->
  find (fun c => Js.eqb (c_id c) cid) (map g cs)
  = option_map g (find (fun c => Js.eqb (c_id c) cid) cs).
Proof.
  intros Hg. induction cs as [|c cs IH]; simpl; [reflexivity|].
  rewrite Hg. destruct (Js.eqb (c_id c) cid); [reflexivity|exact IH].
Qed.

(** C10.  After [updateConversation] with a [title] key, the raw row that
    [getConversation] and [getConversationWithMessages] return carries the
    stored title, which is the given one whenever the update returned,
    while every title in a listing is still the one derived from the
    messages table: it is the title the same conversation had in any
    listing taken before the rename. *)
Theorem stored_title_never_listed
    (coerce : affinity -> sqlval -> sqlval) (w : World)
    (cs : list conversation) (ms : list message) (cid : jsstring)
    (updates : object) :
  conversations (db w) = Some cs ->
  messages (db w) = Some ms ->
  includes (keys updates) (js "title") = true ->
  let w' := after (ConversationService.updateConversation coerce cid updates)
              w in
  (forall c, In c cs -> c_id c = cid ->
   exists row msgs,
     result (ConversationService.getConversation cid) w'
     = Returned (Some row) /\
     result (ConversationService.getConversationWithMessages cid) w'
     = Returned (Some (row, msgs)) /\
     (result (ConversationService.updateConversation coerce cid updates) w
      = Returned tt ->
      exists v,
        bind_value (get_property updates (js "title")) = Some v /\
        title row = coerce AffText v)) /\
  (forall limit offset f l s,
     result (ConversationService.getAllConversations limit offset f) w'
     = Returned l ->
     In s l -> s_title s = derived_title ms (s_id s)) /\
  (forall limit offset f l s limit' offset' f' l' s',
     result (ConversationService.getAllConversations limit offset f) w
     = Returned l ->
     result (ConversationService.getAllConversations limit' offset' f') w'
     = Returned l' ->
     In s l -> In s' l' -> s_id s' = s_id s -> s_title s' = s_title s).
Proof.
  intros Hc Hm Htitle w'.
  assert (Hrec : recognized updates <> []).
  { intros Hnil. apply recognized_nil in Hnil. unfold any_recognized in Hnil.
    rewrite Htitle in Hnil. discriminate. }
  assert (Hin : In (js "title") (recognized updates)).
  { unfold recognized. apply filter_In. split; [|reflexivity].
    unfold includes in Htitle. apply existsb_exists in Htitle.
    destruct Htitle as (k & Hk & E). apply Js.eqb_eq in E. subst k. exact Hk. }
  set (g := fun c => if bindable updates
                     then if Js.eqb (c_id c) cid
                          then updated_row coerce (recognized updates) updates
                                 (clock w (ticks w)) c
                          else c
                     else c).
  assert (Hg : forall c, c_id (g c) = c_id c).
  { intros c. unfold g. destruct (bindable updates); [|reflexivity].
    destruct (Js.eqb (c_id c) cid); reflexivity. }
  assert (Hw' : conversations (db w') = Some (map g cs) /\
                messages (db w') = Some ms /\
                (result (ConversationService.updateConversation coerce cid
                           updates) w = Returned tt ->
                 bindable updates = true)).
  { subst w'. unfold after, result.
    rewrite (updateConversation_ready coerce w cs cid updates Hc).
    unfold g. destruct (recognized updates) as [|k ks] eqn:Hr; [congruence|].
    destruct (bindable updates);
      cbn [fst snd db moved conversations messages set_conversations].
    - split; [reflexivity|]. split; [exact Hm|reflexivity].
    - rewrite map_id. split; [exact Hc|]. split; [exact Hm|discriminate]. }
  destruct Hw' as (Hc' & Hm' & Hret).
  split; [|split].
  - intros c Hcin Hid.
    assert (Hhas : has_id cid cs = true).
    { apply has_id_In. rewrite <- Hid. apply in_map, Hcin. }
    destruct (find_has_id cs cid Hhas) as (c0 & Hfind).
    destruct (find_by_id cs cid c0 Hfind) as [_ Hid0].
    exists (g c0), (ui_messages cid ms). unfold result at 1 2.
    rewrite (getConversation_ready w' _ cid Hc').
    rewrite (getConversationWithMessages_ready w' _ ms cid Hc' Hm').
    rewrite (find_map_id g cid cs Hg), Hfind. simpl.
    split; [reflexivity|]. split; [reflexivity|].
    intros Hreturned. specialize (Hret Hreturned).
    assert (Hv : exists v,
              bind_value (get_property updates (js "title")) = Some v).
    { unfold bindable in Hret. rewrite forallb_forall in Hret.
      specialize (Hret _ Hin).
      destruct (bind_value (get_property updates (js "title"))) as [v|];
        [eauto|discriminate]. }
    destruct Hv as (v & Hv). exists v. split; [exact Hv|].
    unfold g. rewrite Hret, Hid0, Js.eqb_refl. unfold updated_row. simpl.
    rewrite (includes_recognized updates) by reflexivity.
    rewrite Htitle. unfold bound. rewrite Hv. reflexivity.
  - intros limit offset f l s Hl Hs.
    apply (listed_title_derived w' ms limit offset f l s Hm' Hl Hs).
  - intros limit offset f l s limit' offset' f' l' s' Hl Hl' Hs Hs' Hid.
    rewrite (listed_title_derived w' ms _ _ _ _ s' Hm' Hl' Hs').
    rewrite (listed_title_derived w ms _ _ _ _ s Hm Hl Hs).
    rewrite Hid. reflexivity.
Qed.

(** Renaming the conversation of [demo_saved]. *)
Definition demo_rename : object := [(js "title", JStr (js "Renamed"))].

Lemma demo_rename_run :
  result (ConversationService.updateConversation demo_coerce (js "id-0")
            demo_rename) demo_saved = Returned tt.
Proof. vm_compute. reflexivity. Qed.

Lemma stored_title_never_listed_witness :
  exists row msgs,
    result (ConversationService.getConversation (js "id-0"))
      (after (ConversationService.updateConversation demo_coerce (js "id-0")
                demo_rename) demo_saved) = Returned (Some row) /\
    result (ConversationService.getConversationWithMessages (js "id-0"))
      (after (ConversationService.updateConversation demo_coerce (js "id-0")
                demo_rename) demo_saved) = Returned (Some (row, msgs)) /\
    exists v,
      bind_value (get_property demo_rename (js "title")) = Some v /\
      title row = demo_coerce AffText v.
Proof.
  destruct (proj1 (stored_title_never_listed demo_coerce demo_saved _ _
                     (js "id-0") demo_rename demo_saved_conversations
                     demo_saved_messages_eq eq_refl)
              _ (or_introl eq_refl) eq_refl) as (row & msgs & H1 & H2 & H3).
  exists row, msgs. split; [exact H1|]. split; [exact H2|].
  exact (H3 demo_rename_run).
Defined.

(* ===================================================================== *)
(** ** What saveMessage rejects *)
(* ===================================================================== *)

(** C4 (as amended).  [saveMessage] does not compare [role] with ["user"]
    and ["assistant"].  On an initialized store with foreign keys on, a call
    is rejected exactly when its INSERT fails: [role] or [content] is null,
    no conversation has the given id, or the new message id is taken.  A
    rejected call leaves the database as it was.  Any other call, whatever
    string its role is, returns the new id and timestamp, appends one
    message row that carries that role, and in the parent row adds one to
    [message_count] and sets [updated_at], leaving every other row alone. *)
Theorem saveMessage_rejects_only_failed_insert
    (w : World) (cs : list conversation) (ms : list message)
    (cid : jsstring) (r c : option jsstring) (e : bool) :
  conversations (db w) = Some cs ->
  messages (db w) = Some ms ->
  foreign_keys (db w) = true ->
  let w' := after (ConversationService.saveMessage cid r c e) w in
  (r = None \/ c = None \/ has_id cid cs = false \/
   has_message_id (uuids w (draws w)) ms = true ->
   (exists x,
      result (ConversationService.saveMessage cid r c e) w = Threw x) /\
   db w' = db w) /\
  (forall r0 c0,
     r = Some r0 -> c = Some c0 -> has_id cid cs = true ->
     has_message_id (uuids w (draws w)) ms = false ->
     result (ConversationService.saveMessage cid r c e) w
     = Returned (mkSaved (uuids w (draws w)) (clock w (ticks w))) /\
     messages (db w')
     = Some (ms ++ [mkMessage (uuids w (draws w)) cid r0 c0
                      (clock w (ticks w)) (if e then 1 else 0)]) /\
     exists cs',
       conversations (db w') = Some cs' /\
       Forall2
         (fun c c' =>
            (c_id c <> cid -> c' = c) /\
            (c_id c = cid ->
             c' = set_message_count (message_count c + 1)
                    (set_updated_at (clock w (S (ticks w))) c)))
         cs cs').
Proof.
  intros Hc Hm Hfk w'. subst w'. unfold result, after. split.
  - intros Hrej.
    destruct r as [r0|]; [destruct c as [c0|]|].
    + rewrite (saveMessage_ready w cs ms cid r0 c0 e Hc Hm). rewrite Hfk.
      simpl andb.
      destruct (has_message_id _ ms) eqn:Hmid; [simpl; eauto|].
      destruct (has_id cid cs) eqn:Hid; simpl; [|eauto].
      destruct Hrej as [H|[H|[H|H]]]; discriminate.
    + destruct (saveMessage_null w ms cid (Some r0) None e Hm) as (x & ->);
        [right; reflexivity|]. simpl. eauto.
    + destruct (saveMessage_null w ms cid None c e Hm) as (x & ->);
        [left; reflexivity|]. simpl. eauto.
  - intros r0 c0 -> -> Hid Hmid.
    rewrite (saveMessage_ready w cs ms cid r0 c0 e Hc Hm).
    rewrite Hmid, Hfk, Hid. simpl.
    split; [reflexivity|]. split; [reflexivity|].
    eexists. split; [reflexivity|]. apply Forall2_map_right.
    intros x _. unfold touched. destruct (Js.eqb (c_id x) cid) eqn:E.
    + split; [|reflexivity]. apply Js.eqb_eq in E. congruence.
    + apply Js.eqb_neq in E. split; [reflexivity|]. intros; congruence.
Qed.

Lemma demo_silent_conversations :
  conversations (db demo_silent)
  = Some [mkConversation (js "id-0") None None SNull 1700000000002
            1700000000002 0 (SInt 0) (SInt 0)].
Proof. vm_compute. reflexivity. Qed.

Lemma demo_silent_messages : messages (db demo_silent) = Some [].
Proof. vm_compute. reflexivity. Qed.

Lemma saveMessage_rejects_only_failed_insert_witness :
  result (ConversationService.saveMessage (js "id-0") (Some (js "system"))
            (Some (js "x")) false) demo_silent
  = Returned (mkSaved (uuids demo_silent (draws demo_silent))
                (clock demo_silent (ticks demo_silent))).
Proof.
  exact (proj1 (proj2
    (saveMessage_rejects_only_failed_insert demo_silent _ _ (js "id-0")
       (Some (js "system")) (Some (js "x")) false
       demo_silent_conversations demo_silent_messages eq_refl)
    (js "system") (js "x") eq_refl eq_refl eq_refl eq_refl)).
Defined.

(** C4, the claim as stated fails: with the role ["system"] the call
    returns, a message row with that role is inserted, and the parent's
    [message_count] goes from 0 to 1 and its [updated_at] moves. *)
Lemma saveMessage_role_counterexample :
  js "system" <> js "user" /\
  js "system" <> js "assistant" /\
  result (ConversationService.saveMessage (js "id-0") (Some (js "system"))
            (Some (js "x")) false) demo_silent
  = Returned (mkSaved (js "id-1") 1700000000003) /\
  messages (db demo_silent) = Some [] /\
  messages
    (db (after (ConversationService.saveMessage (js "id-0")
                  (Some (js "system")) (Some (js "x")) false) demo_silent))
  = Some [mkMessage (js "id-1") (js "id-0") (js "system") (js "x")
            1700000000003 0] /\
  option_map (map (fun c => (message_count c, updated_at c)))
    (conversations (db demo_silent)) = Some [(0, 1700000000002)] /\
  option_map (map (fun c => (message_count c, updated_at c)))
    (conversations
       (db (after (ConversationService.saveMessage (js "id-0")
                     (Some (js "system")) (Some (js "x")) false)
              demo_silent)))
  = Some [(1, 1700000000004)].
Proof.
  split; [discriminate|]. split; [discriminate|].
  repeat split; vm_compute; reflexivity.
Qed.

(* ===================================================================== *)
(** ** saveCompleteConversation *)
(* ===================================================================== *)

(** [item.error || false] *)
Definition item_flag (it : item) : bool :=
  match item_error it with
  | Some b => b
  | None => false
  end.

(** The rows the loop of [saveCompleteConversation] appends, when the next
    identifier has index [d] and the next clock reading index [t]: each
    [saveMessage] draws one identifier and reads the clock twice. *)
Fixpoint appended (uu : nat -> jsstring) (ck : nat -> Z) (cid : jsstring)
    (items : list item) (d t : nat) : list message :=
  match items with
  | [] => []
  | it :: rest =>
      mkMessage (uu d) cid (js "user") (prompt it) (ck t) 0
      :: mkMessage (uu (S d)) cid (js "assistant") (answer it) (ck (S (S t)))
           (if item_flag it then 1 else 0)
      :: appended uu ck cid rest (S (S d)) (S (S (S (S t))))
  end.

(** What the messages of a conversation saved in one piece read back as. *)
Definition expected_turns (items : list item)
    : list (jsstring * jsstring * bool) :=
  flat_map (fun it => [(js "user", prompt it, false);
                       (js "assistant", answer it, item_flag it)]) items.

Definition turn_of (u : ui_message) : jsstring * jsstring * bool :=
  (ui_role u, ui_content u, ui_error u).

(** [randomUUID] never repeats and never returns an id that a message
    already has. *)
Definition fresh_message_ids (w : World) (ms : list message) : Prop :=
  (forall i j, (draws w <= i)%nat -> (draws w <= j)%nat ->
     uuids w i = uuids w j -> i = j) /\
  (forall i, (draws w <= i)%nat -> has_message_id (uuids w i) ms = false).

(** The clock does not run backwards. *)
Definition clock_monotone (w : World) : Prop :=
  forall i j, (ticks w <= i)%nat -> (i <= j)%nat -> clock w i <= clock w j.

Lemma has_message_id_app id ms ms' :
  has_message_id id (ms ++ ms')
  = has_message_id id ms || has_message_id id ms'.
Proof. unfold has_message_id. apply existsb_app. Qed.

(** The body of the loop. *)
Definition save_item (cid : jsstring) (it : item) : M unit :=
  ConversationService.saveMessage cid (Some (js "user")) (Some (prompt it))
    false ;;;
  ConversationService.saveMessage cid (Some (js "assistant"))
    (Some (answer it)) (item_flag it) ;;;
  ret tt.

Lemma save_items_run cid items :
  forall w cs ms,
    conversations (db w) = Some cs -> messages (db w) = Some ms ->
    foreign_keys (db w) = true -> has_id cid cs = true ->
    fresh_message_ids w ms ->
    exists w' cs',
      for_each (save_item cid) items w = (Returned tt, w') /\
      conversations (db w') = Some cs' /\
      map c_id cs' = map c_id cs /\
      messages (db w')
      = Some (ms ++ appended (uuids w) (clock w) cid items (draws w)
                      (ticks w)) /\
      foreign_keys (db w') = true /\
      metadata (db w') = metadata (db w).
Proof.
  induction items as [|it rest IH]; intros w cs ms Hc Hm Hfk Hid [Hinj Hnew].
  - exists w, cs. cbn [for_each appended]. rewrite app_nil_r.
    repeat split; auto.
  - set (m1 := mkMessage (uuids w (draws w)) cid (js "user") (prompt it)
                 (clock w (ticks w)) 0).
    set (m2 := mkMessage (uuids w (S (draws w))) cid (js "assistant")
                 (answer it) (clock w (S (S (ticks w))))
                 (if item_flag it then 1 else 0)).
    set (cs1 := map (touched cid (clock w (S (ticks w)))) cs).
    set (w1 := moved 2 1
                 (mkDb (foreign_keys (db w)) (Some cs1) (Some (ms ++ [m1]))
                    (metadata (db w))) w).
    assert (H1 : ConversationService.saveMessage cid (Some (js "user"))
                   (Some (prompt it)) false w
                 = (Returned (mkSaved (uuids w (draws w)) (clock w (ticks w))),
                    w1)).
    { rewrite (saveMessage_ready w cs ms cid _ _ false Hc Hm).
      rewrite (Hnew (draws w)) by lia. rewrite Hid. simpl negb.
      rewrite andb_false_r. reflexivity. }
    assert (Hid1 : has_id cid cs1 = true).
    { unfold cs1. rewrite has_id_map by apply touched_id. exact Hid. }
    set (cs2 := map (touched cid (clock w1 (S (ticks w1)))) cs1).
    set (w2 := moved 2 1
                 (mkDb (foreign_keys (db w1)) (Some cs2)
                    (Some ((ms ++ [m1]) ++ [m2])) (metadata (db w1))) w1).
    assert (Hd : has_message_id (uuids w (S (draws w))) (ms ++ [m1]) = false).
    { rewrite has_message_id_app, (Hnew (S (draws w))) by lia. simpl.
      rewrite orb_false_r. apply Js.eqb_neq. intros E.
      apply Hinj in E; lia. }
    assert (H2 : ConversationService.saveMessage cid (Some (js "assistant"))
                   (Some (answer it)) (item_flag it) w1
                 = (Returned (mkSaved (uuids w (S (draws w)))
                                (clock w (S (S (ticks w))))), w2)).
    { rewrite (saveMessage_ready w1 cs1 (ms ++ [m1]) cid _ _ (item_flag it)
                 eq_refl eq_refl).
      cbn [uuids draws w1 moved Nat.add]. rewrite Hd.
      rewrite Hid1. simpl negb. rewrite andb_false_r. reflexivity. }
    destruct (IH w2 cs2 ((ms ++ [m1]) ++ [m2])) as (w' & cs' & Hrun & Hc' & Hids & Hm' & Hfk' & Hmd').
    + reflexivity.
    + reflexivity.
    + exact Hfk.
    + unfold cs2. rewrite has_id_map by apply touched_id. exact Hid1.
    + split.
      * intros i j Hi Hj. cbn [uuids draws w2 w1 moved Nat.add] in *.
        apply Hinj; lia.
      * intros i Hi. cbn [uuids draws w2 w1 moved Nat.add] in *.
        rewrite !has_message_id_app, (Hnew i) by lia. simpl.
        rewrite !orb_false_r. apply orb_false_iff. split.
        -- apply Js.eqb_neq. intros E. apply Hinj in E; lia.
        -- apply Js.eqb_neq. intros E. apply Hinj in E; lia.
    + exists w', cs'. split.
      * cbn [for_each]. unfold save_item at 1. unfold bind at 1 2.
        rewrite H1. unfold bind at 1. rewrite H2. unfold ret at 1.
        exact Hrun.
      * split; [exact Hc'|]. split.
        -- rewrite Hids. unfold cs2, cs1.
           rewrite !map_c_id_map by apply touched_id. reflexivity.
        -- split; [|split; [exact Hfk'|exact Hmd']].
           rewrite Hm'. cbn [appended]. rewrite <- !app_assoc. reflexivity.
Qed.

Lemma filter_no_children cid cs ms :
  (forall m, In m ms -> has_id (conversation_id m) cs = true) ->
  has_id cid cs = false ->
  filter (fun m => Js.eqb (conversation_id m) cid) ms = [].
Proof.
  intros Hpar Hno. induction ms as [|m ms IH]; simpl; [reflexivity|].
  destruct (Js.eqb (conversation_id m) cid) eqn:E.
  - apply Js.eqb_eq in E. rewrite <- E in Hno.
    rewrite Hpar in Hno by (left; reflexivity). discriminate.
  - apply IH. intros m' Hm'. apply Hpar. right. exact Hm'.
Qed.

Lemma filter_appended uu ck cid items d t :
  filter (fun m => Js.eqb (conversation_id m) cid)
    (appended uu ck cid items d t)
  = appended uu ck cid items d t.
Proof.
  revert d t. induction items as [|it rest IH]; intros d t; simpl.
  - reflexivity.
  - rewrite Js.eqb_refl, IH. reflexivity.
Qed.

Lemma appended_timestamps uu ck cid items d t m :
  In m (appended uu ck cid items d t) ->
  exists i, (t <= i)%nat /\ timestamp m = ck i.
Proof.
  revert d t. induction items as [|it rest IH]; intros d t; simpl.
  - intros [].
  - intros [<-|[<-|Hin]].
    + exists t. split; [lia|reflexivity].
    + exists (S (S t)). split; [lia|reflexivity].
    + destruct (IH _ _ Hin) as (i & Hi & E). exists i. split; [lia|exact E].
Qed.

Lemma appended_sorted uu ck cid items d t :
  (forall i j, (t <= i)%nat -> (i <= j)%nat -> ck i <= ck j) ->
  StronglySorted (fun a b => by_timestamp a b = true)
    (appended uu ck cid items d t).
Proof.
  revert d t. induction items as [|it rest IH]; intros d t Hmono; simpl.
  - constructor.
  - assert (Hrest : StronglySorted (fun a b => by_timestamp a b = true)
                      (appended uu ck cid rest (S (S d))
                         (S (S (S (S t)))))).
    { apply IH. intros i j Hi Hj. apply Hmono; lia. }
    constructor; [constructor; [exact Hrest|]|].
    + apply Forall_forall. intros m Hin.
      destruct (appended_timestamps _ _ _ _ _ _ _ Hin) as (i & Hi & E).
      unfold by_timestamp. simpl. rewrite E. apply Z.leb_le.
      apply Hmono; lia.
    + constructor.
      * unfold by_timestamp. simpl. apply Z.leb_le. apply Hmono; lia.
      * apply Forall_forall. intros m Hin.
        destruct (appended_timestamps _ _ _ _ _ _ _ Hin) as (i & Hi & E).
        unfold by_timestamp. simpl. rewrite E. apply Z.leb_le.
        apply Hmono; lia.
Qed.

Lemma appended_turns uu ck cid items d t :
  map turn_of (map ConversationService.to_ui (appended uu ck cid items d t))
  = expected_turns items.
Proof.
  revert d t. induction items as [|it rest IH]; intros d t; simpl.
  - reflexivity.
  - rewrite IH. unfold turn_of at 1 2. simpl.
    destruct (item_flag it); reflexivity.
Qed.

Lemma expected_turns_length items :
  length (expected_turns items) = (2 * length items)%nat.
Proof.
  unfold expected_turns. induction items as [|it rest IH]; simpl; [reflexivity|].
  rewrite IH. lia.
Qed.

(** [randomUUID] never repeats and never returns an id already in the
    database. *)
Definition fresh_ids (w : World) : Prop :=
  (forall i j, (draws w <= i)%nat -> (draws w <= j)%nat ->
     uuids w i = uuids w j -> i = j) /\
  (forall i cs, (draws w <= i)%nat -> conversations (db w) = Some cs ->
     has_id (uuids w i) cs = false) /\
  (forall i ms, (draws w <= i)%nat -> messages (db w) = Some ms ->
     has_message_id (uuids w i) ms = false).

(** C9 (as amended).  From a store that satisfies the invariant, with fresh
    identifiers and a clock that does not run backwards, [saveCompleteConversation]
    returns the id and creation time of one new conversation: the ids in
    [conversations] are the old ones followed by the new one, and the
    [messages] table gains, in this order, a user row with the prompt and an
    assistant row with the answer for every item.  Read back, the
    conversation has [message_count = 2N] and its [2N] messages are, in
    order, user/assistant for each item of the list. *)
Theorem saveCompleteConversation_alternates
    (sha256_hex : jsstring -> jsstring) (w : World)
    (shot : option jsstring) (items : list item) :
  store_ok (db w) ->
  fresh_ids w ->
  clock_monotone w ->
  let w' := after (ConversationService.saveCompleteConversation sha256_hex
                     shot items) w in
  let id := uuids w (draws w) in
  result (ConversationService.saveCompleteConversation sha256_hex shot items)
    w = Returned (mkCreated id (clock w (ticks w))) /\
  (exists cs cs',
     conversations (db w) = Some cs /\ conversations (db w') = Some cs' /\
     map c_id cs' = map c_id cs ++ [id]) /\
  (exists ms,
     messages (db w) = Some ms /\
     messages (db w')
     = Some (ms ++ appended (uuids w) (clock w) id items (S (draws w))
                     (S (ticks w)))) /\
  (exists c msgs,
     result (ConversationService.getConversationWithMessages id) w'
     = Returned (Some (c, msgs)) /\
     c_id c = id /\
     message_count c = 2 * Z.of_nat (length items) /\
     map turn_of msgs = expected_turns items /\
     length msgs = (2 * length items)%nat).
Proof.
  intros Hok (Hinj & Hnewc & Hnewm) Hmono w' id.
  pose proof (saveCompleteConversation_store_ok sha256_hex w shot items Hok)
    as Hok'. fold w' in Hok'.
  destruct Hok as (Hfk & cs & ms & Hc & Hm & Hnd & Hpar & Hcnt).
  assert (Hid : has_id id cs = false) by (apply Hnewc; [unfold id; lia|exact Hc]).
  set (row := new_conversation sha256_hex id
                (ConversationService.or_null shot) (clock w (ticks w))).
  set (w1 := moved 1 1 (set_conversations (Some (cs ++ [row])) (db w)) w).
  assert (H1 : ConversationService.createConversation sha256_hex
                 (ConversationService.or_null shot) w
               = (Returned (mkCreated id (clock w (ticks w))), w1)).
  { rewrite (createConversation_ready sha256_hex w cs _ Hc).
    fold id. rewrite Hid. reflexivity. }
  destruct (save_items_run id items w1 (cs ++ [row]) ms)
    as (w2 & cs2 & Hrun & Hc2 & Hids & Hm2 & Hfk2 & _).
  { reflexivity. }
  { exact Hm. }
  { exact Hfk. }
  { apply has_id_In. rewrite map_app. apply in_or_app. right. left.
    reflexivity. }
  { split.
    - intros i j Hi Hj. cbn [uuids draws w1 moved Nat.add] in *.
      apply Hinj; lia.
    - intros i Hi. cbn [uuids draws w1 moved Nat.add] in *.
      apply Hnewm; [lia|exact Hm]. }
  assert (Hwhole :
    ConversationService.saveCompleteConversation sha256_hex shot items w
    = (Returned (mkCreated id (clock w (ticks w))), w2)).
  { unfold ConversationService.saveCompleteConversation.
    unfold bind at 1. rewrite H1. unfold bind at 1. cbn [new_id].
    change (for_each _ items) with (for_each (save_item id) items).
    rewrite Hrun. reflexivity. }
  assert (Hw' : w' = w2) by (unfold w', after; rewrite Hwhole; reflexivity).
  rewrite Hw' in *. clear Hw'.
  cbn [uuids clock draws ticks w1 moved Nat.add] in Hm2.
  split; [unfold result; rewrite Hwhole; reflexivity|].
  split; [|split].
  - exists cs, cs2. split; [exact Hc|]. split; [exact Hc2|].
    rewrite Hids, map_app. reflexivity.
  - exists ms. split; [exact Hm|exact Hm2].
  - assert (Hhas : has_id id cs2 = true).
    { apply has_id_In. rewrite Hids, map_app. apply in_or_app. right. left.
      reflexivity. }
    destruct (find_has_id cs2 id Hhas) as (c & Hfind).
    destruct (find_by_id cs2 id c Hfind) as [_ Hcid].
    destruct (store_ok_count w2 id c Hok') as (ms' & Hms' & Hwith & Hcount).
    { unfold result. rewrite (getConversation_ready w2 cs2 id Hc2).
      simpl. congruence. }
    assert (ms' = ms ++ appended (uuids w) (clock w) id items (S (draws w))
                         (S (ticks w))) by congruence.
    subst ms'.
    assert (Hui : ui_messages id
                    (ms ++ appended (uuids w) (clock w) id items (S (draws w))
                            (S (ticks w)))
                  = map ConversationService.to_ui
                      (appended (uuids w) (clock w) id items (S (draws w))
                         (S (ticks w)))).
    { unfold ui_messages. rewrite filter_app.
      rewrite (filter_no_children id cs ms Hpar Hid). simpl app.
      rewrite filter_appended. rewrite sort_by_id; [reflexivity|].
      apply appended_sorted. intros i j Hi Hj. apply Hmono; lia. }
    exists c, (ui_messages id
                 (ms ++ appended (uuids w) (clock w) id items (S (draws w))
                         (S (ticks w)))).
    split; [exact Hwith|]. split; [exact Hcid|].
    assert (Hlen : length (ui_messages id
                     (ms ++ appended (uuids w) (clock w) id items
                             (S (draws w)) (S (ticks w))))
                   = (2 * length items)%nat).
    { rewrite Hui. rewrite <- (length_map turn_of), appended_turns.
      apply expected_turns_length. }
    split; [|split].
    + rewrite Hcount, <- ui_messages_length, Hlen. lia.
    + rewrite Hui. apply appended_turns.
    + exact Hlen.
Qed.

Lemma toString_injective a b : Js.toString a = Js.toString b -> a = b.
Proof.
  intros H. apply (f_equal Js.parseInt) in H.
  rewrite !Js.parseInt_toString in H. congruence.
Qed.

Lemma demo_uuid_injective i j : demo_uuid i = demo_uuid j -> i = j.
Proof.
  unfold demo_uuid. intros H. apply app_inv_head in H.
  apply toString_injective in H. lia.
Qed.

Lemma demo_ready_tables :
  conversations (db demo_ready) = Some [] /\
  messages (db demo_ready) = Some [] /\
  uuids demo_ready = demo_uuid /\ clock demo_ready = demo_clock.
Proof. repeat split; reflexivity. Qed.

Lemma demo_ready_fresh_ids : fresh_ids demo_ready.
Proof.
  destruct demo_ready_tables as (Hc & Hm & Hu & _).
  unfold fresh_ids. rewrite Hu, Hc, Hm. repeat split.
  - intros i j _ _. apply demo_uuid_injective.
  - intros i cs _ E. inversion E. reflexivity.
  - intros i ms _ E. inversion E. reflexivity.
Qed.

Lemma demo_ready_clock_monotone : clock_monotone demo_ready.
Proof.
  destruct demo_ready_tables as (_ & _ & _ & Hk).
  unfold clock_monotone. rewrite Hk. unfold demo_clock. intros. lia.
Qed.

Lemma saveCompleteConversation_alternates_witness :
  exists c msgs,
    result (ConversationService.getConversationWithMessages (js "id-0"))
      demo_saved = Returned (Some (c, msgs)) /\
    c_id c = js "id-0" /\
    message_count c = 4 /\
    map turn_of msgs
    = [(js "user", js "p1", false); (js "assistant", js "a1", false);
       (js "user", js "p2", false); (js "assistant", js "a2", false)] /\
    length msgs = 4%nat.
Proof.
  exact (proj2 (proj2 (proj2
    (saveCompleteConversation_alternates demo_sha256 demo_ready None
       demo_items
       (reachable_store_ok demo_sha256 demo_coerce demo_ready
          demo_ready_reachable)
       demo_ready_fresh_ids demo_ready_clock_monotone)))).
Defined.

(** A clock that is set back between any two readings. *)
Definition backwards_clock (n : nat) : Z := 1700000000100 - Z.of_nat n.

(** An initialized, empty store under that clock. *)
Definition demo_backwards : World :=
  after (DatabaseService.initialize repo_migrations)
    (mkWorld fresh_db backwards_clock 0 demo_uuid 0 []).

Lemma demo_backwards_tables :
  conversations (db demo_backwards) = Some [] /\
  messages (db demo_backwards) = Some [] /\
  uuids demo_backwards = demo_uuid.
Proof. repeat split; reflexivity. Qed.

Lemma demo_backwards_store_ok : store_ok (db demo_backwards).
Proof.
  apply (reachable_store_ok demo_sha256 demo_coerce). unfold demo_backwards.
  apply reach_initialize. reflexivity.
Qed.

Lemma demo_backwards_fresh_ids : fresh_ids demo_backwards.
Proof.
  destruct demo_backwards_tables as (Hc & Hm & Hu).
  unfold fresh_ids. rewrite Hu, Hc, Hm. repeat split.
  - intros i j _ _. apply demo_uuid_injective.
  - intros i cs _ E. inversion E. reflexivity.
  - intros i ms _ E. inversion E. reflexivity.
Qed.

(** An id source that repeats itself: the second message collides with the
    first. *)
Definition demo_repeating : World :=
  mkWorld (db demo_ready) demo_clock (ticks demo_ready)
    (fun _ => js "same") 0 (migration_log demo_ready).

(** C9, the claim as stated fails when the clock is set back while the items
    are saved: on an initialized store with fresh identifiers, the two items
    give one conversation with four messages, but every message takes its
    own reading of the clock and the messages are read in the order of
    their timestamps, so they come back last first.  It also fails when
    [randomUUID] repeats an identifier: the second insert is refused and the
    conversation is left with one message. *)
Lemma saveCompleteConversation_backwards_clock_counterexample :
  store_ok (db demo_backwards) /\
  fresh_ids demo_backwards /\
  match result (ConversationService.getConversationWithMessages (js "same"))
          (after (ConversationService.saveCompleteConversation demo_sha256
                    None demo_items) demo_repeating) with
  | Returned (Some (c, msgs)) => (message_count c, map turn_of msgs)
  | _ => (0, [])
  end
  = (1, [(js "user", js "p1", false)]) /\
  match result (ConversationService.getConversationWithMessages (js "id-0"))
          (after (ConversationService.saveCompleteConversation demo_sha256
                    None demo_items) demo_backwards) with
  | Returned (Some (c, msgs)) => (message_count c, map turn_of msgs)
  | _ => (0, [])
  end
  = (4, [(js "assistant", js "a2", false); (js "user", js "p2", false);
         (js "assistant", js "a1", false); (js "user", js "p1", false)]).
Proof.
  split; [exact demo_backwards_store_ok|].
  split; [exact demo_backwards_fresh_ids|].
  split; vm_compute; reflexivity.
Qed.

(* ===================================================================== *)
(** ** The migrator *)
(* ===================================================================== *)

Definition schema_version_key : jsstring := js "schema_version".

(** The version [getCurrentVersion] reads off a database. *)
Definition stored_version (d : Db) : option Z :=
  match metadata d with
  | None => Some 0
  | Some rows =>
      match find (fun r => Js.eqb (key r) schema_version_key) rows with
      | Some r => Js.parseInt (value r)
      | None => Some 0
      end
  end.

(** [getCurrentVersion] never throws and changes nothing. *)
Lemma getCurrentVersion_run w :
  DatabaseService.getCurrentVersion w = (Returned (stored_version (db w)), w).
Proof.
  unfold DatabaseService.getCurrentVersion, select_metadata_value,
    stored_version. fold schema_version_key. run_monad.
  destruct (metadata (db w)) as [rows|] eqn:Hmd; simpl.
  - rewrite Hmd. simpl.
    destruct (find _ rows); reflexivity.
  - reflexivity.
Qed.

Lemma find_replaced (k : jsstring) rows row :
  key row = k ->
  find (fun r => Js.eqb (key r) k)
    (filter (fun r => negb (Js.eqb (key r) k)) rows ++ [row]) = Some row.
Proof.
  intros Hk. induction rows as [|r rows IH]; simpl.
  - rewrite Hk, Js.eqb_refl. reflexivity.
  - destruct (Js.eqb (key r) k) eqn:E; simpl; [exact IH|].
    rewrite E. exact IH.
Qed.

(** [setVersion] returns exactly when the metadata table exists, and then
    the version it wrote is the one read back. *)
Lemma setVersion_returned v w w' :
  DatabaseService.setVersion v w = (Returned tt, w') ->
  stored_version (db w') = Some v /\ migration_log w' = migration_log w.
Proof.
  unfold DatabaseService.setVersion, insert_or_replace_metadata, date_now.
  fold schema_version_key. run_monad.
  destruct (metadata (db w)) as [rows|] eqn:Hmd; simpl; [|discriminate].
  rewrite Hmd. simpl. intros H. inversion H; subst w'. clear H.
  unfold stored_version. simpl. split; [|reflexivity].
  rewrite find_replaced by reflexivity. simpl.
  apply Js.parseInt_toString.
Qed.

(** A step that returned logged its version, ran [up] and wrote the
    version. *)
Lemma apply_migration_returned m w w' :
  DatabaseService.apply_migration m w = (Returned tt, w') ->
  exists wu,
    up m (after (log_migration (version m)) w) = (Returned tt, wu) /\
    DatabaseService.setVersion (version m) wu = (Returned tt, w') /\
    stored_version (db w') = Some (version m).
Proof.
  unfold DatabaseService.apply_migration. unfold bind at 1 2.
  unfold after. simpl.
  destruct (up m _) as [[[]|e] wu] eqn:Hup; [|discriminate].
  intros Hset. exists wu. split; [reflexivity|]. split; [exact Hset|].
  apply (setVersion_returned _ _ _ Hset).
Qed.

Lemma for_each_app_returned {A} (f : A -> M unit) pre post w w' :
  for_each f (pre ++ post) w = (Returned tt, w') ->
  exists w1,
    for_each f pre w = (Returned tt, w1) /\
    for_each f post w1 = (Returned tt, w').
Proof.
  revert w. induction pre as [|x pre IH]; intros w; simpl.
  - intros H. exists w. split; [reflexivity|exact H].
  - unfold bind.
    destruct (f x w) as [[[]|e] w0]; [|discriminate].
    apply IH.
Qed.

Lemma for_each_cons_returned {A} (f : A -> M unit) x post w w' :
  for_each f (x :: post) w = (Returned tt, w') ->
  exists w1, f x w = (Returned tt, w1) /\ for_each f post w1 = (Returned tt, w').
Proof.
  simpl. unfold bind at 1.
  destruct (f x w) as [[[]|e] w0]; [|discriminate].
  intros H. exists w0. auto.
Qed.

(** The steps [runMigrations] runs from the version [c]. *)
Definition pending (c : Z) (loaded : list migration) : list migration :=
  sort_by DatabaseService.by_version
    (filter (fun m => c <? version m) loaded).

Lemma runMigrations_run loaded w :
  DatabaseService.runMigrations loaded w
  = match stored_version (db w) with
    | Some c => for_each DatabaseService.apply_migration (pending c loaded) w
    | None => (Returned tt, w)
    end.
Proof.
  unfold DatabaseService.runMigrations. unfold bind at 1.
  rewrite getCurrentVersion_run.
  destruct (stored_version (db w)) as [c|]; [reflexivity|].
  simpl. replace (filter _ loaded) with (@nil migration); [reflexivity|].
  induction loaded; simpl; auto.
Qed.

Lemma by_version_total a b :
  DatabaseService.by_version a b = false ->
  DatabaseService.by_version b a = true.
Proof. unfold DatabaseService.by_version. lia. Qed.

Lemma pending_sorted c loaded :
  StronglySorted (fun a b => version a <= version b) (pending c loaded).
Proof.
  apply Sorted_StronglySorted.
  - intros x y z Hxy Hyz. cbv beta in *. lia.
  - apply Sorted_weaken
      with (R := fun a b => DatabaseService.by_version a b = true).
    + intros a b H. unfold DatabaseService.by_version in H. lia.
    + apply sort_by_sorted. exact by_version_total.
Qed.

Lemma pending_In c loaded m :
  In m (pending c loaded) <-> In m loaded /\ c < version m.
Proof.
  unfold pending. rewrite sort_by_In, filter_In, Z.ltb_lt. reflexivity.
Qed.

Lemma sorted_last_max {A} (R : A -> A -> Prop) pre x :
  StronglySorted R (pre ++ [x]) -> forall y, In y pre -> R y x.
Proof.
  induction pre as [|a pre IH]; simpl; intros Hs y Hy; [destruct Hy|].
  inversion Hs as [|? ? Hs' Hall]; subst.
  destruct Hy as [->|Hy].
  - rewrite Forall_forall in Hall. apply Hall. apply in_or_app. right.
    left. reflexivity.
  - apply IH; assumption.
Qed.

(** After a run that applied steps up to version [v], nothing is pending
    from [v]. *)
Lemma pending_after_last c loaded pre m :
  pending c loaded = pre ++ [m] -> pending (version m) loaded = [].
Proof.
  intros Hp. unfold pending at 1.
  destruct (filter (fun m0 => version m <? version m0) loaded) as [|x l] eqn:E;
    [reflexivity|].
  exfalso.
  assert (Hx : In x (filter (fun m0 => version m <? version m0) loaded))
    by (rewrite E; left; reflexivity).
  apply filter_In in Hx. destruct Hx as [Hx Hlt]. apply Z.ltb_lt in Hlt.
  assert (Hm : In m (pending c loaded))
    by (rewrite Hp; apply in_or_app; right; left; reflexivity).
  apply pending_In in Hm. destruct Hm as [_ Hcm].
  assert (Hxp : In x (pending c loaded)) by (apply pending_In; split; [exact Hx|lia]).
  rewrite Hp in Hxp. apply in_app_or in Hxp. destruct Hxp as [Hxp|[<-|[]]].
  - pose proof (pending_sorted c loaded) as Hs. rewrite Hp in Hs.
    pose proof (sorted_last_max _ pre m Hs x Hxp) as Hle. simpl in Hle. lia.
  - lia.
Qed.

Lemma for_each_log loaded steps w w' :
  (forall m w0, In m loaded ->
     migration_log (after (up m) w0) = migration_log w0) ->
  (forall m, In m steps -> In m loaded) ->
  for_each DatabaseService.apply_migration steps w = (Returned tt, w') ->
  migration_log w' = migration_log w ++ map version steps.
Proof.
  intros Hquiet. revert w. induction steps as [|m steps IH]; intros w Hsub Hrun.
  - simpl in Hrun. inversion Hrun. simpl. rewrite app_nil_r. reflexivity.
  - apply for_each_cons_returned in Hrun. destruct Hrun as (w1 & Hm & Hrest).
    apply apply_migration_returned in Hm.
    destruct Hm as (wu & Hup & Hset & _).
    apply setVersion_returned in Hset. destruct Hset as [_ Hlog1].
    rewrite (IH w1) by (try exact Hrest; intros; apply Hsub; right; assumption).
    rewrite Hlog1.
    pose proof (Hquiet m (after (log_migration (version m)) w)
                  (Hsub m (or_introl eq_refl))) as Hq.
    unfold after at 1 in Hq. rewrite Hup in Hq. simpl in Hq. rewrite Hq.
    simpl. rewrite <- app_assoc. reflexivity.
Qed.

Lemma runMigrations_fresh w :
  db w = fresh_db ->
  DatabaseService.runMigrations repo_migrations w
  = (Returned tt,
     mkWorld
       (mkDb true (Some []) (Some [])
          (Some [mkMetadata schema_version_key (js "1")
                   (clock w (S (ticks w)))]))
       (clock w) (2 + ticks w) (uuids w) (draws w) (migration_log w ++ [1])).
Proof.
  destruct w as [d ck t uu dr lg]. simpl. intros ->. reflexivity.
Qed.

(** C7.  From a stored version [c], a run of the migrator that returns has
    applied the loaded steps with a version above [c], each once, in
    ascending order of version: every step was announced, its [up] ran, and
    [setVersion] then stored its version, which [getCurrentVersion] reads
    back, before the next step started.  With nothing above [c] the run
    changes nothing.  A second run right after returns as well and leaves
    the world, and so the stored version, as the first run left it.  On a
    new database file the migrations of the repository run without error
    and store version 1. *)
Theorem migrator_applies_pending_in_order
    (loaded : list migration) (w w' : World) (c : Z) :
  result DatabaseService.getCurrentVersion w = Returned (Some c) ->
  DatabaseService.runMigrations loaded w = (Returned tt, w') ->
  Permutation (filter (fun m => c <? version m) loaded) (pending c loaded) /\
  StronglySorted (fun a b => version a <= version b) (pending c loaded) /\
  (forall pre m post,
     pending c loaded = pre ++ m :: post ->
     exists w1 wu w2,
       for_each DatabaseService.apply_migration pre w = (Returned tt, w1) /\
       up m (after (log_migration (version m)) w1) = (Returned tt, wu) /\
       DatabaseService.setVersion (version m) wu = (Returned tt, w2) /\
       result DatabaseService.getCurrentVersion w2
       = Returned (Some (version m)) /\
       for_each DatabaseService.apply_migration post w2 = (Returned tt, w')) /\
  (pending c loaded = [] -> w' = w) /\
  ((forall m w0, In m loaded ->
      migration_log (after (up m) w0) = migration_log w0) ->
   migration_log w' = migration_log w ++ map version (pending c loaded)) /\
  DatabaseService.runMigrations loaded w' = (Returned tt, w') /\
  result DatabaseService.getCurrentVersion
    (after (DatabaseService.runMigrations loaded) w')
  = result DatabaseService.getCurrentVersion w' /\
  (forall w0, db w0 = fresh_db ->
     exists w1,
       DatabaseService.runMigrations repo_migrations w0 = (Returned tt, w1) /\
       result DatabaseService.getCurrentVersion w1 = Returned (Some 1) /\
       migration_log w1 = migration_log w0 ++ [1] /\
       DatabaseService.runMigrations repo_migrations w1 = (Returned tt, w1)).
Proof.
  intros Hcur Hrun. unfold result in Hcur.
  rewrite getCurrentVersion_run in Hcur. simpl in Hcur.
  inversion Hcur as [Hc]. clear Hcur.
  rewrite runMigrations_run, Hc in Hrun.
  assert (Htrace : forall pre m post,
    pending c loaded = pre ++ m :: post ->
    exists w1 wu w2,
      for_each DatabaseService.apply_migration pre w = (Returned tt, w1) /\
      up m (after (log_migration (version m)) w1) = (Returned tt, wu) /\
      DatabaseService.setVersion (version m) wu = (Returned tt, w2) /\
      result DatabaseService.getCurrentVersion w2
      = Returned (Some (version m)) /\
      for_each DatabaseService.apply_migration post w2 = (Returned tt, w')).
  { intros pre m post Hsplit. rewrite Hsplit in Hrun.
    apply for_each_app_returned in Hrun. destruct Hrun as (w1 & Hpre & Hrest).
    apply for_each_cons_returned in Hrest.
    destruct Hrest as (w2 & Hm & Hpost).
    apply apply_migration_returned in Hm.
    destruct Hm as (wu & Hup & Hset & Hver).
    exists w1, wu, w2. repeat split; auto.
    unfold result. rewrite getCurrentVersion_run. simpl. congruence. }
  assert (Hagain : DatabaseService.runMigrations loaded w' = (Returned tt, w')).
  { destruct (pending c loaded) as [|x l] eqn:Hp.
    - simpl in Hrun. inversion Hrun; subst w'.
      rewrite runMigrations_run, Hc, Hp. reflexivity.
    - destruct (exists_last (l:=x :: l)) as (pre & m & Hlast); [discriminate|].
      rewrite Hlast in Hp.
      destruct (Htrace pre m [] Hlast)
        as (w1 & wu & w2 & _ & _ & _ & Hver & Hend).
      simpl in Hend. inversion Hend; subst w2.
      unfold result in Hver. rewrite getCurrentVersion_run in Hver.
      simpl in Hver. inversion Hver as [Hv].
      rewrite runMigrations_run, Hv, (pending_after_last c loaded pre m Hp).
      reflexivity. }
  split; [apply sort_by_perm|]. split; [apply pending_sorted|].
  split; [exact Htrace|]. split; [|split; [|split; [exact Hagain|split]]].
  - intros Hnil. rewrite Hnil in Hrun. simpl in Hrun.
    inversion Hrun. reflexivity.
  - intros Hquiet. apply (for_each_log loaded); auto.
    intros m Hm. apply pending_In in Hm. apply Hm.
  - unfold after. rewrite Hagain. reflexivity.
  - intros w0 Hfresh. eexists. split; [apply runMigrations_fresh, Hfresh|].
    split; [reflexivity|]. split; [reflexivity|]. reflexivity.
Qed.

Lemma demo_start_version :
  result DatabaseService.getCurrentVersion demo_start = Returned (Some 0).
Proof. reflexivity. Qed.

Lemma demo_start_run :
  DatabaseService.runMigrations repo_migrations demo_start
  = (Returned tt, after (DatabaseService.runMigrations repo_migrations)
                    demo_start).
Proof.
  apply (run_after (DatabaseService.runMigrations repo_migrations) demo_start).
  vm_compute. reflexivity.
Qed.

Lemma migrator_applies_pending_in_order_witness :
  DatabaseService.runMigrations repo_migrations
    (after (DatabaseService.runMigrations repo_migrations) demo_start)
  = (Returned tt,
     after (DatabaseService.runMigrations repo_migrations) demo_start).
Proof.
  exact (proj1 (proj2 (proj2 (proj2 (proj2 (proj2
    (migrator_applies_pending_in_order repo_migrations demo_start _ 0
       demo_start_version demo_start_run))))))).
Defined.

(* ===================================================================== *)
(** * Further properties of the persistence layer *)
(* ===================================================================== *)

(* ===================================================================== *)
(** ** createConversation *)
(* ===================================================================== *)

Lemma find_app_new cs (row : conversation) :
  has_id (c_id row) cs = false ->
  find (fun c => Js.eqb (c_id c) (c_id row)) (cs ++ [row]) = Some row.
Proof.
  unfold has_id. induction cs as [|c cs IH]; simpl.
  - intros _. rewrite Js.eqb_refl. reflexivity.
  - destruct (Js.eqb (c_id c) (c_id row)); simpl; [discriminate|exact IH].
Qed.

(** X1.  With an identifier no conversation has yet, [createConversation]
    returns that id and the clock's reading, appends one row and leaves every
    other row and table alone.  The row read back has both timestamps equal
    to the reading, no title, count 0 and both flags 0; it keeps the
    screenshot and its SHA-256 digest exactly when a non-empty screenshot
    was given, and has neither for [null] or the empty string.  With an id
    already taken the call throws and the database is unchanged. *)
Theorem createConversation_row
    (sha256_hex : jsstring -> jsstring) (w : World)
    (cs : list conversation) (shot : option jsstring) :
  conversations (db w) = Some cs ->
  let id := uuids w (draws w) in
  let now := clock w (ticks w) in
  let w' := after (ConversationService.createConversation sha256_hex shot) w in
  (has_id id cs = true ->
   result (ConversationService.createConversation sha256_hex shot) w
   = Threw (PrimaryKeyViolation "conversations") /\
   db w' = db w) /\
  (has_id id cs = false ->
   result (ConversationService.createConversation sha256_hex shot) w
   = Returned (mkCreated id now) /\
   messages (db w') = messages (db w) /\
   metadata (db w') = metadata (db w) /\
   foreign_keys (db w') = foreign_keys (db w) /\
   exists row,
     conversations (db w') = Some (cs ++ [row]) /\
     result (ConversationService.getConversation id) w'
     = Returned (Some row) /\
     c_id row = id /\ created_at row = now /\ updated_at row = now /\
     message_count row = 0 /\ title row = SNull /\
     starred row = SInt 0 /\ archived row = SInt 0 /\
     screenshot_data_url row
     = match shot with
       | Some (c :: s) => Some (c :: s)
       | _ => None
       end /\
     screenshot_hash row
     = match shot with
       | Some (c :: s) => Some (sha256_hex (c :: s))
       | _ => None
       end).
Proof.
  intros Hc id now w'. subst w'. unfold result, after.
  rewrite (createConversation_ready sha256_hex w cs shot Hc). fold id now.
  split; intros Hid; rewrite Hid; cbn [fst snd].
  - split; reflexivity.
  - split; [reflexivity|]. split; [reflexivity|]. split; [reflexivity|].
    split; [reflexivity|].
    set (row := new_conversation sha256_hex id shot now).
    set (w' := moved 1 1 _ w).
    assert (Hc' : conversations (db w') = Some (cs ++ [row])) by reflexivity.
    exists row. split; [exact Hc'|].
    rewrite (getConversation_ready w' _ id Hc'). cbn [fst].
    rewrite (find_app_new cs row : _ -> find (fun c => Js.eqb (c_id c) id) _ = _)
      by exact Hid.
    repeat split; try reflexivity.
    + destruct shot as [[|c s]|]; reflexivity.
    + destruct shot as [[|c s]|]; reflexivity.
Qed.

Lemma createConversation_row_witness :
  result (ConversationService.createConversation demo_sha256
            (Some (js "data:image/png;base64,AAA"))) demo_ready
  = Returned (mkCreated (uuids demo_ready (draws demo_ready))
                (clock demo_ready (ticks demo_ready))).
Proof.
  exact (proj1 (proj2
    (createConversation_row demo_sha256 demo_ready []
       (Some (js "data:image/png;base64,AAA"))
       (proj1 demo_ready_tables)) eq_refl)).
Defined.

(* ===================================================================== *)
(** ** Titles and previews *)
(* ===================================================================== *)

(** X2.  A generated title never has more than 53 code units: at most 50
    of the prompt and the three of the marker.  A prompt whose trimmed text
    is longer than 50 gives a title of exactly 53. *)
Theorem generateTitle_length_bound (firstPrompt : option jsstring) :
  (length (ConversationService.generateTitle firstPrompt) <= 53)%nat /\
  (forall p, firstPrompt = Some p -> (50 < length (Js.trim p))%nat ->
     length (ConversationService.generateTitle firstPrompt) = 53%nat).
Proof.
  split.
  - destruct firstPrompt as [p|]; [|vm_compute; lia].
    destruct p as [|c p]; [vm_compute; lia|].
    destruct (Nat.le_gt_cases (length (Js.trim (c :: p))) 50) as [Hle|Hgt].
    + rewrite generateTitle_short by (try discriminate; exact Hle). lia.
    + rewrite generateTitle_long by (try discriminate; exact Hgt).
      rewrite length_app, firstn_length_le by lia. simpl. lia.
  - intros p -> Hgt.
    assert (Hp : p <> []) by (intros ->; vm_compute in Hgt; lia).
    rewrite generateTitle_long by assumption.
    rewrite length_app, firstn_length_le by lia. reflexivity.
Qed.

(** X3.  The preview of every listed conversation is the first 100 code
    units of its earliest assistant message, and empty when it has none; it
    never has more than 100 code units. *)
Theorem listed_preview_from_first_answer
    (w : World) (limit offset : option Z) (f : option filters)
    (l : list summary) (ms : list message) (s : summary) :
  messages (db w) = Some ms ->
  result (ConversationService.getAllConversations limit offset f) w
  = Returned l ->
  In s l ->
  s_preview s
  = match first_content (js "assistant") (s_id s) ms with
    | Some a => firstn 100 a
    | None => []
    end /\
  (length (s_preview s) <= 100)%nat.
Proof.
  intros Hms Hres Hin.
  destruct (getAllConversations_returned _ _ _ _ _ Hres)
    as (cs & ms' & Hc & Hm & ->).
  assert (ms' = ms) by congruence. subst ms'.
  apply in_map_iff in Hin. destruct Hin as (c & <- & _).
  unfold ConversationService.to_summary, listing_row.
  cbn [s_preview s_id first_answer l_id].
  destruct (first_content (js "assistant") (c_id c) ms) as [a|].
  - destruct a as [|x a].
    + split; [reflexivity|simpl; lia].
    + cbn [Js.truthy]. unfold Js.substring0.
      split; [reflexivity|]. apply firstn_le_length.
  - split; [reflexivity|simpl; lia].
Qed.

Lemma listed_preview_from_first_answer_witness :
  s_preview demo_summary
  = match first_content (js "assistant") (s_id demo_summary)
            demo_saved_messages with
    | Some a => firstn 100 a
    | None => []
    end.
Proof.
  exact (proj1 (listed_preview_from_first_answer demo_saved None None None
                  demo_listing demo_saved_messages demo_summary
                  demo_saved_messages_eq demo_listing_eq
                  demo_summary_listed)).
Defined.

(* ===================================================================== *)
(** ** Paging through the listing *)
(* ===================================================================== *)

Lemma firstn_plus {A} (a b : nat) (l : list A) :
  firstn (a + b) l = firstn a l ++ firstn b (skipn a l).
Proof.
  revert l. induction a as [|a IH]; intros l; [reflexivity|].
  destruct l as [|x l]; simpl.
  - destruct b; reflexivity.
  - rewrite IH. reflexivity.
Qed.

Lemma skipn_plus {A} (o a : nat) (l : list A) :
  skipn (o + a) l = skipn a (skipn o l).
Proof.
  revert l. induction o as [|o IH]; intros l; [reflexivity|].
  destruct l as [|x l]; simpl.
  - destruct a; reflexivity.
  - apply IH.
Qed.

Lemma limit_offset_compose {A} (a b o : Z) (l : list A) :
  0 <= a -> 0 <= b -> 0 <= o ->
  limit_offset (a + b) o l
  = limit_offset a o l ++ limit_offset b (o + a) l.
Proof.
  intros Ha Hb Ho. unfold limit_offset.
  replace (a + b <? 0) with false by lia.
  replace (a <? 0) with false by lia.
  replace (b <? 0) with false by lia.
  rewrite !Z2Nat.inj_add by lia.
  rewrite firstn_plus, skipn_plus. reflexivity.
Qed.

Lemma limit_offset_short {A} (a b o : Z) (l : list A) :
  0 <= a -> 0 <= b -> 0 <= o ->
  (length (limit_offset a o l) < Z.to_nat a)%nat ->
  limit_offset b (o + a) l = [].
Proof.
  intros Ha Hb Ho. unfold limit_offset.
  replace (a <? 0) with false by lia.
  replace (b <? 0) with false by lia.
  rewrite Z2Nat.inj_add, skipn_plus by lia.
  set (l' := skipn (Z.to_nat o) l).
  rewrite length_firstn. intros Hlen.
  rewrite (skipn_all2 l') by lia. destruct (Z.to_nat b); reflexivity.
Qed.

(** X4.  Pages of the listing fit together: for non-negative numbers, the
    page of [a] rows at offset [o] followed by the page of [b] rows at offset
    [o + a] is the page of [a + b] rows at offset [o], under the same
    filters.  A page has at most [a] rows, and when it has fewer the next
    page is empty. *)
Theorem getAllConversations_pages_compose
    (w : World) (a b o : Z) (f : option filters) (la lb : list summary) :
  0 <= a -> 0 <= b -> 0 <= o ->
  result (ConversationService.getAllConversations (Some a) (Some o) f) w
  = Returned la ->
  result (ConversationService.getAllConversations (Some b) (Some (o + a)) f) w
  = Returned lb ->
  result (ConversationService.getAllConversations (Some (a + b)) (Some o) f) w
  = Returned (la ++ lb) /\
  (length la <= Z.to_nat a)%nat /\
  ((length la < Z.to_nat a)%nat -> lb = []).
Proof.
  intros Ha Hb Ho Hla Hlb.
  destruct (getAllConversations_returned _ _ _ _ _ Hla)
    as (cs & ms & Hc & Hm & ->).
  destruct (getAllConversations_returned _ _ _ _ _ Hlb)
    as (cs' & ms' & Hc' & Hm' & ->).
  assert (cs' = cs) by congruence. assert (ms' = ms) by congruence.
  subst cs' ms'. unfold result.
  rewrite (getAllConversations_ready w cs ms) by assumption. cbn [fst].
  unfold selected. cbn [effective_limit effective_offset].
  rewrite limit_offset_compose by assumption. rewrite map_app.
  split; [reflexivity|]. rewrite length_map. split.
  - unfold limit_offset. replace (a <? 0) with false by lia.
    apply firstn_le_length.
  - intros Hshort. rewrite limit_offset_short; auto.
Qed.

Lemma getAllConversations_pages_compose_witness :
  result (ConversationService.getAllConversations (Some (1 + 1)) (Some 0) None)
    demo_saved
  = Returned (demo_listing ++ []).
Proof.
  refine (proj1 (getAllConversations_pages_compose demo_saved 1 1 0 None
                   demo_listing [] _ _ _ _ _)); try lia.
  - vm_compute. reflexivity.
  - vm_compute. reflexivity.
Defined.

(* ===================================================================== *)
(** ** Activity moves a conversation to the top *)
(* ===================================================================== *)

Lemma by_updated_desc_sorted l :
  StronglySorted (fun a b => updated_at b <= updated_at a)
    (sort_by by_updated_desc l).
Proof.
  apply Sorted_StronglySorted.
  - intros x y z Hxy Hyz. cbv beta in *. lia.
  - apply Sorted_weaken with (R := fun a b => by_updated_desc a b = true).
    + intros a b H. unfold by_updated_desc in H. lia.
    + apply sort_by_sorted. exact by_updated_desc_total.
Qed.

(** A row strictly newer than every other row of a table is the first row
    of the table sorted by [updated_at DESC]. *)
Lemma newest_sorted_first l x :
  In x l ->
  (forall y, In y l -> y = x \/ updated_at y < updated_at x) ->
  exists rest, sort_by by_updated_desc l = x :: rest.
Proof.
  intros Hin Hnew.
  pose proof (by_updated_desc_sorted l) as Hs.
  assert (Hx : In x (sort_by by_updated_desc l)) by (apply sort_by_In, Hin).
  destruct (sort_by by_updated_desc l) as [|h rest] eqn:E; [destruct Hx|].
  assert (Hh : In h l).
  { apply (sort_by_In by_updated_desc). rewrite E. left. reflexivity. }
  destruct (Hnew h Hh) as [->|Hlt]; [eauto|].
  destruct Hx as [->|Hx]; [eauto|].
  inversion Hs as [|? ? _ Hall]; subst.
  rewrite Forall_forall in Hall. specialize (Hall x Hx). cbv beta in Hall. lia.
Qed.

Lemma limit_offset_head {A} limit offset (x : A) rest :
  limit <> 0 -> offset <= 0 ->
  exists rest', limit_offset limit offset (x :: rest) = x :: rest'.
Proof.
  intros Hl Ho. unfold limit_offset.
  replace (Z.to_nat offset) with 0%nat by lia. cbn [skipn].
  destruct (Z.ltb_spec limit 0); [eauto|].
  destruct (Z.to_nat limit) as [|n] eqn:E; [lia|]. simpl. eauto.
Qed.

(** X5.  A message saved to a conversation that is not archived puts it
    first in the default listing: when the reading the clock gives for the
    parent's [updated_at] is later than the [updated_at] of every other
    conversation, any listing without filters that starts at the beginning
    and admits at least one row begins with that conversation, showing the
    new time and a count one higher. *)
Theorem saveMessage_moves_conversation_first
    (w w' : World) (cid : jsstring) (r c : option jsstring) (e : bool)
    (s : saved) (cs : list conversation) (old : conversation)
    (limit : option Z) :
  store_ok (db w) ->
  conversations (db w) = Some cs ->
  ConversationService.saveMessage cid r c e w = (Returned s, w') ->
  In old cs -> c_id old = cid -> archived old = SInt 0 ->
  (forall c0, In c0 cs -> c_id c0 <> cid ->
     updated_at c0 < clock w (S (ticks w))) ->
  effective_limit limit <> 0 ->
  exists first rest,
    result (ConversationService.getAllConversations limit None None) w'
    = Returned (first :: rest) /\
    s_id first = cid /\
    s_updated_at first = clock w (S (ticks w)) /\
    s_message_count first = message_count old + 1.
Proof.
  intros Hok Hcs Hrun Hold Hid Harch Hnew Hlim.
  destruct (saveMessage_returned w cid r c e s w' Hok Hrun)
    as (cs0 & ms & r0 & c0 & Hc & Hm & -> & -> & Hhas & Hfresh & -> & ->).
  assert (cs0 = cs) by congruence. subst cs0.
  destruct Hok as (_ & cs1 & ms1 & Hc1 & _ & Hnd & _).
  assert (cs1 = cs) by congruence. subst cs1.
  set (now := clock w (S (ticks w))) in *.
  set (x := touched cid now old).
  unfold result.
  erewrite getAllConversations_ready by reflexivity. cbn [fst].
  unfold selected. cbn [effective_offset effective_filters].
  set (kept := filter _ (map (touched cid now) cs)).
  assert (Hx : x = set_message_count (message_count old + 1)
                     (set_updated_at now old)).
  { unfold x, touched. rewrite Hid, Js.eqb_refl. reflexivity. }
  assert (Hin : In x kept).
  { apply filter_In. split; [apply in_map, Hold|].
    rewrite Hx. simpl. rewrite Harch. reflexivity. }
  destruct (newest_sorted_first kept x Hin) as (rest & Hsort).
  { intros y Hy. apply filter_In in Hy. destruct Hy as [Hy _].
    apply in_map_iff in Hy. destruct Hy as (c1 & <- & Hc1in).
    destruct (Js.eqb (c_id c1) cid) eqn:E.
    - left. apply Js.eqb_eq in E.
      pose proof (find_unique_id cs cid c1 Hnd Hc1in E) as F1.
      pose proof (find_unique_id cs cid old Hnd Hold Hid) as F2.
      assert (c1 = old) by congruence. subst c1. reflexivity.
    - right. unfold touched at 1. rewrite E. rewrite Hx. simpl.
      apply Hnew; [exact Hc1in|]. apply Js.eqb_neq. exact E. }
  rewrite Hsort.
  destruct (limit_offset_head (effective_limit limit) 0 x rest Hlim)
    as (rest' & ->); [lia|].
  cbn [map]. eexists. eexists. split; [reflexivity|].
  rewrite Hx. cbn. auto.
Qed.

Definition demo_asked_row : conversation :=
  mkConversation (js "id-0") None None SNull 1700000000002 1700000000004 1
    (SInt 0) (SInt 0).

Lemma demo_asked_conversations :
  conversations (db demo_asked) = Some [demo_asked_row].
Proof. vm_compute. reflexivity. Qed.

Lemma demo_ready_store_ok : store_ok (db demo_ready).
Proof.
  exact (reachable_store_ok demo_sha256 demo_coerce demo_ready
           demo_ready_reachable).
Qed.

Lemma demo_silent_store_ok : store_ok (db demo_silent).
Proof.
  unfold demo_silent. apply createConversation_store_ok.
  exact demo_ready_store_ok.
Qed.

Lemma demo_asked_store_ok : store_ok (db demo_asked).
Proof.
  unfold demo_asked. apply saveMessage_store_ok. exact demo_silent_store_ok.
Qed.

Lemma demo_answered_store_ok : store_ok (db demo_answered).
Proof.
  unfold demo_answered. apply saveMessage_store_ok. exact demo_asked_store_ok.
Qed.

Lemma saveMessage_moves_conversation_first_witness :
  exists first rest,
    result (ConversationService.getAllConversations None None None)
      demo_answered
    = Returned (first :: rest) /\
    s_id first = js "id-0" /\
    s_updated_at first = clock demo_asked (S (ticks demo_asked)) /\
    s_message_count first = message_count demo_asked_row + 1.
Proof.
  refine (saveMessage_moves_conversation_first demo_asked demo_answered
            (js "id-0") (Some (js "assistant")) (Some (js "A screenshot."))
            false (mkSaved (js "id-2") 1700000000005) [demo_asked_row]
            demo_asked_row None
            demo_asked_store_ok
            demo_asked_conversations demo_answered_run
            (or_introl eq_refl) eq_refl eq_refl _ _).
  - intros c0 [<-|[]] Hne. exfalso. apply Hne. reflexivity.
  - discriminate.
Defined.

(* ===================================================================== *)
(** ** Messages are only ever appended *)
(* ===================================================================== *)

Lemma after_bind {A B} (m : M A) (k : A -> M B) w :
  after (bind m k) w
  = match result m w with
    | Returned a => after (k a) (after m w)
    | Threw _ => after m w
    end.
Proof.
  unfold after, result, bind. destruct (m w) as [[a|e] w']; reflexivity.
Qed.

(** Both tables exist and [messages] is [ms] followed by at most [n] rows. *)
Definition grown (ms : list message) (n : nat) (w : World) : Prop :=
  exists cs added,
    conversations (db w) = Some cs /\
    messages (db w) = Some (ms ++ added) /\
    (length added <= n)%nat.

Lemma grown_le ms n n' w : grown ms n w -> (n <= n')%nat -> grown ms n' w.
Proof.
  intros (cs & added & Hc & Hm & Hlen) Hle. exists cs, added.
  repeat split; auto. lia.
Qed.

Lemma createConversation_grown sha256_hex ms n shot w :
  grown ms n w ->
  grown ms n (after (ConversationService.createConversation sha256_hex shot) w).
Proof.
  intros (cs & added & Hc & Hm & Hlen). unfold after.
  rewrite (createConversation_ready sha256_hex w cs shot Hc).
  destruct (has_id _ cs); cbn [snd].
  - exists cs, added. auto.
  - eexists. exists added. split; [reflexivity|]. auto.
Qed.

Lemma saveMessage_grown ms n cid r c e w :
  grown ms n w ->
  grown ms (S n) (after (ConversationService.saveMessage cid r c e) w).
Proof.
  intros (cs & added & Hc & Hm & Hlen). unfold after.
  assert (Hsame : grown ms (S n) (moved 1 1 (db w) w)).
  { exists cs, added. repeat split; auto. }
  destruct r as [r|], c as [c|];
    try (destruct (saveMessage_null w (ms ++ added) cid None None e Hm)
           as (x & ->); [left; reflexivity|exact Hsame]).
  - rewrite (saveMessage_ready w cs (ms ++ added) cid r c e Hc Hm).
    destruct (has_message_id _ _); [exact Hsame|].
    destruct (foreign_keys (db w) && negb (has_id cid cs)); [exact Hsame|].
    cbn [snd]. eexists. eexists. split; [reflexivity|].
    split; [cbn; rewrite <- app_assoc; reflexivity|].
    rewrite length_app. simpl. lia.
  - destruct (saveMessage_null w (ms ++ added) cid (Some r) None e Hm)
      as (x & ->); [right; reflexivity|exact Hsame].
  - destruct (saveMessage_null w (ms ++ added) cid None (Some c) e Hm)
      as (x & ->); [left; reflexivity|exact Hsame].
Qed.

Lemma save_loop_grown ms (body : item -> M unit) items :
  (forall it n w, grown ms n w -> grown ms (2 + n) (after (body it) w)) ->
  forall n w, grown ms n w ->
    grown ms (2 * length items + n) (after (for_each body items) w).
Proof.
  intros Hbody. induction items as [|it items IH]; intros n w H.
  - exact H.
  - cbn [for_each]. rewrite after_bind.
    specialize (Hbody it n w H).
    destruct (result (body it) w).
    + eapply grown_le; [apply IH, Hbody|]. simpl. lia.
    + eapply grown_le; [exact Hbody|]. simpl. lia.
Qed.

(** The most rows one call adds to [messages]. *)
Definition rows_added (c : call) : nat :=
  match c with
  | SaveMessage _ _ _ _ => 1
  | SaveCompleteConversation _ items => 2 * length items
  | _ => 0
  end.

(** X6.  The service only ever appends to the [messages] table: after any
    call other than [deleteConversation], whether it returned or threw, the
    table is the old one followed by new rows, at most one for
    [saveMessage], two per item for [saveCompleteConversation] and none for
    the rest.  [deleteConversation] adds none and keeps every row of other
    conversations. *)
Theorem messages_append_only
    (sha256_hex : jsstring -> jsstring)
    (coerce : affinity -> sqlval -> sqlval)
    (w : World) (cs : list conversation) (ms : list message) (c : call) :
  conversations (db w) = Some cs -> messages (db w) = Some ms ->
  match c with
  | DeleteConversation cid =>
      exists ms',
        messages (db (world_after sha256_hex coerce c w)) = Some ms' /\
        (forall m, In m ms' -> In m ms) /\
        (forall m, In m ms -> conversation_id m <> cid -> In m ms')
  | _ =>
      exists added,
        messages (db (world_after sha256_hex coerce c w)) = Some (ms ++ added) /\
        (length added <= rows_added c)%nat
  end.
Proof.
  intros Hc Hm.
  assert (H0 : grown ms 0 w).
  { exists cs, []. rewrite app_nil_r. auto. }
  assert (Hout : forall n w', grown ms n w' ->
            exists added, messages (db w') = Some (ms ++ added) /\
                          (length added <= n)%nat).
  { intros n w' (cs' & added & _ & Hm' & Hlen). eauto. }
  assert (Hstay : exists added,
            messages (db w) = Some (ms ++ added) /\ (length added <= 0)%nat).
  { apply Hout, H0. }
  destruct c as [shot|cid r c0 e|limit offset f|cid|cid|cid updates|cid
                |shot items]; cbn [world_after rows_added].
  - apply Hout, createConversation_grown, H0.
  - apply Hout, saveMessage_grown, H0.
  - unfold after. rewrite (getAllConversations_ready w cs ms) by assumption.
    exact Hstay.
  - unfold after. rewrite (getConversation_ready w cs) by assumption.
    exact Hstay.
  - unfold after.
    rewrite (getConversationWithMessages_ready w cs ms) by assumption.
    exact Hstay.
  - unfold after. rewrite (updateConversation_ready coerce w cs) by assumption.
    destruct (recognized updates); [|destruct (bindable updates)];
      exact Hstay.
  - unfold after. rewrite (deleteConversation_ready w cs cid Hc). cbn.
    rewrite Hm. destruct (foreign_keys (db w) && has_id cid cs); cbn.
    + eexists. split; [reflexivity|]. split.
      * intros m Hin. apply filter_In in Hin. tauto.
      * intros m Hin Hne. apply filter_In. split; [exact Hin|].
        apply negb_true_iff, Js.eqb_neq. exact Hne.
    + exists ms. auto.
  - rewrite <- (Nat.add_0_r (2 * length items)). apply Hout.
    unfold ConversationService.saveCompleteConversation.
    rewrite after_bind.
    pose proof (createConversation_grown sha256_hex ms 0
                  (ConversationService.or_null shot) w H0) as H1.
    destruct (result _ w) as [made|x];
      [|eapply grown_le; [exact H1|lia]].
    rewrite after_bind.
    match goal with
    | |- context [for_each ?body items] =>
        pose proof (save_loop_grown ms body items) as Hloop
    end.
    cbv beta in Hloop.
    match type of Hloop with
    | ?P -> _ => assert (Hb : P)
    end.
    { intros it n w' Hw'. rewrite after_bind.
      pose proof (saveMessage_grown ms n (new_id made) (Some (js "user"))
                    (Some (prompt it)) false w' Hw') as Hu.
      destruct (result _ w'); [|eapply grown_le; [exact Hu|lia]].
      rewrite after_bind.
      match goal with
      | |- context [ConversationService.saveMessage ?a ?b ?c ?d] =>
          pose proof (saveMessage_grown ms (S n) a b c d _ Hu) as Ha
      end.
      destruct (result _ _); exact Ha. }
    specialize (Hloop Hb 0%nat _ H1).
    destruct (result _ _); exact Hloop.
Qed.

Lemma messages_append_only_witness :
  exists added,
    messages (db (world_after demo_sha256 demo_coerce
                    (SaveCompleteConversation None demo_items) demo_answered))
    = Some (demo_answered_messages ++ added) /\
    (length added <= rows_added (SaveCompleteConversation None demo_items))%nat.
Proof.
  exact (messages_append_only demo_sha256 demo_coerce demo_answered
           [mkConversation (js "id-0") None None SNull 1700000000002
              1700000000006 2 (SInt 0) (SInt 0)]
           demo_answered_messages
           (SaveCompleteConversation None demo_items)
           demo_answered_conversations demo_answered_messages_eq).
Defined.

(* ===================================================================== *)
(** ** Deleting what was saved *)
(* ===================================================================== *)

Definition other_conversations (cid : jsstring) (cs : list conversation)
    : list conversation :=
  filter (fun c => negb (Js.eqb (c_id c) cid)) cs.

Definition other_messages (cid : jsstring) (ms : list message)
    : list message :=
  filter (fun m => negb (Js.eqb (conversation_id m) cid)) ms.

Lemma other_conversations_all cid cs :
  has_id cid cs = false -> other_conversations cid cs = cs.
Proof.
  unfold has_id, other_conversations.
  induction cs as [|c cs IH]; simpl; [reflexivity|].
  destruct (Js.eqb (c_id c) cid); simpl; [discriminate|].
  intros H. rewrite IH by exact H. reflexivity.
Qed.

Lemma other_messages_all cid ms :
  (forall m, In m ms -> conversation_id m <> cid) ->
  other_messages cid ms = ms.
Proof.
  unfold other_messages. induction ms as [|m ms IH]; simpl; [reflexivity|].
  intros H. destruct (Js.eqb (conversation_id m) cid) eqn:E.
  - apply Js.eqb_eq in E. destruct (H m (or_introl eq_refl) E).
  - simpl. rewrite IH; [reflexivity|]. intros m' Hm'. apply H. right. exact Hm'.
Qed.

Lemma other_conversations_touched cid now cs :
  other_conversations cid (map (touched cid now) cs)
  = other_conversations cid cs.
Proof.
  unfold other_conversations. induction cs as [|c cs IH]; simpl; [reflexivity|].
  rewrite touched_id, IH. unfold touched.
  destruct (Js.eqb (c_id c) cid); reflexivity.
Qed.

(** The store is [d] plus one conversation [cid] and messages under it. *)
Definition extends_with (cid : jsstring) (d : Db) (w : World) : Prop :=
  foreign_keys (db w) = foreign_keys d /\
  metadata (db w) = metadata d /\
  exists cs ms,
    conversations (db w) = Some cs /\ messages (db w) = Some ms /\
    has_id cid cs = true /\
    conversations d = Some (other_conversations cid cs) /\
    messages d = Some (other_messages cid ms).

Lemma saveMessage_extends_with cid d r c e :
  keeps (extends_with cid d) (ConversationService.saveMessage cid r c e).
Proof.
  intros w (Hfk & Hmd & cs & ms & Hc & Hm & Hid & Hcs & Hms). unfold after.
  assert (Hsame : extends_with cid d (moved 1 1 (db w) w)).
  { split; [exact Hfk|]. split; [exact Hmd|]. exists cs, ms. auto. }
  destruct r as [r|], c as [c|];
    try (destruct (saveMessage_null w ms cid None None e Hm) as (x & ->);
         [left; reflexivity|exact Hsame]).
  - rewrite (saveMessage_ready w cs ms cid r c e Hc Hm).
    destruct (has_message_id _ _); [exact Hsame|].
    destruct (foreign_keys (db w) && negb (has_id cid cs)); [exact Hsame|].
    cbn [snd]. split; [exact Hfk|]. split; [exact Hmd|].
    eexists. eexists. split; [reflexivity|]. split; [reflexivity|].
    split; [rewrite has_id_map by apply touched_id; exact Hid|].
    split; [rewrite other_conversations_touched; exact Hcs|].
    unfold other_messages. rewrite filter_app. cbn [filter conversation_id].
    rewrite Js.eqb_refl. cbn [negb]. rewrite app_nil_r. exact Hms.
  - destruct (saveMessage_null w ms cid (Some r) None e Hm) as (x & ->);
      [right; reflexivity|exact Hsame].
  - destruct (saveMessage_null w ms cid None (Some c) e Hm) as (x & ->);
      [left; reflexivity|exact Hsame].
Qed.

Lemma has_id_app_new cid cs (row : conversation) :
  c_id row = cid -> has_id cid (cs ++ [row]) = true.
Proof.
  intros <-. unfold has_id. rewrite existsb_app. simpl.
  rewrite Js.eqb_refl. apply orb_true_iff. right. reflexivity.
Qed.

Lemma other_conversations_app_new cid cs (row : conversation) :
  c_id row = cid -> has_id cid cs = false ->
  other_conversations cid (cs ++ [row]) = cs.
Proof.
  intros <- Hid. unfold other_conversations. rewrite filter_app. simpl.
  rewrite Js.eqb_refl. simpl. rewrite app_nil_r.
  apply other_conversations_all, Hid.
Qed.

Lemma saveCompleteConversation_extends_with sha256_hex w cs shot items :
  store_ok (db w) ->
  conversations (db w) = Some cs ->
  has_id (uuids w (draws w)) cs = false ->
  extends_with (uuids w (draws w)) (db w)
    (after (ConversationService.saveCompleteConversation sha256_hex shot
              items) w).
Proof.
  intros (Hfk & cs0 & ms & Hc0 & Hm & Hnd & Hpar & Hcnt) Hc Hfresh.
  assert (cs0 = cs) by congruence. subst cs0.
  set (id := uuids w (draws w)) in *.
  unfold ConversationService.saveCompleteConversation.
  rewrite after_bind. unfold result, after at 2.
  rewrite (createConversation_ready sha256_hex w cs _ Hc). fold id.
  rewrite Hfresh. cbn [fst snd new_id].
  apply keeps_bind; [|intros; apply keeps_ret|].
  - apply keeps_for_each. intros it.
    apply keeps_bind; [apply saveMessage_extends_with|]. intros _.
    apply keeps_bind; [apply saveMessage_extends_with|]. intros _.
    apply keeps_ret.
  - split; [reflexivity|]. split; [reflexivity|].
    eexists. exists ms. split; [reflexivity|]. split; [exact Hm|].
    split; [apply has_id_app_new; reflexivity|].
    split.
    + rewrite other_conversations_app_new by (reflexivity || exact Hfresh).
      exact Hc.
    + rewrite other_messages_all; [exact Hm|].
      intros m Hin E. specialize (Hpar m Hin). rewrite E in Hpar.
      congruence.
Qed.

(** X7.  [deleteConversation] undoes [saveCompleteConversation]: on a store
    that satisfies the invariant, when the next identifier is not yet a
    conversation's, saving a complete conversation and then deleting the
    conversation under that identifier leaves the database exactly as it
    was, whether every message was saved or the loop stopped at a failed
    one. *)
Theorem deleteConversation_undoes_saveCompleteConversation
    (sha256_hex : jsstring -> jsstring) (w : World)
    (cs : list conversation) (shot : option jsstring) (items : list item) :
  store_ok (db w) ->
  conversations (db w) = Some cs ->
  has_id (uuids w (draws w)) cs = false ->
  db (after (ConversationService.deleteConversation (uuids w (draws w)))
        (after (ConversationService.saveCompleteConversation sha256_hex shot
                  items) w))
  = db w.
Proof.
  intros Hok Hc Hfresh.
  pose proof (saveCompleteConversation_extends_with sha256_hex w cs shot items
                Hok Hc Hfresh) as Hext.
  destruct Hok as (Hfk & _).
  set (id := uuids w (draws w)) in *.
  destruct Hext as (Hfk' & Hmd' & cs' & ms' & Hc' & Hm' & Hid' & Hcs' & Hms').
  unfold after at 1. rewrite (deleteConversation_ready _ cs' id Hc').
  cbn [snd with_db db]. rewrite Hfk', Hfk, Hid', Hm'. cbn [andb option_map].
  fold (other_conversations id cs') (other_messages id ms').
  rewrite <- Hcs', <- Hms', <- Hfk, Hmd'. destruct (db w); reflexivity.
Qed.

Lemma deleteConversation_undoes_saveCompleteConversation_witness :
  db (after (ConversationService.deleteConversation
               (uuids demo_ready (draws demo_ready)))
        (after (ConversationService.saveCompleteConversation demo_sha256 None
                  demo_items) demo_ready))
  = db demo_ready.
Proof.
  exact (deleteConversation_undoes_saveCompleteConversation demo_sha256
           demo_ready [] None demo_items demo_ready_store_ok
           (proj1 demo_ready_tables) eq_refl).
Defined.

(* ===================================================================== *)
(** ** Starting again on an existing database *)
(* ===================================================================== *)

Lemma createConversation_metadata sha256_hex shot w :
  store_ok (db w) ->
  metadata (db (after (ConversationService.createConversation sha256_hex shot)
                  w))
  = metadata (db w).
Proof.
  intros (_ & cs & ms & Hc & _). unfold after.
  rewrite (createConversation_ready sha256_hex w cs shot Hc).
  destruct (has_id _ cs); reflexivity.
Qed.

Lemma saveMessage_metadata cid r c e w :
  store_ok (db w) ->
  metadata (db (after (ConversationService.saveMessage cid r c e) w))
  = metadata (db w).
Proof.
  intros (_ & cs & ms & Hc & Hm & _). unfold after.
  destruct r as [r|], c as [c|];
    try (destruct (saveMessage_null w ms cid None None e Hm) as (x & ->);
         [left; reflexivity|reflexivity]).
  - rewrite (saveMessage_ready w cs ms cid r c e Hc Hm).
    destruct (has_message_id _ _); [reflexivity|].
    destruct (foreign_keys (db w) && negb (has_id cid cs)); reflexivity.
  - destruct (saveMessage_null w ms cid (Some r) None e Hm) as (x & ->);
      [right; reflexivity|reflexivity].
  - destruct (saveMessage_null w ms cid None (Some c) e Hm) as (x & ->);
      [left; reflexivity|reflexivity].
Qed.

Lemma saveCompleteConversation_metadata sha256_hex shot items md :
  keeps (fun w => store_ok (db w) /\ metadata (db w) = md)
    (ConversationService.saveCompleteConversation sha256_hex shot items).
Proof.
  assert (Hsave : forall a b c1 d,
            keeps (fun w => store_ok (db w) /\ metadata (db w) = md)
              (ConversationService.saveMessage a b c1 d)).
  { intros a b c1 d w1 [H1 H2]. split.
    - apply saveMessage_store_ok, H1.
    - rewrite saveMessage_metadata by exact H1. exact H2. }
  unfold ConversationService.saveCompleteConversation.
  apply keeps_bind.
  - intros w1 [H1 H2]. split.
    + apply createConversation_store_ok, H1.
    + rewrite createConversation_metadata by exact H1. exact H2.
  - intros made. apply keeps_bind; [|intros; apply keeps_ret].
    apply keeps_for_each. intros it.
    apply keeps_bind; [apply Hsave|]. intros _.
    apply keeps_bind; [apply Hsave|]. intros _. apply keeps_ret.
Qed.

(** No call on the service touches the [metadata] table. *)
Lemma world_after_metadata sha256_hex coerce c w :
  store_ok (db w) ->
  metadata (db (world_after sha256_hex coerce c w)) = metadata (db w).
Proof.
  intros Hok.
  pose proof Hok as (_ & cs & ms & Hc & Hm & _).
  destruct c as [shot|cid r c0 e|limit offset f|cid|cid|cid updates|cid
                |shot items]; cbn [world_after].
  - apply createConversation_metadata, Hok.
  - apply saveMessage_metadata, Hok.
  - unfold after. rewrite (getAllConversations_ready w cs ms) by assumption.
    reflexivity.
  - unfold after. rewrite (getConversation_ready w cs) by assumption.
    reflexivity.
  - unfold after.
    rewrite (getConversationWithMessages_ready w cs ms) by assumption.
    reflexivity.
  - unfold after. rewrite (updateConversation_ready coerce w cs) by assumption.
    destruct (recognized updates); [|destruct (bindable updates)];
      reflexivity.
  - unfold after. rewrite (deleteConversation_ready w cs cid Hc). reflexivity.
  - exact (proj2 (saveCompleteConversation_metadata sha256_hex shot items
                    (metadata (db w)) w (conj Hok eq_refl))).
Qed.

Lemma reachable_version sha256_hex coerce w :
  reachable sha256_hex coerce w -> stored_version (db w) = Some 1.
Proof.
  induction 1 as [w Hfresh|w c Hr IH].
  - rewrite (initialize_fresh w Hfresh). reflexivity.
  - unfold stored_version in *.
    rewrite (world_after_metadata sha256_hex coerce c w); [exact IH|].
    apply (reachable_store_ok sha256_hex coerce), Hr.
Qed.

(** X9.  Starting the application again is harmless: on any store reached
    from a new database by [initialize] and calls on the service,
    [initialize] returns and leaves the world as it found it: no table, row,
    stored version or migration log entry changes, and no migration is
    run. *)
Theorem initialize_again_changes_nothing
    (sha256_hex : jsstring -> jsstring)
    (coerce : affinity -> sqlval -> sqlval) (w : World) :
  reachable sha256_hex coerce w ->
  DatabaseService.initialize repo_migrations w = (Returned tt, w).
Proof.
  intros Hr.
  pose proof (reachable_version sha256_hex coerce w Hr) as Hv.
  destruct (reachable_store_ok sha256_hex coerce w Hr) as (Hfk & _).
  assert (Hw : with_db (set_foreign_keys true (db w)) w = w).
  { destruct w as [d ck t uu dr lg]. destruct d as [fk cs ms md].
    cbn in Hfk. subst fk. reflexivity. }
  unfold DatabaseService.initialize. unfold bind at 1.
  unfold pragma_foreign_keys. unfold bind at 1, get_db, put_db.
  rewrite Hw, runMigrations_run, Hv. reflexivity.
Qed.

Lemma reach_createConversation sha256_hex coerce shot w :
  reachable sha256_hex coerce w ->
  reachable sha256_hex coerce
    (after (ConversationService.createConversation sha256_hex shot) w).
Proof. intros H. exact (reach_call _ _ w (CreateConversation shot) H). Qed.

Lemma reach_saveMessage sha256_hex coerce cid r c e w :
  reachable sha256_hex coerce w ->
  reachable sha256_hex coerce
    (after (ConversationService.saveMessage cid r c e) w).
Proof. intros H. exact (reach_call _ _ w (SaveMessage cid r c e) H). Qed.

Lemma demo_answered_reachable :
  reachable demo_sha256 demo_coerce demo_answered.
Proof.
  unfold demo_answered. apply reach_saveMessage.
  unfold demo_asked. apply reach_saveMessage.
  unfold demo_silent. apply reach_createConversation.
  exact demo_ready_reachable.
Qed.

Lemma initialize_again_changes_nothing_witness :
  DatabaseService.initialize repo_migrations demo_answered
  = (Returned tt, demo_answered).
Proof.
  exact (initialize_again_changes_nothing demo_sha256 demo_coerce
           demo_answered demo_answered_reachable).
Defined.

(* ===================================================================== *)
(** ** Migration 001 in both directions *)
(* ===================================================================== *)

(** The rows of a table, none when it does not exist. *)
Definition rows_of {A} (t : option (list A)) : list A :=
  match t with
  | Some l => l
  | None => []
  end.

Lemma migration_001_up_run w :
  up migration_001 w
  = (Returned tt,
     mkWorld
       (mkDb (foreign_keys (db w))
          (Some (rows_of (conversations (db w))))
          (Some (rows_of (messages (db w))))
          (Some (filter (fun r => negb (Js.eqb (key r) schema_version_key))
                   (rows_of (metadata (db w)))
                 ++ [mkMetadata schema_version_key (js "1")
                       (clock w (ticks w))])))
       (clock w) (S (ticks w)) (uuids w) (draws w) (migration_log w)).
Proof.
  destruct w as [d ck t uu dr lg]. destruct d as [fk [cs|] [ms|] [md|]];
    reflexivity.
Qed.

(** X10.  The [up] of migration 001 never fails and never loses a row: on
    any database it returns, creates the tables that are missing as empty
    ones, leaves an existing [conversations] or [messages] table and the
    pragma as they are, keeps every other [metadata] row, and leaves
    [schema_version] reading 1. *)
Theorem migration_001_up_keeps_rows (w : World) :
  let w' := after (up migration_001) w in
  result (up migration_001) w = Returned tt /\
  foreign_keys (db w') = foreign_keys (db w) /\
  conversations (db w') = Some (rows_of (conversations (db w))) /\
  messages (db w') = Some (rows_of (messages (db w))) /\
  result DatabaseService.getCurrentVersion w' = Returned (Some 1) /\
  (forall r, In r (rows_of (metadata (db w))) ->
     key r <> js "schema_version" ->
     exists rows', metadata (db w') = Some rows' /\ In r rows').
Proof.
  intros w'. subst w'. unfold result, after.
  rewrite getCurrentVersion_run, migration_001_up_run. cbn [fst snd db].
  repeat split.
  - unfold stored_version. cbn [metadata].
    rewrite find_replaced by reflexivity. reflexivity.
  - intros r Hin Hkey. eexists. split; [reflexivity|].
    apply in_or_app. left. apply filter_In. split; [exact Hin|].
    apply negb_true_iff, Js.eqb_neq. exact Hkey.
Qed.

(** [down] of [001_initial_schema.js]: three [DROP TABLE IF EXISTS], the
    child table first. *)
Definition migration_001_down : M unit :=
  (d <- get_db ;; put_db (set_messages None d)) ;;;
  (d <- get_db ;; put_db (set_conversations None d)) ;;;
  (d <- get_db ;; put_db (set_metadata None d)).

Lemma migration_001_down_run w :
  migration_001_down w
  = (Returned tt, with_db (mkDb (foreign_keys (db w)) None None None) w).
Proof.
  destruct w as [d ck t uu dr lg]. destruct d as [fk cs ms md]. reflexivity.
Qed.

(** X11.  The [down] of migration 001 never fails and removes everything:
    afterwards no table exists, the stored version reads 0 again, and a call
    on the service throws for the missing table.  Running the migrations
    after it gives the schema of a new database, with both tables empty and
    version 1, whatever the database held before. *)
Theorem migration_001_down_drops_everything
    (sha256_hex : jsstring -> jsstring) (w : World) :
  let w' := after migration_001_down w in
  result migration_001_down w = Returned tt /\
  conversations (db w') = None /\ messages (db w') = None /\
  metadata (db w') = None /\
  result DatabaseService.getCurrentVersion w' = Returned (Some 0) /\
  (forall shot,
     result (ConversationService.createConversation sha256_hex shot) w'
     = Threw (NoSuchTable "conversations")) /\
  (forall limit offset f,
     result (ConversationService.getAllConversations limit offset f) w'
     = Threw (NoSuchTable "conversations")) /\
  result (DatabaseService.runMigrations repo_migrations) w' = Returned tt /\
  db (after (DatabaseService.runMigrations repo_migrations) w')
  = mkDb (foreign_keys (db w)) (Some []) (Some [])
      (Some [mkMetadata (js "schema_version") (js "1")
               (clock w (S (ticks w)))]).
Proof.
  intros w'. subst w'. unfold result, after.
  rewrite migration_001_down_run. cbn [fst snd].
  destruct w as [d ck t uu dr lg]. destruct d as [fk cs ms md].
  repeat split.
Qed.

(* ===================================================================== *)
(** ** Migration runs that do not complete *)
(* ===================================================================== *)

Lemma run_after_threw {A} (m : M A) w e :
  result m w = Threw e -> m w = (Threw e, after m w).
Proof.
  unfold result, after. destruct (m w) as [o w']. simpl. congruence.
Qed.

Lemma for_each_app_run {A} (f : A -> M unit) pre post w w1 :
  for_each f pre w = (Returned tt, w1) ->
  for_each f (pre ++ post) w = for_each f post w1.
Proof.
  revert w. induction pre as [|x pre IH]; intros w; simpl.
  - intros H. inversion H. reflexivity.
  - unfold bind. destruct (f x w) as [[[]|e] w0]; [|discriminate].
    apply IH.
Qed.

(** X12.  The migrator stops at the first step that fails: when the [up]
    of a pending step throws after the steps before it were applied, the run
    throws the same exception and ends in the world that [up] left, so
    [setVersion] is not called for the failed step and no later step is
    started.  [initialize] passes the exception on. *)
Theorem runMigrations_stops_at_failed_step
    (loaded pre post : list migration) (m : migration)
    (w w1 wu : World) (c : Z) (e : exn) :
  result DatabaseService.getCurrentVersion w = Returned (Some c) ->
  pending c loaded = pre ++ m :: post ->
  for_each DatabaseService.apply_migration pre w = (Returned tt, w1) ->
  up m (after (log_migration (version m)) w1) = (Threw e, wu) ->
  DatabaseService.runMigrations loaded w = (Threw e, wu) /\
  (forall w0, after (pragma_foreign_keys true) w0 = w ->
     DatabaseService.initialize loaded w0 = (Threw e, wu)).
Proof.
  intros Hcur Hpend Hpre Hup.
  unfold result in Hcur. rewrite getCurrentVersion_run in Hcur.
  cbn [fst] in Hcur. inversion Hcur as [Hc]. clear Hcur.
  assert (Hrun : DatabaseService.runMigrations loaded w = (Threw e, wu)).
  { rewrite runMigrations_run, Hc, Hpend.
    rewrite (for_each_app_run _ pre (m :: post) w w1 Hpre).
    cbn [for_each]. unfold bind at 1.
    unfold DatabaseService.apply_migration. unfold bind at 1.
    unfold log_migration at 1. unfold after, log_migration in Hup.
    cbn [snd] in Hup. unfold bind at 1. rewrite Hup. reflexivity. }
  split; [exact Hrun|].
  intros w0 Hw0. unfold DatabaseService.initialize. unfold bind at 1.
  unfold after in Hw0.
  destruct (pragma_foreign_keys true w0) as [[[]|x] w0'] eqn:Hp.
  - cbn [snd] in Hw0. subst w0'. exact Hrun.
  - unfold pragma_foreign_keys, bind, get_db, put_db in Hp. discriminate.
Qed.

(** A second migration whose [up] fails. *)
Definition demo_broken : migration :=
  mkMigration 2 (throw (Failure "no such column")).

Definition demo_migrated : World :=
  after (for_each DatabaseService.apply_migration [migration_001]) demo_start.

Lemma demo_migrated_run :
  for_each DatabaseService.apply_migration [migration_001] demo_start
  = (Returned tt, demo_migrated).
Proof.
  unfold demo_migrated.
  apply (run_after (for_each DatabaseService.apply_migration [migration_001])
           demo_start).
  vm_compute. reflexivity.
Qed.

Lemma demo_broken_pending :
  pending 0 [demo_broken; migration_001] = [migration_001] ++ demo_broken :: [].
Proof. reflexivity. Qed.

Lemma runMigrations_stops_at_failed_step_witness :
  DatabaseService.runMigrations [demo_broken; migration_001] demo_start
  = (Threw (Failure "no such column"),
     after (log_migration (version demo_broken)) demo_migrated).
Proof.
  exact (proj1 (runMigrations_stops_at_failed_step
                  [demo_broken; migration_001] [migration_001] [] demo_broken
                  demo_start demo_migrated
                  (after (log_migration (version demo_broken)) demo_migrated)
                  0 (Failure "no such column")
                  demo_start_version demo_broken_pending demo_migrated_run
                  eq_refl)).
Defined.

(** X13.  A stored [schema_version] that does not parse as a number stops
    every migration: [parseInt] gives [NaN], no version compares greater
    than it, and [runMigrations] returns without running a step or changing
    anything, whatever modules are loaded. *)
Theorem runMigrations_unreadable_version
    (loaded : list migration) (w : World)
    (rows : list metadata_row) (r : metadata_row) :
  metadata (db w) = Some rows ->
  find (fun r => Js.eqb (key r) (js "schema_version")) rows = Some r ->
  Js.parseInt (value r) = None ->
  result DatabaseService.getCurrentVersion w = Returned None /\
  DatabaseService.runMigrations loaded w = (Returned tt, w).
Proof.
  intros Hmd Hfind Hnan.
  assert (Hv : stored_version (db w) = None).
  { unfold stored_version. rewrite Hmd. unfold schema_version_key.
    rewrite Hfind. exact Hnan. }
  unfold result. rewrite getCurrentVersion_run, runMigrations_run, Hv.
  split; reflexivity.
Qed.

Definition demo_unreadable : World :=
  with_db (mkDb true (Some []) (Some [])
             (Some [mkMetadata (js "schema_version") (js "v1") 0]))
    demo_start.

Lemma runMigrations_unreadable_version_witness :
  DatabaseService.runMigrations repo_migrations demo_unreadable
  = (Returned tt, demo_unreadable).
Proof.
  exact (proj2 (runMigrations_unreadable_version repo_migrations
                  demo_unreadable
                  [mkMetadata (js "schema_version") (js "v1") 0]
                  (mkMetadata (js "schema_version") (js "v1") 0)
                  eq_refl eq_refl eq_refl)).
Defined.

(* ===================================================================== *)
(** * The conversation handlers of [ipcHandlers.js] *)
(* ===================================================================== *)

(** The [error] field of a reply: [error.message] of a caught exception, or
    a message the handler writes itself. *)
Inductive failure :=
| ErrorMessage (e : exn)
| Literal (msg : string).

(** [{ success: true, ... }] or [{ success: false, error }]. *)
Inductive reply (A : Type) :=
| Succeeded (a : A)
| Failed (error : failure).
Arguments Succeeded {A} a.
Arguments Failed {A} error.

(** The payload of SAVE_CONVERSATION: [{ screenshot, conversation }], either
    of which may be missing. *)
Record conversation_data := mkData {
  cd_screenshot : option jsstring;
  cd_conversation : option (list item)
}.

(** The reply of LOAD_CONVERSATIONS, which carries a list also when it
    fails. *)
Record listing_reply := mkListingReply {
  lr_success : bool;
  lr_error : option failure;
  lr_conversations : list summary
}.

(** The payload of LOAD_CONVERSATIONS: [{ limit, offset, filters }], each of
    which may be missing. *)
Record listing_request := mkListingRequest {
  lq_limit : option Z;
  lq_offset : option Z;
  lq_filters : option filters
}.

(** The payload of SAVE_MESSAGE: [{ conversationId, role, content, error }]. *)
Record message_request := mkMessageRequest {
  mq_conversationId : jsstring;
  mq_role : option jsstring;
  mq_content : option jsstring;
  mq_error : option bool
}.

(** The payload of UPDATE_CONVERSATION: [{ conversationId, updates }]. *)
Record update_request := mkUpdateRequest {
  uq_conversationId : jsstring;
  uq_updates : object
}.

(** The message of the TypeError thrown when a parameter list destructures
    a payload that is [undefined] or [null]. *)
Definition cannot_destructure : string :=
  "Cannot destructure property of undefined".

(** [x || d] on a number that may be missing. *)
Definition or_number (x : option Z) (d : Z) : Z :=
  match x with
  | Some n => if n =? 0 then d else n
  | None => d
  end.

Module IpcHandlers.
Section Handlers.
Variable sha256_hex : jsstring -> jsstring.
Variable coerce : affinity -> sqlval -> sqlval.

(** SAVE_CONVERSATION.  The payload is destructured inside the [try]; it is
    an object here. *)
Definition save_conversation (conversationData : conversation_data)
    : M (reply created) :=
  try_catch
    (let screenshot := cd_screenshot conversationData in
     let conversation := cd_conversation conversationData in
     match conversation with
     | None => ret (Failed (Literal "Invalid conversation data"))
     | Some [] => ret (Failed (Literal "Invalid conversation data"))
     | Some items =>
         result <- ConversationService.saveCompleteConversation sha256_hex
                     (ConversationService.or_null screenshot) items ;;
         ret (Succeeded (mkCreated (new_id result) (new_created_at result)))
     end)
    (fun error => ret (Failed (ErrorMessage error))).

(** LOAD_CONVERSATIONS.  The callback is
    [async (event, { limit, offset, filters }) => { try ... }]: the payload
    is destructured in the parameter list, before the [try], so a missing
    payload ([None]) makes the call fail instead of giving a reply. *)
Definition load_conversations (payload : option listing_request)
    : M listing_reply :=
  match payload with
  | None => throw (TypeError cannot_destructure)
  | Some p =>
      let limit := lq_limit p in
      let offset := lq_offset p in
      let f := lq_filters p in
      try_catch
        (conversations <- ConversationService.getAllConversations
                            (Some (or_number limit 100))
                            (Some (or_number offset 0))
                            (Some (match f with
                                   | Some f => f
                                   | None => no_filters
                                   end)) ;;
         ret (mkListingReply true None conversations))
        (fun error =>
           ret (mkListingReply false (Some (ErrorMessage error)) []))
  end.

(** LOAD_CONVERSATION *)
Definition load_conversation (conversationId : jsstring)
    : M (reply (conversation * list ui_message)) :=
  try_catch
    (conversation <- ConversationService.getConversationWithMessages
                       conversationId ;;
     match conversation with
     | None => ret (Failed (Literal "Conversation not found"))
     | Some c => ret (Succeeded c)
     end)
    (fun error => ret (Failed (ErrorMessage error))).

(** SAVE_MESSAGE, whose parameter list destructures
    [{ conversationId, role, content, error }]. *)
Definition save_message (payload : option message_request)
    : M (reply saved) :=
  match payload with
  | None => throw (TypeError cannot_destructure)
  | Some p =>
      let conversationId := mq_conversationId p in
      let role := mq_role p in
      let content := mq_content p in
      let error := mq_error p in
      try_catch
        (result <- ConversationService.saveMessage conversationId role content
                     (match error with Some b => b | None => false end) ;;
         ret (Succeeded (mkSaved (saved_id result) (saved_timestamp result))))
        (fun err => ret (Failed (ErrorMessage err)))
  end.

(** DELETE_CONVERSATION *)
Definition delete_conversation (conversationId : jsstring) : M (reply unit) :=
  try_catch
    (ConversationService.deleteConversation conversationId ;;;
     ret (Succeeded tt))
    (fun error => ret (Failed (ErrorMessage error))).

(** UPDATE_CONVERSATION, whose parameter list destructures
    [{ conversationId, updates }]. *)
Definition update_conversation (payload : option update_request)
    : M (reply unit) :=
  match payload with
  | None => throw (TypeError cannot_destructure)
  | Some p =>
      let conversationId := uq_conversationId p in
      let updates := uq_updates p in
      try_catch
        (ConversationService.updateConversation coerce conversationId
           updates ;;;
         ret (Succeeded tt))
        (fun error => ret (Failed (ErrorMessage error)))
  end.

End Handlers.
End IpcHandlers.

(** A handler that wraps one call: its reply and the world it leaves. *)
Lemma wrapped_call_run {A B} (m : M A) (g : A -> B) w :
  try_catch (x <- m ;; ret (Succeeded (g x)))
    (fun error => ret (Failed (ErrorMessage error))) w
  = (Returned (match result m w with
               | Returned a => Succeeded (g a)
               | Threw e => Failed (ErrorMessage e)
               end), after m w).
Proof.
  unfold try_catch, bind, ret, result, after.
  destruct (m w) as [[a|e] w']; reflexivity.
Qed.

(** X14.  Given a payload of the documented shape (an object, or the id
    for LOAD_CONVERSATION and DELETE_CONVERSATION), no conversation handler
    throws: on every such payload and every database each of the six
    returns a reply.  A reply reports success only when the call on the service
    returned, and then carries what it returned; for SAVE_MESSAGE,
    DELETE_CONVERSATION and UPDATE_CONVERSATION the reply is a success
    exactly when the call returned and otherwise carries the exception; a
    failed LOAD_CONVERSATIONS carries an empty list.  Without a payload,
    LOAD_CONVERSATIONS, SAVE_MESSAGE and UPDATE_CONVERSATION give no reply:
    the call fails with a TypeError before the handler's [try], and nothing
    is executed. *)
Theorem conversation_handlers_reply_or_reject
    (sha256_hex : jsstring -> jsstring)
    (coerce : affinity -> sqlval -> sqlval) (w : World) :
  (forall d, exists rep,
     result (IpcHandlers.save_conversation sha256_hex d) w = Returned rep /\
     (forall c, rep = Succeeded c ->
        exists items,
          cd_conversation d = Some items /\ items <> [] /\
          result (ConversationService.saveCompleteConversation sha256_hex
                    (ConversationService.or_null (cd_screenshot d)) items) w
          = Returned c)) /\
  (forall p, exists rep,
     result (IpcHandlers.load_conversations (Some p)) w = Returned rep /\
     (lr_success rep = false -> lr_conversations rep = [])) /\
  (forall cid, exists rep,
     result (IpcHandlers.load_conversation cid) w = Returned rep /\
     (forall c, rep = Succeeded c ->
        result (ConversationService.getConversationWithMessages cid) w
        = Returned (Some c))) /\
  (forall p,
     result (IpcHandlers.save_message (Some p)) w
     = Returned
         (match result (ConversationService.saveMessage (mq_conversationId p)
                          (mq_role p) (mq_content p)
                          (match mq_error p with
                           | Some b => b
                           | None => false
                           end)) w
          with
          | Returned s => Succeeded s
          | Threw x => Failed (ErrorMessage x)
          end)) /\
  (forall cid,
     result (IpcHandlers.delete_conversation cid) w
     = Returned
         (match result (ConversationService.deleteConversation cid) w with
          | Returned _ => Succeeded tt
          | Threw x => Failed (ErrorMessage x)
          end)) /\
  (forall p,
     result (IpcHandlers.update_conversation coerce (Some p)) w
     = Returned
         (match result (ConversationService.updateConversation coerce
                          (uq_conversationId p) (uq_updates p)) w with
          | Returned _ => Succeeded tt
          | Threw x => Failed (ErrorMessage x)
          end)) /\
  IpcHandlers.load_conversations None w
  = (Threw (TypeError cannot_destructure), w) /\
  IpcHandlers.save_message None w
  = (Threw (TypeError cannot_destructure), w) /\
  IpcHandlers.update_conversation coerce None w
  = (Threw (TypeError cannot_destructure), w).
Proof.
  split; [|split; [|split; [|split; [|split; [|split; [|repeat split]]]]]].
  - intros d. unfold IpcHandlers.save_conversation.
    destruct (cd_conversation d) as [[|it items]|] eqn:Hd.
    + eexists. split; [reflexivity|]. intros c Hc. discriminate.
    + unfold result at 1.
      rewrite (wrapped_call_run _
                 (fun r => mkCreated (new_id r) (new_created_at r))).
      cbn [fst].
      destruct (result _ w) as [[i t]|x] eqn:Hres.
      * eexists. split; [reflexivity|]. intros c Hc. cbn in Hc.
        inversion Hc. subst c.
        exists (it :: items). split; [reflexivity|]. split; [discriminate|].
        exact Hres.
      * eexists. split; [reflexivity|]. intros c Hc. discriminate.
    + eexists. split; [reflexivity|]. intros c Hc. discriminate.
  - intros p. unfold IpcHandlers.load_conversations.
    unfold result, try_catch, bind, ret.
    destruct (ConversationService.getAllConversations _ _ _ w) as [[l|x] w'].
    + eexists. split; [reflexivity|]. discriminate.
    + eexists. split; [reflexivity|]. reflexivity.
  - intros cid. unfold IpcHandlers.load_conversation.
    unfold result, try_catch, bind, ret.
    destruct (ConversationService.getConversationWithMessages cid w)
      as [[[c|]|x] w'].
    + eexists. split; [reflexivity|]. intros c0 Hc. inversion Hc.
      reflexivity.
    + eexists. split; [reflexivity|]. discriminate.
    + eexists. split; [reflexivity|]. discriminate.
  - intros p. unfold IpcHandlers.save_message. cbv zeta. unfold result at 1.
    rewrite (wrapped_call_run _
               (fun r => mkSaved (saved_id r) (saved_timestamp r))).
    cbn [fst]. destruct (result _ w) as [[i t]|x]; reflexivity.
  - intros cid. unfold IpcHandlers.delete_conversation.
    unfold result, try_catch, bind, ret.
    destruct (ConversationService.deleteConversation cid w) as [[[]|x] w'];
      reflexivity.
  - intros p. unfold IpcHandlers.update_conversation.
    unfold result, try_catch, bind, ret.
    destruct (ConversationService.updateConversation coerce _ _ w)
      as [[[]|x] w']; reflexivity.
Qed.

(** X15.  SAVE_CONVERSATION refuses a payload without turns: with the
    conversation list missing or empty the reply is the failure 'Invalid
    conversation data' and nothing is executed, so the world is unchanged.
    The check is the handler's own: given the empty list,
    [saveCompleteConversation] on an initialized store with an unused
    identifier returns and leaves a new conversation without messages. *)
Theorem save_conversation_rejects_empty
    (sha256_hex : jsstring -> jsstring) (w : World)
    (d : conversation_data) (cs : list conversation) :
  cd_conversation d = None \/ cd_conversation d = Some [] ->
  conversations (db w) = Some cs ->
  has_id (uuids w (draws w)) cs = false ->
  IpcHandlers.save_conversation sha256_hex d w
  = (Returned (Failed (Literal "Invalid conversation data")), w) /\
  result (ConversationService.saveCompleteConversation sha256_hex
            (cd_screenshot d) []) w
  = Returned (mkCreated (uuids w (draws w)) (clock w (ticks w))) /\
  has_id (uuids w (draws w))
    (rows_of (conversations
                (db (after (ConversationService.saveCompleteConversation
                              sha256_hex (cd_screenshot d) []) w))))
  = true /\
  messages (db (after (ConversationService.saveCompleteConversation
                         sha256_hex (cd_screenshot d) []) w))
  = messages (db w).
Proof.
  intros Hd Hc Hid. split.
  - unfold IpcHandlers.save_conversation.
    destruct Hd as [-> | ->]; reflexivity.
  - assert (Hrun : ConversationService.saveCompleteConversation sha256_hex
                     (cd_screenshot d) [] w
                   = (Returned (mkCreated (uuids w (draws w))
                                  (clock w (ticks w))),
                      moved 1 1
                        (set_conversations
                           (Some (cs ++ [new_conversation sha256_hex
                                           (uuids w (draws w))
                                           (ConversationService.or_null
                                              (cd_screenshot d))
                                           (clock w (ticks w))])) (db w)) w)).
    { unfold ConversationService.saveCompleteConversation, bind.
      cbv beta. rewrite (createConversation_ready sha256_hex w cs _ Hc), Hid.
      reflexivity. }
    unfold result, after. rewrite Hrun. cbn [fst snd].
    split; [reflexivity|]. split; [|reflexivity].
    apply has_id_app_new. reflexivity.
Qed.

Lemma save_conversation_rejects_empty_witness :
  IpcHandlers.save_conversation demo_sha256 (mkData None (Some [])) demo_ready
  = (Returned (Failed (Literal "Invalid conversation data")), demo_ready).
Proof.
  exact (proj1 (save_conversation_rejects_empty demo_sha256 demo_ready
                  (mkData None (Some [])) []
                  (or_intror eq_refl) (proj1 demo_ready_tables) eq_refl)).
Defined.

(** X16.  LOAD_CONVERSATIONS cannot be asked for an empty page: a limit of
    0 is replaced by 100 like a missing one, a missing offset is 0 and
    missing filters are the empty filters, so the three requests get the
    reply of their defaults; the reply to a request without a limit or with
    limit 0 lists at most 100 conversations.  The service itself, asked for
    0 rows, returns none. *)
Theorem load_conversations_defaults
    (w : World) (limit offset : option Z) (f : option filters) :
  IpcHandlers.load_conversations (Some (mkListingRequest (Some 0) offset f)) w
  = IpcHandlers.load_conversations
      (Some (mkListingRequest (Some 100) offset f)) w /\
  IpcHandlers.load_conversations (Some (mkListingRequest None offset f)) w
  = IpcHandlers.load_conversations
      (Some (mkListingRequest (Some 100) offset f)) w /\
  IpcHandlers.load_conversations (Some (mkListingRequest limit None f)) w
  = IpcHandlers.load_conversations
      (Some (mkListingRequest limit (Some 0) f)) w /\
  IpcHandlers.load_conversations (Some (mkListingRequest limit offset None)) w
  = IpcHandlers.load_conversations
      (Some (mkListingRequest limit offset (Some no_filters))) w /\
  (forall rep,
     limit = None \/ limit = Some 0 ->
     result (IpcHandlers.load_conversations
               (Some (mkListingRequest limit offset f))) w = Returned rep ->
     (length (lr_conversations rep) <= 100)%nat) /\
  (forall l,
     result (ConversationService.getAllConversations (Some 0) offset f) w
     = Returned l ->
     l = []).
Proof.
  repeat split.
  - intros rep Hlim. unfold IpcHandlers.load_conversations.
    cbn [lq_limit lq_offset lq_filters].
    replace (or_number limit 100) with 100
      by (destruct Hlim as [-> | ->]; reflexivity).
    unfold result, try_catch, bind, ret.
    destruct (ConversationService.getAllConversations _ _ _ w) as [[l|x] w']
      eqn:Hrun; cbn [fst]; intros Hrep; inversion Hrep; subst rep;
      cbn [lr_conversations length]; [|lia].
    assert (Hres : result (ConversationService.getAllConversations (Some 100)
                             (Some (or_number offset 0))
                             (Some match f with
                                   | Some f0 => f0
                                   | None => no_filters
                                   end)) w = Returned l)
      by (unfold result; rewrite Hrun; reflexivity).
    destruct (getAllConversations_returned _ _ _ _ _ Hres)
      as (cs & ms & _ & _ & ->).
    rewrite length_map. unfold selected, limit_offset.
    cbn [effective_limit]. replace (100 <? 0) with false by reflexivity.
    apply (firstn_le_length (Z.to_nat 100)).
  - intros l Hres.
    destruct (getAllConversations_returned _ _ _ _ _ Hres)
      as (cs & ms & _ & _ & ->).
    unfold selected, limit_offset. reflexivity.
Qed.

Lemma load_conversations_defaults_witness :
  (length (lr_conversations (mkListingReply true None demo_listing)) <= 100)%nat.
Proof.
  refine (proj1 (proj2 (proj2 (proj2 (proj2
            (load_conversations_defaults demo_saved (Some 0) None None)))))
            (mkListingReply true None demo_listing) (or_intror eq_refl) _).
  vm_compute. reflexivity.
Defined.

Lemma map_untouched cid (g : conversation -> conversation) cs :
  has_id cid cs = false ->
  map (fun c => if Js.eqb (c_id c) cid then g c else c) cs = cs.
Proof.
  unfold has_id. induction cs as [|c cs IH]; simpl; [reflexivity|].
  destruct (Js.eqb (c_id c) cid); simpl; [discriminate|].
  intros H. rewrite IH by exact H. reflexivity.
Qed.

(** X17.  Requests that name no conversation: on an initialized store,
    LOAD_CONVERSATION of an id no conversation has replies 'Conversation not
    found' and changes nothing; DELETE_CONVERSATION of such an id replies
    success and leaves every table as it was, even with foreign keys on;
    UPDATE_CONVERSATION of such an id leaves every table as it was too, and
    replies success when the driver can bind the value of every recognized
    key, and otherwise the failure with the driver's TypeError. *)
Theorem requests_for_unknown_conversation
    (coerce : affinity -> sqlval -> sqlval) (w : World)
    (cs : list conversation) (ms : list message) (cid : jsstring)
    (updates : object) :
  conversations (db w) = Some cs -> messages (db w) = Some ms ->
  has_id cid cs = false ->
  IpcHandlers.load_conversation cid w
  = (Returned (Failed (Literal "Conversation not found")), w) /\
  result (IpcHandlers.delete_conversation cid) w = Returned (Succeeded tt) /\
  db (after (IpcHandlers.delete_conversation cid) w) = db w /\
  result (IpcHandlers.update_conversation coerce
            (Some (mkUpdateRequest cid updates))) w
  = Returned (if bindable updates
              then Succeeded tt
              else Failed (ErrorMessage (TypeError cannot_bind))) /\
  db (after (IpcHandlers.update_conversation coerce
               (Some (mkUpdateRequest cid updates))) w) = db w.
Proof.
  intros Hc Hm Hid.
  assert (Hfind : find (fun c => Js.eqb (c_id c) cid) cs = None).
  { apply find_none_id. intros c Hin E.
    assert (has_id cid cs = true); [|congruence].
    apply has_id_In. rewrite <- E. apply in_map, Hin. }
  split; [|split; [|split; [|split]]].
  - unfold IpcHandlers.load_conversation, try_catch, bind.
    rewrite (getConversationWithMessages_ready w cs ms cid Hc Hm), Hfind.
    reflexivity.
  - unfold IpcHandlers.delete_conversation, result, try_catch, bind.
    rewrite (deleteConversation_ready w cs cid Hc). reflexivity.
  - unfold IpcHandlers.delete_conversation, after, try_catch, bind.
    rewrite (deleteConversation_ready w cs cid Hc), Hid, andb_false_r.
    cbn [snd ret with_db db].
    fold (other_conversations cid cs).
    rewrite other_conversations_all by exact Hid.
    rewrite <- Hc. destruct (db w); reflexivity.
  - unfold IpcHandlers.update_conversation, result, try_catch, bind.
    cbn [uq_conversationId uq_updates].
    rewrite (updateConversation_ready coerce w cs cid updates Hc).
    unfold bindable.
    destruct (recognized updates); [reflexivity|].
    destruct (forallb _ _); reflexivity.
  - unfold IpcHandlers.update_conversation, after, try_catch, bind.
    cbn [uq_conversationId uq_updates].
    rewrite (updateConversation_ready coerce w cs cid updates Hc).
    destruct (recognized updates) as [|k ks]; [reflexivity|].
    destruct (bindable updates); [|reflexivity].
    cbn [snd ret moved db]. rewrite map_untouched by exact Hid.
    rewrite <- Hc. destruct (db w); reflexivity.
Qed.

Lemma requests_for_unknown_conversation_witness :
  IpcHandlers.load_conversation (js "id-9") demo_answered
  = (Returned (Failed (Literal "Conversation not found")), demo_answered) /\
  result (IpcHandlers.update_conversation demo_coerce
            (Some (mkUpdateRequest (js "id-9") demo_star))) demo_answered
  = Returned (Failed (ErrorMessage (TypeError cannot_bind))).
Proof.
  assert (Hid : has_id (js "id-9")
                  [mkConversation (js "id-0") None None SNull 1700000000002
                     1700000000006 2 (SInt 0) (SInt 0)] = false)
    by (vm_compute; reflexivity).
  pose proof (requests_for_unknown_conversation demo_coerce demo_answered
                _ demo_answered_messages (js "id-9") demo_star
                demo_answered_conversations demo_answered_messages_eq Hid)
    as H.
  exact (conj (proj1 H) (proj1 (proj2 (proj2 (proj2 H))))).
Defined.






(* ===================================================================== *)
(** ** Archiving *)
(* ===================================================================== *)

(** The update the conversation list sends to archive a conversation. *)
Definition archive_update : object := [(js "archived", JNum 1)].

Lemma archive_update_row coerce now c :
  updated_row coerce (recognized archive_update) archive_update now c
  = set_updated_at now (set_archived (coerce AffInteger (SInt 1)) c).
Proof. destruct c. reflexivity. Qed.

(** X19.  Archiving hides a conversation without touching its messages:
    after [updateConversation(id, { archived: 1 })] on a database that
    stores the integer as given, no listing other than the archived one
    shows the conversation, whatever page is asked for; the archived listing
    shows it with the flag set and the time of the update, provided the page
    is large enough for the whole table; and the [messages] table is as
    before. *)
Theorem archived_conversation_leaves_default_listing
    (coerce : affinity -> sqlval -> sqlval) (w : World)
    (cs : list conversation) (ms : list message) (cid : jsstring)
    (old : conversation) :
  conversations (db w) = Some cs -> messages (db w) = Some ms ->
  coerce AffInteger (SInt 1) = SInt 1 ->
  In old cs -> c_id old = cid ->
  let w' := after (ConversationService.updateConversation coerce cid
                     archive_update) w in
  result (ConversationService.updateConversation coerce cid archive_update) w
  = Returned tt /\
  messages (db w') = Some ms /\
  (forall limit offset f l s,
     f_archived (effective_filters f) <> JBool true ->
     result (ConversationService.getAllConversations limit offset f) w'
     = Returned l ->
     In s l -> s_id s <> cid) /\
  (forall limit starred_only,
     Z.of_nat (length cs) <= effective_limit limit ->
     (starred_only = JBool true -> starred old = SInt 1) ->
     exists l s,
       result (ConversationService.getAllConversations limit None
                 (Some (mkFilters (JBool true) starred_only))) w'
       = Returned l /\
       In s l /\ s_id s = cid /\ s_archived s = SInt 1 /\
       s_updated_at s = clock w (ticks w)).
Proof.
  intros Hc Hm Hco Hold Hid w'. subst w'. unfold result, after.
  rewrite (updateConversation_ready coerce w cs cid archive_update Hc).
  change (recognized archive_update) with [js "archived"].
  change (bindable archive_update) with true.
  cbn [fst snd].
  set (now := clock w (ticks w)).
  set (g := fun c => if Js.eqb (c_id c) cid
                     then updated_row coerce [js "archived"] archive_update
                            now c
                     else c).
  set (w' := moved 1 0 _ w).
  assert (Hc' : conversations (db w') = Some (map g cs)) by reflexivity.
  assert (Hm' : messages (db w') = Some ms) by exact Hm.
  assert (Hg : forall c, c_id c = cid ->
             g c = set_updated_at now (set_archived (SInt 1) c)).
  { intros c E. unfold g. rewrite E, Js.eqb_refl.
    change [js "archived"] with (recognized archive_update).
    rewrite archive_update_row, Hco. reflexivity. }
  assert (Hgid : forall c, c_id (g c) = c_id c).
  { intros c. unfold g. destruct (Js.eqb (c_id c) cid); reflexivity. }
  split; [reflexivity|]. split; [exact Hm'|]. split.
  - intros limit offset f l s Hf Hres Hin Hs.
    rewrite (getAllConversations_ready w' (map g cs) ms) in Hres
      by assumption.
    cbn [fst] in Hres. inversion Hres. subst l. clear Hres.
    apply in_map_iff in Hin. destruct Hin as (c & <- & Hsel).
    apply selected_In in Hsel. destruct Hsel as [Hin Hholds].
    apply where_clause_archived in Hholds. destruct Hholds as (_ & Harch & _).
    specialize (Harch Hf).
    apply in_map_iff in Hin. destruct Hin as (c0 & <- & _).
    cbn [ConversationService.to_summary listing_row s_id l_id] in Hs.
    rewrite Hgid in Hs. rewrite (Hg c0 Hs) in Harch. discriminate.
  - intros limit starred_only Hlim Hstar.
    rewrite (getAllConversations_ready w' (map g cs) ms) by assumption.
    cbn [fst]. eexists. eexists. split; [reflexivity|].
    split; [apply in_map with (x := g old)|].
    + unfold selected. rewrite limit_offset_all.
      * apply sort_by_In. apply filter_In. split; [apply in_map, Hold|].
        apply where_clause_holds.
        -- rewrite (Hg old Hid). reflexivity.
        -- cbn [effective_filters f_starred]. intros Hst.
           rewrite (Hg old Hid). cbn. exact (Hstar Hst).
      * cbn. lia.
      * right. rewrite sort_by_length.
        pose proof (filter_length_le
                      (fun c => forallb (holds c)
                         (ConversationService.where_clause
                            (effective_filters
                               (Some (mkFilters (JBool true) starred_only)))))
                      (map g cs)) as Hle.
        rewrite length_map in Hle. lia.
    + rewrite (Hg old Hid). cbn. auto.
Qed.

Lemma archived_conversation_leaves_default_listing_witness :
  result (ConversationService.updateConversation demo_coerce (js "id-0")
            archive_update) demo_answered
  = Returned tt /\
  messages (db (after (ConversationService.updateConversation demo_coerce
                         (js "id-0") archive_update) demo_answered))
  = Some demo_answered_messages.
Proof.
  pose proof (archived_conversation_leaves_default_listing demo_coerce
                demo_answered _ demo_answered_messages (js "id-0") _
                demo_answered_conversations demo_answered_messages_eq
                eq_refl (or_introl eq_refl) eq_refl) as H.
  exact (conj (proj1 H) (proj1 (proj2 H))).
Defined.

(* ===================================================================== *)
(** * Times and order under a clock that does not run backwards *)
(* ===================================================================== *)

(** What the timestamps of a store look like at tick [t] of the clock [ck]:
    no row is from the future, a conversation was not updated before it was
    created or before one of its messages was saved, and the [messages]
    table is in the order of its timestamps. *)
Definition timely_at (ck : nat -> Z) (t : nat) (d : Db) : Prop :=
  exists cs ms,
    conversations d = Some cs /\ messages d = Some ms /\
    (forall c, In c cs ->
       created_at c <= updated_at c /\ updated_at c <= ck t) /\
    (forall m, In m ms -> timestamp m <= ck t) /\
    (forall m c, In m ms -> In c cs -> conversation_id m = c_id c ->
       timestamp m <= updated_at c) /\
    StronglySorted (fun a b => timestamp a <= timestamp b) ms.

Definition timely (w : World) : Prop :=
  clock_monotone w /\ timely_at (clock w) (ticks w) (db w).

Lemma timely_later dt dd w :
  timely w -> timely (moved dt dd (db w) w).
Proof.
  intros (Hmono & cs & ms & Hc & Hm & Hcs & Hms & Hpar & Hsort).
  assert (Hle : clock w (ticks w) <= clock w (dt + ticks w))
    by (apply Hmono; lia).
  split.
  - intros i j Hi Hj. cbn in *. apply Hmono; lia.
  - exists cs, ms. cbn [moved clock ticks db].
    split; [exact Hc|]. split; [exact Hm|].
    split; [|split; [|split; [exact Hpar|exact Hsort]]].
    + intros c Hin. destruct (Hcs c Hin). lia.
    + intros m Hin. specialize (Hms m Hin). lia.
Qed.

Lemma StronglySorted_snoc {A} (R : A -> A -> Prop) l x :
  StronglySorted R l -> (forall y, In y l -> R y x) ->
  StronglySorted R (l ++ [x]).
Proof.
  induction 1 as [|a l Hs IH Hall]; intros Hx; simpl.
  - constructor; constructor.
  - constructor.
    + apply IH. intros y Hy. apply Hx. right. exact Hy.
    + rewrite Forall_forall in *. intros y Hy. apply in_app_or in Hy.
      destruct Hy as [Hy|[<-|[]]]; [apply Hall, Hy|].
      apply Hx. left. reflexivity.
Qed.

Lemma StronglySorted_filter {A} (R : A -> A -> Prop) (p : A -> bool) l :
  StronglySorted R l -> StronglySorted R (filter p l).
Proof.
  induction 1 as [|a l Hs IH Hall]; simpl; [constructor|].
  destruct (p a); [|exact IH]. constructor; [exact IH|].
  rewrite Forall_forall in *. intros y Hy. apply filter_In in Hy.
  apply Hall. tauto.
Qed.

Lemma createConversation_timely sha256_hex shot :
  keeps timely (ConversationService.createConversation sha256_hex shot).
Proof.
  intros w Ht. pose proof Ht as (Hmono & cs & ms & Hc & Hm & Hcs & Hms & Hpar
                                  & Hsort).
  unfold after. rewrite (createConversation_ready sha256_hex w cs shot Hc).
  destruct (has_id (uuids w (draws w)) cs) eqn:Hid; cbn [snd].
  - apply timely_later, Ht.
  - assert (Hle : clock w (ticks w) <= clock w (S (ticks w)))
      by (apply Hmono; lia).
    split; [intros i j Hi Hj; cbn in *; apply Hmono; lia|].
    eexists. exists ms. split; [reflexivity|]. split; [exact Hm|].
    cbn [moved clock ticks db Nat.add].
    split; [|split; [|split; [|exact Hsort]]].
    + intros c Hin. apply in_app_or in Hin.
      destruct Hin as [Hin|[<-|[]]].
      * destruct (Hcs c Hin). lia.
      * cbn. lia.
    + intros m Hin. specialize (Hms m Hin). lia.
    + intros m c Hin Hcin E. apply in_app_or in Hcin.
      destruct Hcin as [Hcin|[<-|[]]]; [apply Hpar; assumption|].
      cbn. apply Hms, Hin.
Qed.

Lemma saveMessage_timely cid r c e :
  keeps timely (ConversationService.saveMessage cid r c e).
Proof.
  intros w Ht. pose proof Ht as (Hmono & cs & ms & Hc & Hm & Hcs & Hms & Hpar
                                  & Hsort).
  unfold after.
  destruct r as [r|], c as [c|];
    try (destruct (saveMessage_null w ms cid None None e Hm) as (x & ->);
         [left; reflexivity|apply timely_later, Ht]).
  - rewrite (saveMessage_ready w cs ms cid r c e Hc Hm).
    destruct (has_message_id _ _); [apply timely_later, Ht|].
    destruct (foreign_keys (db w) && negb (has_id cid cs));
      [apply timely_later, Ht|].
    cbn [snd].
    assert (H01 : clock w (ticks w) <= clock w (S (ticks w)))
      by (apply Hmono; lia).
    assert (H12 : clock w (S (ticks w)) <= clock w (S (S (ticks w))))
      by (apply Hmono; lia).
    assert (Htouch : forall c0, In c0 cs ->
              created_at (touched cid (clock w (S (ticks w))) c0)
              = created_at c0 /\
              updated_at c0
              <= updated_at (touched cid (clock w (S (ticks w))) c0) /\
              updated_at (touched cid (clock w (S (ticks w))) c0)
              <= clock w (S (ticks w)) /\
              (c_id c0 = cid ->
               updated_at (touched cid (clock w (S (ticks w))) c0)
               = clock w (S (ticks w)))).
    { intros c0 Hin. destruct (Hcs c0 Hin) as [Hcu Hut]. unfold touched.
      destruct (Js.eqb (c_id c0) cid) eqn:E; cbn.
      - repeat split; lia.
      - repeat split; try lia. intros Hid. apply Js.eqb_neq in E. contradiction. }
    split; [intros i j Hi Hj; cbn in *; apply Hmono; lia|].
    eexists. eexists. split; [reflexivity|]. split; [reflexivity|].
    cbn [moved clock ticks db Nat.add].
    split; [|split; [|split]].
    + intros c1 Hin. apply in_map_iff in Hin. destruct Hin as (c0 & <- & Hin).
      destruct (Htouch c0 Hin) as (-> & Hup & Hle & _).
      destruct (Hcs c0 Hin). lia.
    + intros m Hin. apply in_app_or in Hin.
      destruct Hin as [Hin|[<-|[]]]; [specialize (Hms m Hin); lia|cbn; lia].
    + intros m c1 Hin Hcin E. apply in_map_iff in Hcin.
      destruct Hcin as (c0 & <- & Hcin). rewrite touched_id in E.
      destruct (Htouch c0 Hcin) as (_ & Hup & _ & Hnew).
      apply in_app_or in Hin. destruct Hin as [Hin|[<-|[]]].
      * specialize (Hpar m c0 Hin Hcin E). lia.
      * cbn in E. rewrite (Hnew (eq_sym E)). cbn. lia.
    + apply StronglySorted_snoc; [exact Hsort|].
      intros y Hy. cbn. apply Hms, Hy.
  - destruct (saveMessage_null w ms cid (Some r) None e Hm) as (x & ->);
      [right; reflexivity|apply timely_later, Ht].
  - destruct (saveMessage_null w ms cid None (Some c) e Hm) as (x & ->);
      [left; reflexivity|apply timely_later, Ht].
Qed.

Lemma updateConversation_timely coerce cid updates :
  keeps timely (ConversationService.updateConversation coerce cid updates).
Proof.
  intros w Ht. pose proof Ht as (Hmono & cs & ms & Hc & Hm & Hcs & Hms & Hpar
                                  & Hsort).
  unfold after. rewrite (updateConversation_ready coerce w cs cid updates Hc).
  destruct (recognized updates) as [|k ks]; [exact Ht|].
  destruct (bindable updates); cbn [snd]; [|apply timely_later, Ht].
  set (g := fun c => if Js.eqb (c_id c) cid
                     then updated_row coerce (k :: ks) updates
                            (clock w (ticks w)) c
                     else c).
  assert (Hle : clock w (ticks w) <= clock w (S (ticks w)))
    by (apply Hmono; lia).
  assert (Hg : forall c0, In c0 cs ->
            c_id (g c0) = c_id c0 /\ created_at (g c0) = created_at c0 /\
            updated_at c0 <= updated_at (g c0) /\
            updated_at (g c0) <= clock w (ticks w)).
  { intros c0 Hin. destruct (Hcs c0 Hin). unfold g.
    destruct (Js.eqb (c_id c0) cid); cbn; repeat split; lia. }
  split; [intros i j Hi Hj; cbn in *; apply Hmono; lia|].
  exists (map g cs), ms. split; [reflexivity|]. split; [exact Hm|].
  cbn [moved clock ticks db Nat.add].
  split; [|split; [|split; [|exact Hsort]]].
  - intros c1 Hin. apply in_map_iff in Hin. destruct Hin as (c0 & <- & Hin).
    destruct (Hg c0 Hin) as (_ & -> & Hup & Hnow). destruct (Hcs c0 Hin). lia.
  - intros m Hin. specialize (Hms m Hin). lia.
  - intros m c1 Hin Hcin E. apply in_map_iff in Hcin.
    destruct Hcin as (c0 & <- & Hcin).
    destruct (Hg c0 Hcin) as (Hid & _ & Hup & _). rewrite Hid in E.
    specialize (Hpar m c0 Hin Hcin E). lia.
Qed.

Lemma deleteConversation_timely cid :
  keeps timely (ConversationService.deleteConversation cid).
Proof.
  intros w (Hmono & cs & ms & Hc & Hm & Hcs & Hms & Hpar & Hsort).
  unfold after. rewrite (deleteConversation_ready w cs cid Hc). cbn [snd].
  split; [exact Hmono|]. cbn [with_db clock ticks db]. rewrite Hm.
  assert (Hsub : exists ms',
            (if foreign_keys (db w) && has_id cid cs
             then option_map
                    (filter (fun m => negb (Js.eqb (conversation_id m) cid)))
                    (Some ms)
             else Some ms) = Some ms' /\
            (forall m, In m ms' -> In m ms) /\
            StronglySorted (fun a b => timestamp a <= timestamp b) ms').
  { destruct (foreign_keys (db w) && has_id cid cs); cbn.
    - eexists. split; [reflexivity|]. split.
      + intros m Hin. apply filter_In in Hin. tauto.
      + apply StronglySorted_filter, Hsort.
    - exists ms. auto. }
  destruct Hsub as (ms' & -> & Hin' & Hsort').
  eexists. exists ms'. split; [reflexivity|]. split; [reflexivity|].
  split; [|split; [|split; [|exact Hsort']]].
  - intros c Hin. apply filter_In in Hin. apply Hcs. tauto.
  - intros m Hin. apply Hms, Hin', Hin.
  - intros m c Hin Hcin E. apply filter_In in Hcin.
    apply Hpar; [apply Hin', Hin|tauto|exact E].
Qed.

Lemma world_after_timely sha256_hex coerce c w :
  timely w -> timely (world_after sha256_hex coerce c w).
Proof.
  intros Ht. pose proof Ht as (_ & cs & ms & Hc & Hm & _).
  destruct c as [shot|cid r c0 e|limit offset f|cid|cid|cid updates|cid
                |shot items]; cbn [world_after].
  - apply createConversation_timely, Ht.
  - apply saveMessage_timely, Ht.
  - unfold after. rewrite (getAllConversations_ready w cs ms) by assumption.
    exact Ht.
  - unfold after. rewrite (getConversation_ready w cs) by assumption.
    exact Ht.
  - unfold after.
    rewrite (getConversationWithMessages_ready w cs ms) by assumption.
    exact Ht.
  - apply updateConversation_timely, Ht.
  - apply deleteConversation_timely, Ht.
  - revert w Ht cs ms Hc Hm. intros w Ht _ _ _ _. revert w Ht.
    change (keeps timely (ConversationService.saveCompleteConversation
                            sha256_hex shot items)).
    unfold ConversationService.saveCompleteConversation.
    apply keeps_bind; [apply createConversation_timely|].
    intros made. apply keeps_bind; [|intros; apply keeps_ret].
    apply keeps_for_each. intros it.
    apply keeps_bind; [apply saveMessage_timely|]. intros _.
    apply keeps_bind; [apply saveMessage_timely|]. intros _.
    apply keeps_ret.
Qed.

(** The world after [initialize] on a new database and a sequence of calls
    on the service. *)
Definition session (sha256_hex : jsstring -> jsstring)
    (coerce : affinity -> sqlval -> sqlval) (w0 : World) (calls : list call)
    : World :=
  fold_left (fun w c => world_after sha256_hex coerce c w) calls
    (after (DatabaseService.initialize repo_migrations) w0).

Lemma session_timely sha256_hex coerce w0 calls :
  db w0 = fresh_db -> clock_monotone w0 ->
  timely (session sha256_hex coerce w0 calls).
Proof.
  intros Hfresh Hmono. unfold session.
  assert (H0 : timely (after (DatabaseService.initialize repo_migrations) w0)).
  { rewrite (initialize_fresh w0 Hfresh). split.
    - intros i j Hi Hj. cbn in *. apply Hmono; lia.
    - exists [], []. cbn [db conversations messages].
      split; [reflexivity|]. split; [reflexivity|].
      split; [intros ? []|]. split; [intros ? []|].
      split; [intros ? ? []|constructor]. }
  revert H0. generalize (after (DatabaseService.initialize repo_migrations) w0).
  induction calls as [|c calls IH]; intros w Hw; cbn [fold_left].
  - exact Hw.
  - apply IH, world_after_timely, Hw.
Qed.

(** X20.  With a clock that does not run backwards, in every state the
    service reaches from a new database a conversation's [updated_at] is
    not before its [created_at] and not before the timestamp of any of its
    messages: whatever [getConversationWithMessages] returns satisfies
    both. *)
Theorem updated_at_not_before_activity
    (sha256_hex : jsstring -> jsstring)
    (coerce : affinity -> sqlval -> sqlval)
    (w0 : World) (calls : list call) (cid : jsstring)
    (c : conversation) (msgs : list ui_message) :
  db w0 = fresh_db -> clock_monotone w0 ->
  result (ConversationService.getConversationWithMessages cid)
    (session sha256_hex coerce w0 calls)
  = Returned (Some (c, msgs)) ->
  created_at c <= updated_at c /\
  Forall (fun u => ui_timestamp u <= updated_at c) msgs.
Proof.
  intros Hfresh Hmono Hres.
  destruct (session_timely sha256_hex coerce w0 calls Hfresh Hmono)
    as (_ & cs & ms & Hc & Hm & Hcs & Hms & Hpar & Hsort).
  unfold result in Hres.
  rewrite (getConversationWithMessages_ready _ cs ms cid Hc Hm) in Hres.
  cbn [fst] in Hres.
  destruct (find _ cs) as [c0|] eqn:Hfind; [|discriminate].
  inversion Hres. subst c0 msgs. clear Hres.
  destruct (find_by_id cs cid c Hfind) as [Hin Hid].
  split; [apply Hcs, Hin|].
  apply Forall_forall. intros u Hu. unfold ui_messages in Hu.
  apply in_map_iff in Hu. destruct Hu as (m & <- & Hm').
  apply sort_by_In in Hm'. apply filter_In in Hm'. destruct Hm' as [Hmin E].
  apply Js.eqb_eq in E. cbn [ConversationService.to_ui ui_timestamp].
  apply (Hpar m c Hmin Hin). congruence.
Qed.

(** X21.  With a clock that does not run backwards, a conversation's
    messages are read back in the order in which they were saved: in every
    state the service reaches from a new database,
    [getConversationWithMessages] returns the rows the [messages] table
    holds for the conversation, in table order, so sorting by timestamp
    never reorders them, not even rows with equal timestamps. *)
Theorem messages_read_in_saved_order
    (sha256_hex : jsstring -> jsstring)
    (coerce : affinity -> sqlval -> sqlval)
    (w0 : World) (calls : list call) (cid : jsstring)
    (c : conversation) (msgs : list ui_message) :
  db w0 = fresh_db -> clock_monotone w0 ->
  result (ConversationService.getConversationWithMessages cid)
    (session sha256_hex coerce w0 calls)
  = Returned (Some (c, msgs)) ->
  msgs
  = map ConversationService.to_ui
      (filter (fun m => Js.eqb (conversation_id m) cid)
         (rows_of (messages (db (session sha256_hex coerce w0 calls))))).
Proof.
  intros Hfresh Hmono Hres.
  destruct (session_timely sha256_hex coerce w0 calls Hfresh Hmono)
    as (_ & cs & ms & Hc & Hm & Hcs & Hms & Hpar & Hsort).
  unfold result in Hres.
  rewrite (getConversationWithMessages_ready _ cs ms cid Hc Hm) in Hres.
  cbn [fst] in Hres.
  destruct (find _ cs) as [c0|] eqn:Hfind; [|discriminate].
  inversion Hres. subst c0 msgs. clear Hres.
  rewrite Hm. cbn [rows_of]. unfold ui_messages. f_equal.
  apply sort_by_id.
  apply StronglySorted_filter with (p := fun m => Js.eqb (conversation_id m) cid)
    in Hsort.
  revert Hsort. generalize (filter (fun m => Js.eqb (conversation_id m) cid) ms).
  induction 1 as [|a l Hs IH Hall]; constructor; [exact IH|].
  rewrite Forall_forall in *. intros y Hy. unfold by_timestamp.
  apply Z.leb_le, Hall, Hy.
Qed.

Definition demo_calls : list call :=
  [CreateConversation None;
   SaveMessage (js "id-0") (Some (js "user")) (Some (js "What is this?"))
     false;
   SaveMessage (js "id-0") (Some (js "assistant"))
     (Some (js "A screenshot.")) false;
   UpdateConversation (js "id-0") archive_update].

Definition demo_session_row : conversation :=
  Eval vm_compute in
    match result (ConversationService.getConversation (js "id-0"))
            (session demo_sha256 demo_coerce demo_start demo_calls) with
    | Returned (Some c) => c
    | _ => mkConversation [] None None SNull 0 0 0 SNull SNull
    end.

Definition demo_session_messages : list ui_message :=
  Eval vm_compute in
    match result (ConversationService.getConversationWithMessages (js "id-0"))
            (session demo_sha256 demo_coerce demo_start demo_calls) with
    | Returned (Some (_, msgs)) => msgs
    | _ => []
    end.

Lemma demo_session_read :
  result (ConversationService.getConversationWithMessages (js "id-0"))
    (session demo_sha256 demo_coerce demo_start demo_calls)
  = Returned (Some (demo_session_row, demo_session_messages)).
Proof. vm_compute. reflexivity. Qed.

Lemma demo_start_clock_monotone : clock_monotone demo_start.
Proof.
  intros i j Hi Hj. change (demo_clock i <= demo_clock j).
  unfold demo_clock. lia.
Qed.

Lemma updated_at_not_before_activity_witness :
  created_at demo_session_row <= updated_at demo_session_row /\
  Forall (fun u => ui_timestamp u <= updated_at demo_session_row)
    demo_session_messages.
Proof.
  exact (updated_at_not_before_activity demo_sha256 demo_coerce demo_start
           demo_calls (js "id-0") demo_session_row demo_session_messages
           eq_refl demo_start_clock_monotone demo_session_read).
Defined.

Lemma messages_read_in_saved_order_witness :
  demo_session_messages
  = map ConversationService.to_ui
      (filter (fun m => Js.eqb (conversation_id m) (js "id-0"))
         (rows_of (messages (db (session demo_sha256 demo_coerce demo_start
                                   demo_calls))))).
Proof.
  exact (messages_read_in_saved_order demo_sha256 demo_coerce demo_start
           demo_calls (js "id-0") demo_session_row demo_session_messages
           eq_refl demo_start_clock_monotone demo_session_read).
Defined.

(* ===================================================================== *)
(** * AIService: the payload of a data URL *)
(* ===================================================================== *)

Module AIService.

Definition comma : Js.code_unit := 44%N.

(** [s.split(sep)] for a separator of one code unit. *)
Fixpoint split (sep : Js.code_unit) (s : jsstring) : list jsstring :=
  match s with
  | [] => [[]]
  | c :: s' =>
      if (c =? sep)%N then [] :: split sep s'
      else match split sep s' with
           | p :: ps => (c :: p) :: ps
           | [] => [[c]]
           end
  end.

(** [_extractBase64(dataUrl)] *)
Definition _extractBase64 (dataUrl : jsstring) : outcome jsstring :=
  let parts := split comma dataUrl in
  if (length parts <? 2)%nat
  then Threw (Failure "Invalid image data URL")
  else Returned (nth 1 parts []).

End AIService.

Lemma split_no_separator sep s :
  ~ In sep s -> AIService.split sep s = [s].
Proof.
  induction s as [|c s IH]; intros Hno; [reflexivity|].
  cbn [AIService.split]. destruct (N.eqb_spec c sep) as [->|Hne].
  - exfalso. apply Hno. left. reflexivity.
  - rewrite IH; [reflexivity|]. intros Hin. apply Hno. right. exact Hin.
Qed.

Lemma split_at_separator sep prefix rest :
  ~ In sep prefix ->
  AIService.split sep (prefix ++ sep :: rest)
  = prefix :: AIService.split sep rest.
Proof.
  induction prefix as [|c p IH]; intros Hno; cbn [app AIService.split].
  - rewrite N.eqb_refl. reflexivity.
  - destruct (N.eqb_spec c sep) as [->|Hne].
    + exfalso. apply Hno. left. reflexivity.
    + rewrite IH; [reflexivity|]. intros Hin. apply Hno. right. exact Hin.
Qed.

Lemma split_pieces sep s :
  AIService.split sep s <> [] /\
  Forall (fun p => ~ In sep p) (AIService.split sep s).
Proof.
  induction s as [|c s [IHn IHf]]; cbn [AIService.split].
  - split; [discriminate|]. constructor; [intros []|constructor].
  - destruct (N.eqb_spec c sep) as [->|Hne].
    + split; [discriminate|]. constructor; [intros []|exact IHf].
    + destruct (AIService.split sep s) as [|p ps]; [contradiction|].
      split; [discriminate|]. inversion IHf; subst.
      constructor; [|assumption].
      intros [E|Hin]; [congruence|contradiction].
Qed.

(** X22.  [_extractBase64] returns the text between the first comma and
    the second, or the end: for a prefix and a payload without commas it
    returns the payload of [prefix,payload], also when more follows after a
    further comma.  It throws 'Invalid image data URL' exactly when the
    argument has no comma, and what it returns never contains one. *)
Theorem extractBase64_returns_payload :
  (forall prefix payload,
     ~ In AIService.comma prefix -> ~ In AIService.comma payload ->
     AIService._extractBase64 (prefix ++ AIService.comma :: payload)
     = Returned payload /\
     forall rest,
       AIService._extractBase64
         (prefix ++ AIService.comma :: payload ++ AIService.comma :: rest)
       = Returned payload) /\
  (forall s,
     AIService._extractBase64 s = Threw (Failure "Invalid image data URL")
     <-> ~ In AIService.comma s) /\
  (forall s p, AIService._extractBase64 s = Returned p ->
     ~ In AIService.comma p).
Proof.
  split; [|split].
  - intros prefix payload Hp Hd. unfold AIService._extractBase64. split.
    + rewrite split_at_separator by exact Hp.
      rewrite split_no_separator by exact Hd. reflexivity.
    + intros rest. rewrite split_at_separator by exact Hp.
      rewrite split_at_separator by exact Hd.
      destruct (split_pieces AIService.comma rest) as [Hne _].
      destruct (AIService.split AIService.comma rest); [contradiction|].
      reflexivity.
  - intros s. unfold AIService._extractBase64. split.
    + intros Hthrow Hin. apply in_split in Hin.
      destruct Hin as (l1 & l2 & ->).
      assert (Hlen : exists a b rest,
                AIService.split AIService.comma (l1 ++ AIService.comma :: l2)
                = a :: b :: rest).
      { clear Hthrow. induction l1 as [|c l1 IH]; cbn [app AIService.split].
        - rewrite N.eqb_refl.
          destruct (split_pieces AIService.comma l2) as [Hne _].
          destruct (AIService.split AIService.comma l2) as [|b rest];
            [contradiction|]. eauto.
        - destruct IH as (a & b & rest & ->).
          destruct (c =? AIService.comma)%N; eauto. }
      destruct Hlen as (a & b & rest & E). rewrite E in Hthrow.
      discriminate.
    + intros Hno. rewrite split_no_separator by exact Hno. reflexivity.
  - intros s p. unfold AIService._extractBase64.
    destruct (split_pieces AIService.comma s) as [_ Hall].
    destruct (AIService.split AIService.comma s) as [|a [|b rest]];
      cbn; try discriminate.
    intros H. inversion H. subst p.
    inversion Hall as [|? ? _ Hall']; subst.
    inversion Hall'; subst. assumption.
Qed.

(* ===================================================================== *)
(** * The listing against the rest of the store *)
(* ===================================================================== *)

(** The one row of the listing of [demo_answered]. *)
Definition demo_session_summary : summary :=
  Eval vm_compute in
    match result (ConversationService.getAllConversations None None None)
            demo_answered with
    | Returned (s :: _) => s
    | _ => mkSummary [] 0 0 0 SNull SNull [] []
    end.

(** X23.  The count a listing shows is the number of messages the
    conversation has: in every state reached from a new database, each
    listed conversation's [message_count] is the number of rows of
    [messages] under its id, and opening it with
    [getConversationWithMessages] returns that many messages. *)
Theorem listed_count_is_number_of_messages
    (sha256_hex : jsstring -> jsstring)
    (coerce : affinity -> sqlval -> sqlval) (w : World)
    (limit offset : option Z) (f : option filters)
    (l : list summary) (s : summary) (ms : list message) :
  reachable sha256_hex coerce w ->
  messages (db w) = Some ms ->
  result (ConversationService.getAllConversations limit offset f) w
  = Returned l ->
  In s l ->
  s_message_count s = Z.of_nat (count_messages (s_id s) ms) /\
  exists c msgs,
    result (ConversationService.getConversationWithMessages (s_id s)) w
    = Returned (Some (c, msgs)) /\
    Z.of_nat (length msgs) = s_message_count s.
Proof.
  intros Hr Hm Hres Hin.
  pose proof (reachable_store_ok sha256_hex coerce w Hr) as Hok.
  destruct (getAllConversations_returned _ _ _ _ _ Hres)
    as (cs & ms0 & Hc & Hm0 & ->).
  assert (ms0 = ms) by congruence. subst ms0.
  apply in_map_iff in Hin. destruct Hin as (c & <- & Hsel).
  apply selected_In in Hsel. destruct Hsel as [Hcin _].
  cbn [ConversationService.to_summary listing_row s_message_count s_id
       l_message_count l_id].
  pose proof Hok as (_ & cs1 & ms1 & Hc1 & Hm1 & Hnd & _ & Hcnt).
  assert (cs1 = cs) by congruence. assert (ms1 = ms) by congruence.
  subst cs1 ms1.
  split; [apply Hcnt, Hcin|].
  assert (Hget : result (ConversationService.getConversation (c_id c)) w
                 = Returned (Some c)).
  { unfold result. rewrite (getConversation_ready w cs (c_id c) Hc).
    cbn [fst]. rewrite (find_unique_id cs (c_id c) c Hnd Hcin eq_refl).
    reflexivity. }
  destruct (store_ok_count w (c_id c) c Hok Hget) as (ms2 & Hm2 & Hread & Hn).
  assert (ms2 = ms) by congruence. subst ms2.
  exists c, (ui_messages (c_id c) ms). split; [exact Hread|].
  rewrite ui_messages_length. symmetry. exact Hn.
Qed.

Lemma listed_count_is_number_of_messages_witness :
  s_message_count demo_session_summary
  = Z.of_nat (count_messages (s_id demo_session_summary)
                demo_answered_messages).
Proof.
  refine (proj1 (listed_count_is_number_of_messages demo_sha256 demo_coerce
                   demo_answered None None None
                   [demo_session_summary] demo_session_summary
                   demo_answered_messages demo_answered_reachable
                   demo_answered_messages_eq _ (or_introl eq_refl))).
  vm_compute. reflexivity.
Defined.

Lemma NoDup_firstn {A} n (l : list A) : NoDup l -> NoDup (firstn n l).
Proof.
  intros H. rewrite <- (firstn_skipn n l) in H.
  apply NoDup_app_remove_r in H. exact H.
Qed.

Lemma NoDup_skipn {A} n (l : list A) : NoDup l -> NoDup (skipn n l).
Proof.
  intros H. rewrite <- (firstn_skipn n l) in H.
  apply NoDup_app_remove_l in H. exact H.
Qed.

Lemma NoDup_app_apart {A} (l1 l2 : list A) x :
  NoDup (l1 ++ l2) -> In x l1 -> In x l2 -> False.
Proof.
  induction l1 as [|a l1 IH]; simpl; intros Hnd H1 H2; [exact H1|].
  inversion Hnd as [|? ? Hna Hnd']; subst.
  destruct H1 as [->|H1].
  - apply Hna, in_or_app. right. exact H2.
  - exact (IH Hnd' H1 H2).
Qed.

Lemma selected_NoDup cs limit offset f :
  NoDup (map c_id cs) -> NoDup (map c_id (selected cs limit offset f)).
Proof.
  intros Hnd. unfold selected, limit_offset.
  set (kept := filter _ cs).
  assert (Hs : NoDup (map c_id (sort_by by_updated_desc kept))).
  { eapply Permutation_NoDup;
      [apply Permutation_map, sort_by_perm|apply NoDup_map_filter, Hnd]. }
  destruct (effective_limit limit <? 0).
  - rewrite <- skipn_map. apply NoDup_skipn, Hs.
  - rewrite <- firstn_map, <- skipn_map. apply NoDup_firstn, NoDup_skipn, Hs.
Qed.

(** X24.  No conversation is listed twice: in every state reached from a
    new database the ids of a listing are pairwise different, and two
    consecutive pages under the same filters have no conversation in
    common. *)
Theorem listing_has_no_duplicates
    (sha256_hex : jsstring -> jsstring)
    (coerce : affinity -> sqlval -> sqlval) (w : World) :
  reachable sha256_hex coerce w ->
  (forall limit offset f l,
     result (ConversationService.getAllConversations limit offset f) w
     = Returned l ->
     NoDup (map s_id l)) /\
  (forall a b o f la lb s s',
     0 <= a -> 0 <= b -> 0 <= o ->
     result (ConversationService.getAllConversations (Some a) (Some o) f) w
     = Returned la ->
     result (ConversationService.getAllConversations (Some b) (Some (o + a))
               f) w
     = Returned lb ->
     In s la -> In s' lb -> s_id s <> s_id s').
Proof.
  intros Hr.
  destruct (reachable_store_ok sha256_hex coerce w Hr)
    as (_ & cs & ms & Hc & Hm & Hnd & _).
  assert (Hids : forall l0 : list conversation,
            map s_id (map (fun c => ConversationService.to_summary
                                      (listing_row ms c)) l0)
            = map c_id l0).
  { intros l0. rewrite map_map. apply map_ext. reflexivity. }
  assert (Hall : forall limit offset f l,
            result (ConversationService.getAllConversations limit offset f) w
            = Returned l ->
            l = map (fun c => ConversationService.to_summary (listing_row ms c))
                  (selected cs limit offset f)).
  { intros limit offset f l Hres. unfold result in Hres.
    rewrite (getAllConversations_ready w cs ms) in Hres by assumption.
    cbn [fst] in Hres. inversion Hres. reflexivity. }
  split.
  - intros limit offset f l Hres. rewrite (Hall _ _ _ _ Hres), Hids.
    apply selected_NoDup, Hnd.
  - intros a b o f la lb s s' Ha Hb Ho Hla Hlb Hs Hs' E.
    pose proof (selected_NoDup cs (Some (a + b)) (Some o) f Hnd) as Hboth.
    unfold selected in Hboth. cbn [effective_limit effective_offset] in Hboth.
    rewrite limit_offset_compose, map_app in Hboth by assumption.
    rewrite (Hall _ _ _ _ Hla) in Hs. rewrite (Hall _ _ _ _ Hlb) in Hs'.
    apply (in_map s_id) in Hs. apply (in_map s_id) in Hs'.
    rewrite Hids in Hs, Hs'. unfold selected in Hs, Hs'.
    cbn [effective_limit effective_offset] in Hs, Hs'.
    rewrite E in Hs.
    exact (NoDup_app_apart _ _ (s_id s') Hboth Hs Hs').
Qed.

Lemma listing_has_no_duplicates_witness :
  NoDup (map s_id [demo_session_summary]).
Proof.
  refine (proj1 (listing_has_no_duplicates demo_sha256 demo_coerce
                   demo_answered demo_answered_reachable)
            None None None [demo_session_summary] _).
  vm_compute. reflexivity.
Defined.
